(** * Filter-wheel fleet manager: [labserver.devices.thorlabs_fw] and
      [labserver.devices.filter_rack]

    A shallow embedding of the [FilterWheel] and [FilterRack] classes and
    the properties of their selection, status and introspection methods.

    Modelling conventions.
    - A Python [float] is the rational [Q] it stands for: every finite
      binary64 value is one, and comparison and [abs] are exact on them.
      A subtraction and a conversion by [float()] round to binary64, to
      the nearest value with ties to the even mantissa ([binary64]).  NaN,
      the infinities and overflow are outside the model.  Python's [==]
      on floats is [Qeq_bool].
    - A [dict] is an association list in insertion order: assignment to an
      existing key keeps the position of the key and replaces the value,
      assignment to a new key appends.
    - The vendor library [FWxC_COMMAND_LIB], the clock and the built-in
      reading of a number from text by [float()] are the environment: the
      classes [Hardware], [Driver] and [PyFloat].  Every position and
      close call into the vendor library is recorded in the [trace] of the
      [World], every [warnings.warn] of a method in its [warned] list;
      opening and listing devices leave no record, and the warnings of
      [from_yaml] are returned beside its result.
    - A method that may raise returns a [result]; a method that talks to
      the device takes and returns the [World].  The methods that assign
      to an attribute ([connect], [disconnect], [close]) return the object
      as they leave it.  The module [Obj] has the public operations of the
      rack once more, as programs on the mutable object, to say what they
      leave of it. *)

From Stdlib Require Import List String Ascii ZArith QArith Qabs Qround Qpower Bool Lia Lqa.
From Stdlib Require DecimalString.
Import ListNotations.

Local Open Scope string_scope.
Local Open Scope list_scope.
Local Open Scope Z_scope.

(** ** Python values and exceptions *)

Inductive thorlabs_cause : Type :=
| NotConnected                       (* "wheel not connected" *)
| GetPositionFailed (rc : Z)         (* "GetPosition failed (code rc)" *)
| SetPositionFailed (slot rc : Z).   (* "SetPosition(slot) failed (code rc)" *)

Inductive key_error : Type :=
| NoBandpassNear (wl tol : Q)        (* "No band-pass filter near wl nm (+-tol)" *)
| NoNDNear (od tol : Q)              (* "No ND filter ~od (+-tol)" *)
| MissingKey (k : string).           (* d[k] on an absent key *)

Inductive exn : Type :=
| ValueError
| TypeError
| IndexError
| TimeoutError
| KeyError (why : key_error)
| ThorlabsError (why : thorlabs_cause).

Inductive result (A : Type) : Type :=
| Ok (a : A)
| Raise (e : exn).

Arguments Ok {A} a.
Arguments Raise {A} e.

(** ** Strings: [str.upper], [str.split], [str.isspace] on ASCII text *)

Definition upper_ascii (c : ascii) : ascii :=
  let n := nat_of_ascii c in
  if (97 <=? n)%nat && (n <=? 122)%nat then ascii_of_nat (n - 32) else c.

Fixpoint upper (s : string) : string :=
  match s with
  | EmptyString => EmptyString
  | String c s' => String (upper_ascii c) (upper s')
  end.

(** Whitespace as [str.split()] and [float()] see it: tab, LF, VT, FF, CR,
    the four separators 0x1c..0x1f and the space. *)
Definition isspace (c : ascii) : bool :=
  let n := nat_of_ascii c in
  ((9 <=? n)%nat && (n <=? 13)%nat) || ((28 <=? n)%nat && (n <=? 32)%nat).

(** [split_aux cur s]: [cur] is the token being read, reversed. *)
Fixpoint split_aux (cur : list ascii) (s : string) : list string :=
  match s with
  | EmptyString =>
      match cur with
      | [] => []
      | _ => [string_of_list_ascii (rev cur)]
      end
  | String c s' =>
      if isspace c then
        match cur with
        | [] => split_aux [] s'
        | _ => string_of_list_ascii (rev cur) :: split_aux [] s'
        end
      else split_aux (c :: cur) s'
  end.

Definition split (s : string) : list string := split_aux [] s.

(** [xs[-1]]: IndexError on the empty list. *)
Definition last_item {A : Type} (xs : list A) : result A :=
  match rev xs with
  | [] => Raise IndexError
  | x :: _ => Ok x
  end.

(** ** Floats *)

Definition Qlt_bool (x y : Q) : bool := negb (Qle_bool y x).

(** [2 ** e] *)
Definition pow2 (e : Z) : Q := Qpower 2 e.

(** The integer nearest to [x]; half-way between two, the even one. *)
Definition round_half_even (x : Q) : Z :=
  let f := Qfloor x in
  match Qcompare (x - inject_Z f) (1 # 2) with
  | Lt => f
  | Gt => f + 1
  | Eq => if Z.even f then f else f + 1
  end.

(** The exponent of the last mantissa bit of the binary64 values around
    [q]: 53 bits of mantissa, and nothing finer than [2 ** -1074], the
    spacing of the subnormal numbers. *)
Definition ulp_exponent (q : Q) : Z :=
  Z.max (Z.log2 (Qfloor (Qabs q * pow2 1074)) - 52) 0 - 1074.

(** Rounding to binary64: the multiple of [2 ** ulp_exponent q] nearest
    to [q], ties to the even multiple.  What overflows to an infinity in
    Python is a finite number here. *)
Definition binary64 (q : Q) : Q :=
  let e := ulp_exponent q in
  Qred (inject_Z (round_half_even (q / pow2 e)) * pow2 e).

(** [abs(a - b)] on floats: the difference is rounded, [abs] is exact.
    An [int] operand is converted to a float first, which changes nothing
    below [2 ** 53]. *)
Definition dist (a b : Q) : Q := Qabs (binary64 (a - b)).

(** Every finite float is a whole multiple of [2 ** -1074]. *)
Definition on_grid (q : Q) : Prop :=
  exists z : Z, (q == inject_Z z * pow2 (-1074))%Q.

(** The number a text denotes to the built-in [float()]; [None] where
    [float()] raises ValueError. *)
Class PyFloat : Type := py_float : string -> option Q.

(** [float(s)] on a string: the number it denotes, rounded. *)
Definition float_str {pf : PyFloat} (s : string) : option Q :=
  option_map binary64 (py_float s).

(** ** Dictionaries *)

Section Dict.
Context {K V : Type} (eqb : K -> K -> bool).

Fixpoint dict_get (d : list (K * V)) (k : K) : option V :=
  match d with
  | [] => None
  | (k', v) :: d' => if eqb k' k then Some v else dict_get d' k
  end.

(** [d[k] = v] *)
Fixpoint dict_set (d : list (K * V)) (k : K) (v : V) : list (K * V) :=
  match d with
  | [] => [(k, v)]
  | (k', v') :: d' =>
      if eqb k' k then (k', v) :: d' else (k', v') :: dict_set d' k v
  end.

Definition dict_mem (d : list (K * V)) (k : K) : bool :=
  match dict_get d k with Some _ => true | None => false end.
End Dict.

(** ** The vendor library and the clock *)

Inductive Cmd : Type :=
| CmdGetPosition (handle : Z)
| CmdSetPosition (handle slot : Z)
| CmdClose (handle : Z).

(** [S] is the state of everything behind the DLL boundary.  The calls
    return the status code first; [FWxCGetPosition] also returns what it
    wrote into its out-parameter.  [polls_until_deadline d p s] is the
    number of times the loop [while time.monotonic() < deadline] of a
    blocking move is entered when the deadline is [d] seconds away and each
    round sleeps [p] seconds; [time_sleep] is what a sleep does to the
    world. *)
Class Hardware (S : Type) : Type := {
  FWxCGetPosition : Z -> S -> Z * Z * S;
  FWxCSetPosition : Z -> Z -> S -> Z * S;
  FWxCClose : Z -> S -> S;
  polls_until_deadline : Q -> Q -> S -> nat;
  time_sleep : Q -> S -> S
}.

Record World (S : Type) : Type := mkWorld {
  dll : S;
  trace : list Cmd;                         (* newest call first *)
  warned : list (string * thorlabs_cause)   (* "[FilterRack] k: e" *)
}.

Arguments mkWorld {S} _ _ _.
Arguments dll {S} _.
Arguments trace {S} _.
Arguments warned {S} _.

Section Calls.
Context {S : Type} `{Hardware S}.

(** One call into the DLL: run it and put it on the trace (newest call
    first). *)
Definition call_get (handle : Z) (w : World S) : Z * Z * World S :=
  let '(rc, pos, s) := FWxCGetPosition handle (dll w) in
  (rc, pos, mkWorld s (CmdGetPosition handle :: trace w) (warned w)).

Definition call_set (handle slot : Z) (w : World S) : Z * World S :=
  let '(rc, s) := FWxCSetPosition handle slot (dll w) in
  (rc, mkWorld s (CmdSetPosition handle slot :: trace w) (warned w)).

Definition call_close (handle : Z) (w : World S) : World S :=
  mkWorld (FWxCClose handle (dll w)) (CmdClose handle :: trace w) (warned w).

Definition sleep (p : Q) (w : World S) : World S :=
  mkWorld (time_sleep p (dll w)) (trace w) (warned w).

(** [warnings.warn(f"[FilterRack] {k}: {e}")] *)
Definition warn (k : string) (e : thorlabs_cause) (w : World S) : World S :=
  mkWorld (dll w) (trace w) (warned w ++ [(k, e)]).
End Calls.

(** The calls of a run, oldest first. *)
Definition history {S : Type} (w : World S) : list Cmd := rev (trace w).

(** The position-set commands of a run, oldest first. *)
Definition moves {S : Type} (w : World S) : list Cmd :=
  filter (fun c => match c with CmdSetPosition _ _ => true | _ => false end)
         (history w).

(** ** More of the strings: [str.lower], [in], [str.strip], [str.replace],
    [str(int)] *)

Definition lower_ascii (c : ascii) : ascii :=
  let n := nat_of_ascii c in
  if (65 <=? n)%nat && (n <=? 90)%nat then ascii_of_nat (n + 32) else c.

Fixpoint lower (s : string) : string :=
  match s with
  | EmptyString => EmptyString
  | String c s' => String (lower_ascii c) (lower s')
  end.

Fixpoint starts_with (sub s : string) : bool :=
  match sub, s with
  | EmptyString, _ => true
  | String a sub', String b s' => Ascii.eqb a b && starts_with sub' s'
  | String _ _, EmptyString => false
  end.

(** [sub in s] *)
Fixpoint contains (sub s : string) : bool :=
  starts_with sub s ||
  match s with
  | EmptyString => false
  | String _ s' => contains sub s'
  end.

(** [str.strip] *)
Fixpoint lstrip (s : string) : string :=
  match s with
  | EmptyString => EmptyString
  | String c s' => if isspace c then lstrip s' else s
  end.

Definition rev_string (s : string) : string :=
  string_of_list_ascii (rev (list_ascii_of_string s)).

Definition strip (s : string) : string :=
  rev_string (lstrip (rev_string (lstrip s))).

(** [txt.replace(",", " ")] *)
Fixpoint commas_to_spaces (s : string) : string :=
  match s with
  | EmptyString => EmptyString
  | String c s' =>
      String (if Ascii.eqb c "," then " "%char else c) (commas_to_spaces s')
  end.

(** [str(n)] for an [int] *)
Definition str_of_int (n : Z) : string :=
  DecimalString.NilZero.string_of_int (Z.to_int n).

(** ** Opening a device *)

(** [FWxCOpen(serial, baud, timeout)] returns a handle, negative on
    failure; [FWxCListDevices()] returns the attached devices, as bytes or
    as a list of entries.  They are kept apart from [Hardware]; the
    [trace] records the position and close calls only. *)
Inductive device_list : Type :=
| DevBytes (txt : string)                   (* b"SN1,SN2" *)
| DevEntries (l : list (string * string)).  (* [[serial, description], ...] *)

Class Driver (S : Type) : Type := {
  FWxCOpen : string -> Z -> Q -> S -> Z * S;
  FWxCListDevices : S -> device_list * S
}.

Definition call_open {S : Type} `{Driver S} (serial : string) (baud : Z)
           (timeout : Q) (w : World S) : Z * World S :=
  let '(h, s) := FWxCOpen serial baud timeout (dll w) in
  (h, mkWorld s (trace w) (warned w)).

(** ** Reading a trace *)

Definition cmd_handle (c : Cmd) : Z :=
  match c with
  | CmdGetPosition h => h
  | CmdSetPosition h _ => h
  | CmdClose h => h
  end.

Definition is_set (c : Cmd) : bool :=
  match c with CmdSetPosition _ _ => true | _ => false end.

Definition is_close (c : Cmd) : bool :=
  match c with CmdClose _ => true | _ => false end.

(** ** [class FilterWheel] *)

Module FilterWheel.

Record t : Type := mk {
  serial : string;
  baud : Z;
  timeout_s : Q;
  slots : Z;
  poll_s : Q;
  type : string;                    (* [type or "unknown"] *)
  filters : list (Z * string);      (* slot -> name, "EMPTY" for none *)
  _hdl : option Z
}.

Record Status : Type := mkStatus {
  st_serial : string;
  st_connected : bool;
  st_position : option Z;
  st_current_filter : option string;
  st_type : string
}.

Definition set_hdl (self : t) (h : option Z) : t :=
  mk (serial self) (baud self) (timeout_s self) (slots self) (poll_s self)
     (type self) (filters self) h.

Definition set_filters (self : t) (fs : list (Z * string)) : t :=
  mk (serial self) (baud self) (timeout_s self) (slots self) (poll_s self)
     (type self) fs (_hdl self).

Section Methods.
Context {S : Type} `{Hardware S}.

Definition close_device (handle : Z) (w : World S) : World S :=
  call_close handle w.

Definition get_position_raw (handle : Z) (w : World S)
  : result Z * World S :=
  let '(rc, pos, w1) := call_get handle w in
  if rc <? 0 then (Raise (ThorlabsError (GetPositionFailed rc)), w1)
  else (Ok pos, w1).

Definition set_position_raw (handle slot : Z) (w : World S)
  : result unit * World S :=
  let '(rc, w1) := call_set handle slot w in
  if rc <? 0 then (Raise (ThorlabsError (SetPositionFailed slot rc)), w1)
  else (Ok tt, w1).

Definition _handle_alive (self : t) (w : World S) : bool * World S :=
  match _hdl self with
  | None => (false, w)
  | Some h =>
      match get_position_raw h w with
      | (Ok _, w1) => (true, w1)
      | (Raise _, w1) => (false, w1)
      end
  end.

Definition is_connected (self : t) (w : World S) : bool * World S :=
  _handle_alive self w.

(** [if self._hdl:] is false for [None] and for the handle 0. *)
Definition disconnect (self : t) (w : World S) : t * World S :=
  match _hdl self with
  | None => (self, w)
  | Some h =>
      if h =? 0 then (self, w)
      else (set_hdl self None, close_device h w)
  end.

Definition get_position (self : t) (w : World S) : result Z * World S :=
  let '(c, w1) := is_connected self w in
  if negb c then (Raise (ThorlabsError NotConnected), w1)
  else
    match _hdl self with
    | Some h => get_position_raw h w1
    | None => (Raise (ThorlabsError NotConnected), w1)
    end.

(** The loop [while time.monotonic() < deadline] of [move_to], entered
    [n] more times before the deadline passes. *)
Fixpoint wait_for_slot (n : nat) (self : t) (slot : Z) (w : World S)
  : result unit * World S :=
  match n with
  | O => (Raise TimeoutError, w)
  | Datatypes.S n' =>
      match get_position self w with
      | (Raise e, w1) => (Raise e, w1)
      | (Ok p, w1) =>
          if p =? slot then (Ok tt, w1)
          else wait_for_slot n' self slot (sleep (poll_s self) w1)
      end
  end.

(** [timeout or self.timeout_s] *)
Definition effective_timeout (self : t) (timeout : option Q) : Q :=
  match timeout with
  | Some d => if Qeq_bool d 0 then timeout_s self else d
  | None => timeout_s self
  end.

Definition move_to (self : t) (slot : Z) (block : bool)
           (timeout : option Q) (w : World S) : result unit * World S :=
  if (slot <? 0) || (slot >? slots self) then (Raise ValueError, w)
  else
    let '(c, w1) := is_connected self w in
    if negb c then (Raise (ThorlabsError NotConnected), w1)
    else
      match _hdl self with
      | None => (Raise (ThorlabsError NotConnected), w1)
      | Some h =>
          match set_position_raw h slot w1 with
          | (Raise e, w2) => (Raise e, w2)
          | (Ok _, w2) =>
              if negb block then (Ok tt, w2)
              else
                let n := polls_until_deadline
                           (effective_timeout self timeout)
                           (poll_s self) (dll w2) in
                wait_for_slot n self slot w2
          end
      end.

Definition list_filters (self : t) : list (Z * string) := filters self.

(** [self.filters.get(pos, "UNKNOWN") if pos else None]: [pos] is
    falsy when it is [None] and when it is 0. *)
Definition current_filter (self : t) (pos : option Z) : option string :=
  match pos with
  | None => None
  | Some p =>
      if p =? 0 then None
      else
        match dict_get Z.eqb (filters self) p with
        | Some name => Some name
        | None => Some "UNKNOWN"
        end
  end.

Definition status (self : t) (w : World S) : result Status * World S :=
  let '(c, w1) := is_connected self w in
  let '(rpos, w2) :=
    if c then
      match get_position self w1 with
      | (Ok p, w2) => (Ok (Some p), w2)
      | (Raise e, w2) => (Raise e, w2)
      end
    else (Ok None, w1) in
  match rpos with
  | Raise e => (Raise e, w2)
  | Ok pos =>
      let '(c', w3) := is_connected self w2 in
      (Ok (mkStatus (serial self) c' pos (current_filter self pos)
                    (type self)), w3)
  end.
(** *** Connection *)

Context {drv : Driver S}.

(** What [open_device] gives: the handle, or the message of the
    ThorlabsError it raises. *)
Inductive opened : Type :=
| Opened (h : Z)
| OpenError (msg : string).

(** [f"FWxCOpen({serial_str}) failed (code {h})"] *)
Definition open_error_message (serial : string) (h : Z) : string :=
  ("FWxCOpen(" ++ serial ++ ") failed (code " ++ str_of_int h ++ ")")%string.

Definition open_device (device_id : string) (baud : Z) (timeout : Q)
           (w : World S) : opened * World S :=
  let '(h, w1) := call_open device_id baud timeout w in
  if h <? 0 then (OpenError (open_error_message device_id h), w1)
  else (Opened h, w1).

(** [_safe_reopen]: the message of the error raised, if any, the wheel
    and the world afterwards.  The handle is cleared before the open. *)
Definition _safe_reopen (self : t) (w : World S)
  : option string * t * World S :=
  let w1 :=
    match _hdl self with
    | Some h => close_device h w
    | None => w
    end in
  match open_device (serial self) (baud self) (timeout_s self) w1 with
  | (Opened h, w2) => (None, set_hdl self (Some h), w2)
  | (OpenError msg, w2) => (Some msg, set_hdl self None, w2)
  end.

(** [self._hdl and not force and self._handle_alive()] *)
Definition still_alive (self : t) (force : bool) (w : World S)
  : bool * World S :=
  match _hdl self with
  | None => (false, w)
  | Some h =>
      if h =? 0 then (false, w)
      else if force then (false, w)
      else _handle_alive self w
  end.

Definition connect (self : t) (force : bool) (w : World S)
  : option string * t * World S :=
  let '(alive, w1) := still_alive self force w in
  if alive then (None, self, w1)
  else
    match _safe_reopen self w1 with
    | (None, self1, w2) => (None, self1, w2)
    | (Some msg, self1, w2) =>
        if contains "failed" (lower msg) then _safe_reopen self1 w2
        else (Some msg, self1, w2)
    end.

(** *** Moving by filter name *)

(** What [move_to_filter] raises: its own KeyError, or whatever [move_to]
    raises. *)
Inductive filter_move : Type :=
| Moved
| FilterNotFound (name serial : string)
| MoveRaised (e : exn).

(** The slot the loop of [move_to_filter] stops at. *)
Fixpoint slot_of_filter (fs : list (Z * string)) (target : string)
  : option Z :=
  match fs with
  | [] => None
  | (s, fname) :: fs' =>
      if String.eqb (lower fname) target then Some s
      else slot_of_filter fs' target
  end.

Definition move_to_filter (self : t) (name : string) (block : bool)
           (timeout : option Q) (w : World S) : filter_move * World S :=
  match slot_of_filter (filters self) (lower name) with
  | Some s =>
      match move_to self s block timeout w with
      | (Ok _, w1) => (Moved, w1)
      | (Raise e, w1) => (MoveRaised e, w1)
      end
  | None => (FilterNotFound name (serial self), w)
  end.

(** *** Listing devices *)

(** What [list_devices] makes of the value [FWxCListDevices] returned. *)
Definition parse_devices (devices : device_list) : list string :=
  match devices with
  | DevBytes txt =>
      filter (fun d => negb (String.eqb d ""))
             (split (commas_to_spaces (strip txt)))
  | DevEntries l => map fst l
  end.

Definition list_devices (w : World S) : list string * World S :=
  let '(devices, s) := FWxCListDevices (dll w) in
  (parse_devices devices, mkWorld s (trace w) (warned w)).

End Methods.

(** *** Construction *)

(** The keyword arguments of the constructor, as a wheel entry of the
    configuration gives them; an absent key is [None]. *)
Record Spec : Type := mkSpec {
  sp_serial : string;
  sp_baud : option Z;
  sp_timeout_s : option Q;
  sp_slots : option Z;
  sp_poll_s : option Q;
  sp_type : option string;
  sp_filters : option (list (Z * option string))
}.

(** [v or "EMPTY"] *)
Definition name_or_empty (v : option string) : string :=
  match v with
  | None => "EMPTY"
  | Some EmptyString => "EMPTY"
  | Some n => n
  end.

(** [{int(k): (v or "EMPTY") for k, v in (filters or {}).items()}] *)
Fixpoint filters_of (fs : list (Z * option string))
         (d : list (Z * string)) : list (Z * string) :=
  match fs with
  | [] => d
  | (k, v) :: fs' => filters_of fs' (dict_set Z.eqb d k (name_or_empty v))
  end.

Definition default {A : Type} (v : option A) (d : A) : A :=
  match v with Some a => a | None => d end.

(** [FilterWheel.__init__] *)
Definition init (sp : Spec) : t :=
  mk (sp_serial sp)
     (default (sp_baud sp) 115200)
     (default (sp_timeout_s sp) 3%Q)
     (default (sp_slots sp) 6)
     (default (sp_poll_s sp) (1 # 20)%Q)
     (match sp_type sp with
      | None => "unknown"
      | Some EmptyString => "unknown"
      | Some ty => ty
      end)
     (filters_of (default (sp_filters sp) []) [])
     None.

End FilterWheel.

(** ** [load_wheels_from_yaml] *)

(** [index.setdefault(name, []).append(entry)] *)
Fixpoint setdefault_append (index : list (string * list (string * Z)))
         (name : string) (entry : string * Z)
  : list (string * list (string * Z)) :=
  match index with
  | [] => [(name, [entry])]
  | (n, es) :: index' =>
      if String.eqb n name then (n, es ++ [entry]) :: index'
      else (n, es) :: setdefault_append index' name entry
  end.

(** [fname and fname.upper() != "EMPTY"] *)
Definition is_filter_name (fname : string) : bool :=
  negb (String.eqb fname "") && negb (String.eqb (upper fname) "EMPTY").

(** The inner loop: the slots of one wheel. *)
Fixpoint index_names (key : string) (fs : list (Z * string))
         (index : list (string * list (string * Z)))
  : list (string * list (string * Z)) :=
  match fs with
  | [] => index
  | (slot, fname) :: fs' =>
      index_names key fs'
        (if is_filter_name fname
         then setdefault_append index (lower fname) (key, slot)
         else index)
  end.

(** The outer loop, on the [filter_wheels] section of the configuration
    document. *)
Fixpoint load_wheels (wheels_cfg : list (string * FilterWheel.Spec))
         (wheels : list (string * FilterWheel.t))
         (index : list (string * list (string * Z)))
  : list (string * FilterWheel.t) * list (string * list (string * Z)) :=
  match wheels_cfg with
  | [] => (wheels, index)
  | (key, spec) :: cfg' =>
      let wheel := FilterWheel.init spec in
      load_wheels cfg' (dict_set String.eqb wheels key wheel)
                  (index_names key (FilterWheel.filters wheel) index)
  end.

Definition load_wheels_from_yaml (wheels_cfg : list (string * FilterWheel.Spec))
  : list (string * FilterWheel.t) * list (string * list (string * Z)) :=
  load_wheels wheels_cfg [] [].

(** ** Python's [min] *)

(** [min] walks the items once and replaces the best so far by an item
    only when [item < best]. *)
Fixpoint min_from {A : Type} (lt : A -> A -> bool) (best : A) (xs : list A) : A :=
  match xs with
  | [] => best
  | x :: xs' => min_from lt (if lt x best then x else best) xs'
  end.

Definition py_min {A : Type} (lt : A -> A -> bool) (xs : list A) : option A :=
  match xs with
  | [] => None
  | x :: xs' => Some (min_from lt x xs')
  end.

(** ** [class FilterRack] *)

Module FilterRack.

Definition BP : string := "bandpass".
Definition ND : string := "nd".

(** (wheel, slot, name) *)
Definition triple : Type := string * Z * string.

(** A value of the configuration as [float()] takes it. *)
Inductive scalar : Type :=
| Num (q : Q)        (* an int, a float *)
| Str (s : string)
| NotNumber.         (* None, a sequence, a mapping *)

(** An entry of the [filters] section of the configuration: both keys
    are optional. *)
Record FilterMeta : Type := mkMeta {
  m_type : option string;
  m_wavelength : option scalar
}.

Definition index : Type := list (Q * triple).

Record t : Type := mk {
  wheels : list (string * FilterWheel.t);
  meta : list (string * FilterMeta);
  offline : list string;
  online : list string;
  _wl_index : index;     (* nm -> (wheel, slot, name) *)
  _nd_index : index      (* OD -> (wheel, slot, name) *)
}.

(** [k in xs] for a list of strings *)
Definition mem (k : string) (xs : list string) : bool :=
  existsb (String.eqb k) xs.

(** Order of Python tuples: the first position where the two differ
    decides. *)
Definition triple_lt (a b : triple) : bool :=
  let '(k1, s1, n1) := a in
  let '(k2, s2, n2) := b in
  if negb (String.eqb k1 k2) then String.ltb k1 k2
  else if negb (s1 =? s2) then s1 <? s2
  else String.ltb n1 n2.

Definition cand_lt (a b : Q * triple) : bool :=
  if negb (Qeq_bool (fst a) (fst b)) then Qlt_bool (fst a) (fst b)
  else triple_lt (snd a) (snd b).

(** [key=lambda t: t[0]] *)
Definition key_lt (a b : Q * triple) : bool := Qlt_bool (fst a) (fst b).

(** [[(abs(target - v), triple) for v, triple in idx.items()
      if abs(target - v) <= tol]] *)
Fixpoint cands (idx : index) (target tol : Q) : list (Q * triple) :=
  match idx with
  | [] => []
  | (v, tr) :: idx' =>
      if Qle_bool (dist target v) tol
      then (dist target v, tr) :: cands idx' target tol
      else cands idx' target tol
  end.

Definition is_empty_name (n : string) : bool := String.eqb (upper n) "EMPTY".

(** The first slot of the map that holds "EMPTY", in the order of the
    map. *)
Fixpoint first_empty (fs : list (Z * string)) : option Z :=
  match fs with
  | [] => None
  | (s, n) :: fs' => if is_empty_name n then Some s else first_empty fs'
  end.

Section Build.
Context {pf : PyFloat}.

(** [self.meta.get(name, {})] *)
Definition f_meta_of (mt : list (string * FilterMeta)) (name : string)
  : FilterMeta :=
  match dict_get String.eqb mt name with
  | Some m => m
  | None => mkMeta None None
  end.

(** [f_meta.get("type", ND if wheel.type == ND else BP)] *)
Definition f_type_of (mt : list (string * FilterMeta))
           (wheel : FilterWheel.t) (name : string) : string :=
  match m_type (f_meta_of mt name) with
  | Some ty => ty
  | None => if String.eqb (FilterWheel.type wheel) ND then ND else BP
  end.

(** [float(v)]: ValueError on a text that is no number, TypeError on
    what is neither a number nor a text. *)
Definition to_float (v : scalar) : result Q :=
  match v with
  | Num q => Ok (binary64 q)
  | Str s =>
      match float_str s with
      | Some q => Ok q
      | None => Raise ValueError
      end
  | NotNumber => Raise TypeError
  end.

(** The body of the inner loop of [_build_indices] on one slot. *)
Definition index_slot (mt : list (string * FilterMeta)) (wkey : string)
           (wheel : FilterWheel.t) (slot : Z) (name : string)
           (idx : index * index) : result (index * index) :=
  if is_empty_name name then Ok idx
  else
    let f_meta := f_meta_of mt name in
    let f_type := f_type_of mt wheel name in
    match String.eqb f_type BP, m_wavelength f_meta with
    | true, Some v =>
        match to_float v with
        | Raise e => Raise e
        | Ok wl =>
            Ok (dict_set Qeq_bool (fst idx) wl (wkey, slot, name), snd idx)
        end
    | _, _ =>
        if String.eqb f_type ND then
          match last_item (split name) with
          | Raise e => Raise e
          | Ok tok =>
              match float_str tok with
              | Some od =>
                  Ok (fst idx, dict_set Qeq_bool (snd idx) od (wkey, slot, name))
              | None => Ok idx
              end
          end
        else Ok idx
    end.

Fixpoint index_wheel (mt : list (string * FilterMeta)) (wkey : string)
         (wheel : FilterWheel.t) (fs : list (Z * string))
         (idx : index * index) : result (index * index) :=
  match fs with
  | [] => Ok idx
  | (slot, name) :: fs' =>
      match index_slot mt wkey wheel slot name idx with
      | Raise e => Raise e
      | Ok idx' => index_wheel mt wkey wheel fs' idx'
      end
  end.
End Build.

Section Methods.
Context {S : Type} `{Hardware S} {pf : PyFloat}.

Fixpoint _build_indices (mt : list (string * FilterMeta))
         (ws : list (string * FilterWheel.t)) (idx : index * index)
         (w : World S) : result (index * index) * World S :=
  match ws with
  | [] => (Ok idx, w)
  | (wkey, wheel) :: ws' =>
      let '(c, w1) := FilterWheel.is_connected wheel w in
      if negb c then _build_indices mt ws' idx w1
      else
        match index_wheel mt wkey wheel (FilterWheel.filters wheel) idx with
        | Raise e => (Raise e, w1)
        | Ok idx' => _build_indices mt ws' idx' w1
        end
  end.

(** [[k for k, w in wheels.items() if not w.is_connected()]] *)
Fixpoint scan_offline (ws : list (string * FilterWheel.t)) (w : World S)
  : list string * World S :=
  match ws with
  | [] => ([], w)
  | (k, wheel) :: ws' =>
      let '(c, w1) := FilterWheel.is_connected wheel w in
      let '(ks, w2) := scan_offline ws' w1 in
      (if negb c then k :: ks else ks, w2)
  end.

(** [FilterRack.__init__] *)
Definition init (ws : list (string * FilterWheel.t))
           (mt : list (string * FilterMeta)) (w : World S)
  : result t * World S :=
  let '(off, w1) := scan_offline ws w in
  let on := filter (fun k => negb (mem k off)) (map fst ws) in
  match _build_indices mt ws ([], []) w1 with
  | (Raise e, w2) => (Raise e, w2)
  | (Ok idx, w2) => (Ok (mk ws mt off on (fst idx) (snd idx)), w2)
  end.

Definition _nearest_bp (self : t) (target_nm tol_nm : Q) : option triple :=
  match py_min cand_lt (cands (_wl_index self) target_nm tol_nm) with
  | None => None
  | Some c => Some (snd c)
  end.

(** First loop of [select_bandpass]: the first EMPTY slot of every
    wheel that is not ND and answers the probe. *)
Fixpoint find_empty (ws : list (string * FilterWheel.t))
         (empty : list (string * Z)) (w : World S)
  : list (string * Z) * World S :=
  match ws with
  | [] => (empty, w)
  | (k, wheel) :: ws' =>
      if String.eqb (FilterWheel.type wheel) ND then find_empty ws' empty w
      else
        let '(c, w1) := FilterWheel.is_connected wheel w in
        if negb c then find_empty ws' empty w1
        else
          match first_empty (FilterWheel.filters wheel) with
          | Some s => find_empty ws' (dict_set String.eqb empty k s) w1
          | None => find_empty ws' empty w1
          end
  end.

(** [tgt_slot if k == tgt_key else empty[k]] *)
Definition slot_for (tgt_key : string) (tgt_slot : Z)
           (empty : list (string * Z)) (k : string) : result Z :=
  if String.eqb k tgt_key then Ok tgt_slot
  else
    match dict_get String.eqb empty k with
    | Some s => Ok s
    | None => Raise (KeyError (MissingKey k))
    end.

(** Second loop of [select_bandpass]: the moves. *)
Fixpoint move_pass (tgt_key : string) (tgt_slot : Z)
         (empty : list (string * Z)) (block : bool)
         (ws : list (string * FilterWheel.t)) (w : World S)
  : result unit * World S :=
  match ws with
  | [] => (Ok tt, w)
  | (k, wheel) :: ws' =>
      let '(c, w1) := FilterWheel.is_connected wheel w in
      if negb c || String.eqb (FilterWheel.type wheel) ND
      then move_pass tgt_key tgt_slot empty block ws' w1
      else
        match slot_for tgt_key tgt_slot empty k with
        | Raise e => (Raise e, w1)
        | Ok s =>
            match FilterWheel.move_to wheel s block None w1 with
            | (Ok _, w2) => move_pass tgt_key tgt_slot empty block ws' w2
            | (Raise (ThorlabsError e), w2) =>
                move_pass tgt_key tgt_slot empty block ws' (warn k e w2)
            | (Raise e, w2) => (Raise e, w2)
            end
        end
  end.

Definition select_bandpass (self : t) (wl_nm tol_nm : Q) (block : bool)
           (w : World S) : result unit * World S :=
  match _nearest_bp self wl_nm tol_nm with
  | None => (Raise (KeyError (NoBandpassNear wl_nm tol_nm)), w)
  | Some (tgt_key, tgt_slot, _) =>
      let '(empty, w1) := find_empty (wheels self) [] w in
      move_pass tgt_key tgt_slot empty block (wheels self) w1
  end.

(** The argument of [select_nd]: [float | str]. *)
Inductive od_arg : Type :=
| OdNum (q : Q)
| OdStr (s : string).

(** [float(od) if isinstance(od, str) else od], ValueError re-raised *)
Definition od_value (od : od_arg) : result Q :=
  match od with
  | OdNum q => Ok q
  | OdStr s =>
      match float_str s with
      | Some q => Ok q
      | None => Raise ValueError
      end
  end.

(** The match of [select_nd]: the candidate [min] returns under
    [key=lambda t: t[0]]. *)
Definition nearest_nd (self : t) (od_val tol : Q) : option triple :=
  match py_min key_lt (cands (_nd_index self) od_val tol) with
  | None => None
  | Some c => Some (snd c)
  end.

Definition select_nd (self : t) (od : od_arg) (tol : Q) (block : bool)
           (w : World S) : result unit * World S :=
  match od_value od with
  | Raise e => (Raise e, w)
  | Ok od_val =>
      match nearest_nd self od_val tol with
      | None => (Raise (KeyError (NoNDNear od_val tol)), w)
      | Some (wkey, slot, _) =>
          match dict_get String.eqb (wheels self) wkey with
          | None => (Raise (KeyError (MissingKey wkey)), w)
          | Some wheel => FilterWheel.move_to wheel slot block None w
          end
      end
  end.

Definition wheels_keys (self : t) : list string := map fst (wheels self).

Definition filters_for_wheel (self : t) (key : string)
  : result (list (Z * string)) :=
  match dict_get String.eqb (wheels self) key with
  | None => Raise (KeyError (MissingKey key))
  | Some wheel => Ok (FilterWheel.list_filters wheel)
  end.

(** Inner loop of [available_filters] *)
Fixpoint add_filters (k : string) (fs : list (Z * string))
         (out : list (string * (string * Z))) : list (string * (string * Z)) :=
  match fs with
  | [] => out
  | (slot, name) :: fs' =>
      if negb (is_empty_name name)
      then add_filters k fs' (dict_set String.eqb out name (k, slot))
      else add_filters k fs' out
  end.

Fixpoint scan_filters (ws : list (string * FilterWheel.t))
         (ks : list string) (out : list (string * (string * Z)))
  : result (list (string * (string * Z))) :=
  match ks with
  | [] => Ok out
  | k :: ks' =>
      match dict_get String.eqb ws k with
      | None => Raise (KeyError (MissingKey k))
      | Some wheel =>
          scan_filters ws ks' (add_filters k (FilterWheel.filters wheel) out)
      end
  end.

Definition available_filters (self : t)
  : result (list (string * (string * Z))) :=
  scan_filters (wheels self) (online self) [].

(** [{k: w.status() for k, w in self.wheels.items()}] *)
Fixpoint status_all (ws : list (string * FilterWheel.t)) (w : World S)
  : result (list (string * FilterWheel.Status)) * World S :=
  match ws with
  | [] => (Ok [], w)
  | (k, wheel) :: ws' =>
      match FilterWheel.status wheel w with
      | (Raise e, w1) => (Raise e, w1)
      | (Ok st, w1) =>
          match status_all ws' w1 with
          | (Raise e, w2) => (Raise e, w2)
          | (Ok sts, w2) => (Ok ((k, st) :: sts), w2)
          end
      end
  end.

Definition status (self : t) (w : World S)
  : result (list (string * FilterWheel.Status)) * World S :=
  status_all (wheels self) w.

Fixpoint disconnect_all (ws : list (string * FilterWheel.t)) (w : World S)
  : list (string * FilterWheel.t) * World S :=
  match ws with
  | [] => ([], w)
  | (k, wheel) :: ws' =>
      let '(wheel', w1) := FilterWheel.disconnect wheel w in
      let '(ws'', w2) := disconnect_all ws' w1 in
      ((k, wheel') :: ws'', w2)
  end.

(** [close]: the wheels are the rack's own objects, so the rack after
    the call holds the disconnected wheels. *)
Definition close (self : t) (w : World S) : t * World S :=
  let '(ws, w1) := disconnect_all (wheels self) w in
  (mk ws (meta self) (offline self) (online self)
      (_wl_index self) (_nd_index self), w1).
(** *** [from_yaml] *)

Context {drv : Driver S}.

(** The loop of [from_yaml] over the [filter_wheels] section: the wheels
    opened so far and the warnings "[FilterRack] key offline: msg". *)
Fixpoint open_wheels (wheels_cfg : list (string * FilterWheel.Spec))
         (ws : list (string * FilterWheel.t))
         (offline_warnings : list (string * string)) (w : World S)
  : list (string * FilterWheel.t) * list (string * string) * World S :=
  match wheels_cfg with
  | [] => (ws, offline_warnings, w)
  | (key, spec) :: cfg' =>
      let wheel := FilterWheel.init spec in
      match FilterWheel.connect wheel false w with
      | (Some msg, wheel1, w1) =>
          open_wheels cfg' (dict_set String.eqb ws key wheel1)
                      (offline_warnings ++ [(key, msg)]) w1
      | (None, wheel1, w1) =>
          let '(c, w2) := FilterWheel.is_connected wheel1 w1 in
          open_wheels cfg' (dict_set String.eqb ws key wheel1)
                      (if negb c
                       then offline_warnings ++ [(key, "wheel not detected")]
                       else offline_warnings)
                      w2
      end
  end.

(** [from_yaml] on the parsed document: its [filter_wheels] and [filters]
    sections. *)
Definition from_yaml (wheels_cfg : list (string * FilterWheel.Spec))
           (filter_meta : list (string * FilterMeta)) (w : World S)
  : result t * list (string * string) * World S :=
  let '(_, w0) := FilterWheel.list_devices w in
  let '(ws, offline_warnings, w1) := open_wheels wheels_cfg [] [] w0 in
  let '(r, w2) := init ws filter_meta w1 in
  (r, offline_warnings, w2).

End Methods.

End FilterRack.

(** ** The classes as mutable objects

    The methods once more, as programs on the object they are called on.
    A program is given the object and the world and leaves both, whether
    it returns or raises: reading an attribute is [attr], assigning to one
    is [assign], and a method called on a wheel of the rack runs on that
    wheel object and leaves it in the rack.  [with self._lock] is not
    modelled. *)

Module Obj.

Definition prog (S O A : Type) : Type :=
  O -> World S -> result A * O * World S.

Section Prog.
Context {S O : Type}.

Definition ret {A : Type} (a : A) : prog S O A :=
  fun o w => (Ok a, o, w).

Definition raise {A : Type} (e : exn) : prog S O A :=
  fun o w => (Raise e, o, w).

Definition bind {A B : Type} (m : prog S O A) (f : A -> prog S O B)
  : prog S O B :=
  fun o w =>
    match m o w with
    | (Ok a, o1, w1) => f a o1 w1
    | (Raise e, o1, w1) => (Raise e, o1, w1)
    end.

(** [self.x] *)
Definition attr {A : Type} (x : O -> A) : prog S O A :=
  fun o w => (Ok (x o), o, w).

(** [self.x = v] *)
Definition assign (set : O -> O) : prog S O unit :=
  fun o w => (Ok tt, set o, w).

(** A call of a class method, which has no [self]. *)
Definition call {A : Type} (f : World S -> result A * World S) : prog S O A :=
  fun o w => let '(r, w1) := f w in (r, o, w1).

(** A call that returns nothing: [close_device], [time.sleep],
    [warnings.warn]. *)
Definition effect (f : World S -> World S) : prog S O unit :=
  fun o w => (Ok tt, o, f w).

(** A look at the clock. *)
Definition clock {A : Type} (f : S -> A) : prog S O A :=
  fun o w => (Ok (f (dll w)), o, w).

(** [try: m except: handler] *)
Definition try_except {A : Type} (m : prog S O A) (handler : exn -> prog S O A)
  : prog S O A :=
  fun o w =>
    match m o w with
    | (Raise e, o1, w1) => handler e o1 w1
    | r => r
    end.

End Prog.

Local Notation "x <- m ;; k" := (bind m (fun x => k))
  (at level 61, m at next level, right associativity).

Module Wheel.

Section Methods.
Context {S : Type} {hw : Hardware S}.

Definition _handle_alive : prog S FilterWheel.t bool :=
  h <- attr FilterWheel._hdl ;;
  match h with
  | None => ret false
  | Some handle =>
      try_except
        (p <- call (FilterWheel.get_position_raw handle) ;; ret true)
        (fun _ => ret false)
  end.

Definition is_connected : prog S FilterWheel.t bool := _handle_alive.

Definition disconnect : prog S FilterWheel.t unit :=
  h <- attr FilterWheel._hdl ;;
  match h with
  | None => ret tt
  | Some handle =>
      if handle =? 0 then ret tt
      else
        u <- try_except (effect (FilterWheel.close_device handle))
                        (fun _ => ret tt) ;;
        assign (fun self => FilterWheel.set_hdl self None)
  end.

Definition get_position : prog S FilterWheel.t Z :=
  c <- is_connected ;;
  if negb c then raise (ThorlabsError NotConnected)
  else
    h <- attr FilterWheel._hdl ;;
    match h with
    | Some handle => call (FilterWheel.get_position_raw handle)
    | None => raise (ThorlabsError NotConnected)
    end.

Fixpoint wait_for_slot (n : nat) (slot : Z) : prog S FilterWheel.t unit :=
  match n with
  | O => raise TimeoutError
  | Datatypes.S n' =>
      p <- get_position ;;
      if p =? slot then ret tt
      else
        poll <- attr FilterWheel.poll_s ;;
        u <- effect (sleep poll) ;;
        wait_for_slot n' slot
  end.

Definition move_to (slot : Z) (block : bool) (timeout : option Q)
  : prog S FilterWheel.t unit :=
  slots <- attr FilterWheel.slots ;;
  if (slot <? 0) || (slot >? slots) then raise ValueError
  else
    c <- is_connected ;;
    if negb c then raise (ThorlabsError NotConnected)
    else
      h <- attr FilterWheel._hdl ;;
      match h with
      | None => raise (ThorlabsError NotConnected)
      | Some handle =>
          u <- call (FilterWheel.set_position_raw handle slot) ;;
          if negb block then ret tt
          else
            d <- attr (fun self => FilterWheel.effective_timeout self timeout) ;;
            poll <- attr FilterWheel.poll_s ;;
            n <- clock (polls_until_deadline d poll) ;;
            wait_for_slot n slot
      end.

Definition status : prog S FilterWheel.t FilterWheel.Status :=
  c <- is_connected ;;
  pos <- (if c then p <- get_position ;; ret (Some p) else ret None) ;;
  serial <- attr FilterWheel.serial ;;
  connected <- is_connected ;;
  current <- attr (fun self => FilterWheel.current_filter self pos) ;;
  type <- attr FilterWheel.type ;;
  ret (FilterWheel.mkStatus serial connected pos current type).

End Methods.

End Wheel.

Module Rack.

Section Methods.
Context {S : Type} {hw : Hardware S} {pf : PyFloat}.

(** [self.wheels] with the wheel objects as the loop left them. *)
Definition set_wheels (self : FilterRack.t)
           (ws : list (string * FilterWheel.t)) : FilterRack.t :=
  FilterRack.mk ws (FilterRack.meta self) (FilterRack.offline self)
    (FilterRack.online self) (FilterRack._wl_index self)
    (FilterRack._nd_index self).

(** [for k, w in self.wheels.items(): body]: the body runs on the wheel
    object [w]; [acc] is what the loop builds up. *)
Fixpoint each_wheel {A : Type} (body : string -> A -> prog S FilterWheel.t A)
         (ws : list (string * FilterWheel.t)) (acc : A) (w : World S)
  : result A * list (string * FilterWheel.t) * World S :=
  match ws with
  | [] => (Ok acc, [], w)
  | (k, wheel) :: ws' =>
      match body k acc wheel w with
      | (Ok acc1, wheel1, w1) =>
          let '(r, ws1, w2) := each_wheel body ws' acc1 w1 in
          (r, (k, wheel1) :: ws1, w2)
      | (Raise e, wheel1, w1) => (Raise e, (k, wheel1) :: ws', w1)
      end
  end.

Definition for_wheels {A : Type} (body : string -> A -> prog S FilterWheel.t A) (acc : A)
  : prog S FilterRack.t A :=
  fun self w =>
    let '(r, ws, w1) := each_wheel body (FilterRack.wheels self) acc w in
    (r, set_wheels self ws, w1).

(** [self.wheels[key].m()]: [None] when the key is absent. *)
Fixpoint at_key {A : Type} (key : string) (m : prog S FilterWheel.t A)
         (ws : list (string * FilterWheel.t)) (w : World S)
  : option (result A * list (string * FilterWheel.t) * World S) :=
  match ws with
  | [] => None
  | (k, wheel) :: ws' =>
      if String.eqb k key then
        let '(r, wheel1, w1) := m wheel w in
        Some (r, (k, wheel1) :: ws', w1)
      else
        match at_key key m ws' w with
        | Some (r, ws1, w1) => Some (r, (k, wheel) :: ws1, w1)
        | None => None
        end
  end.

Definition on_wheel {A : Type} (key : string) (m : prog S FilterWheel.t A) : prog S FilterRack.t A :=
  fun self w =>
    match at_key key m (FilterRack.wheels self) w with
    | Some (r, ws, w1) => (r, set_wheels self ws, w1)
    | None => (Raise (KeyError (MissingKey key)), self, w)
    end.

(** The body of the first loop of [select_bandpass]. *)
Definition note_empty (k : string) (empty : list (string * Z))
  : prog S FilterWheel.t (list (string * Z)) :=
  type <- attr FilterWheel.type ;;
  if String.eqb type FilterRack.ND then ret empty
  else
    c <- Wheel.is_connected ;;
    if negb c then ret empty
    else
      filters <- attr FilterWheel.filters ;;
      match FilterRack.first_empty filters with
      | Some s => ret (dict_set String.eqb empty k s)
      | None => ret empty
      end.

(** The body of the second loop. *)
Definition move_one (tgt_key : string) (tgt_slot : Z)
           (empty : list (string * Z)) (block : bool) (k : string) (u : unit)
  : prog S FilterWheel.t unit :=
  c <- Wheel.is_connected ;;
  type <- attr FilterWheel.type ;;
  if negb c || String.eqb type FilterRack.ND then ret tt
  else
    match FilterRack.slot_for tgt_key tgt_slot empty k with
    | Raise e => raise e
    | Ok s =>
        try_except (Wheel.move_to s block None)
                   (fun e => match e with
                             | ThorlabsError cause => effect (warn k cause)
                             | _ => raise e
                             end)
    end.

Definition select_bandpass (wl_nm tol_nm : Q) (block : bool) : prog S FilterRack.t unit :=
  nearest <- attr (fun self => FilterRack._nearest_bp self wl_nm tol_nm) ;;
  match nearest with
  | None => raise (KeyError (NoBandpassNear wl_nm tol_nm))
  | Some (tgt_key, tgt_slot, _) =>
      empty <- for_wheels note_empty [] ;;
      for_wheels (move_one tgt_key tgt_slot empty block) tt
  end.

Definition select_nd (od : FilterRack.od_arg) (tol : Q) (block : bool)
  : prog S FilterRack.t unit :=
  match FilterRack.od_value od with
  | Raise e => raise e
  | Ok od_val =>
      nearest <- attr (fun self => FilterRack.nearest_nd self od_val tol) ;;
      match nearest with
      | None => raise (KeyError (NoNDNear od_val tol))
      | Some (wkey, slot, _) => on_wheel wkey (Wheel.move_to slot block None)
      end
  end.

Definition available_filters : prog S FilterRack.t (list (string * (string * Z))) :=
  online <- attr FilterRack.online ;;
  wheels <- attr FilterRack.wheels ;;
  match FilterRack.scan_filters wheels online [] with
  | Ok out => ret out
  | Raise e => raise e
  end.

Definition status : prog S FilterRack.t (list (string * FilterWheel.Status)) :=
  for_wheels (fun k sts => st <- Wheel.status ;; ret (sts ++ [(k, st)])) [].

Definition wheels_keys : prog S FilterRack.t (list string) :=
  attr (fun self => map fst (FilterRack.wheels self)).

Definition close : prog S FilterRack.t unit :=
  for_wheels (fun _ _ => Wheel.disconnect) tt.

End Methods.

End Rack.

End Obj.

(** ** A simulated rig

    A deterministic instance of [Hardware] to run the model on: every open
    handle is a device with a position and three fault switches.  A device
    that does not respond fails every call; one that does not accept
    refuses [FWxCSetPosition]; a stuck one accepts the command and stays
    where it is.  A wheel reaches its slot at once, and the deadline of a
    blocking move admits [ceil(timeout / poll)] polls. *)

Module Sim.

Record device : Type := mkDev {
  d_pos : Z;
  d_responds : bool;
  d_accepts : bool;
  d_stuck : bool
}.

(** handle -> device *)
Definition state : Type := list (Z * device).

Definition set_pos (d : device) (p : Z) : device :=
  mkDev p (d_responds d) (d_accepts d) (d_stuck d).

Definition get_position (h : Z) (s : state) : Z * Z * state :=
  match dict_get Z.eqb s h with
  | Some d => if d_responds d then (0, d_pos d, s) else (-1, 0, s)
  | None => (-1, 0, s)
  end.

Definition set_position (h slot : Z) (s : state) : Z * state :=
  match dict_get Z.eqb s h with
  | Some d =>
      if d_responds d && d_accepts d
      then (0, if d_stuck d then s else dict_set Z.eqb s h (set_pos d slot))
      else (-1, s)
  | None => (-1, s)
  end.

Definition close (h : Z) (s : state) : state :=
  filter (fun e => negb (fst e =? h)) s.

Definition polls (d p : Q) (s : state) : nat :=
  Z.to_nat (Qceiling (d / p)).

#[global] Instance hw : Hardware state := {
  FWxCGetPosition := get_position;
  FWxCSetPosition := set_position;
  FWxCClose := close;
  polls_until_deadline := polls;
  time_sleep := fun _ s => s
}.

Definition world (s : state) : World state := mkWorld s [] [].

(** Where the wheel behind each handle stands. *)
Definition positions (s : state) : list (Z * Z) :=
  map (fun e => (fst e, d_pos (snd e))) s.




End Sim.

(** ** A rig whose wheels take time

    A second instance of [Hardware], without faults: every call on an
    open handle succeeds.  A wheel commanded to another slot is under way
    for [travel] position reads and reports the slot it left until it
    arrives; the deadline of a blocking move admits [patience] polls. *)

Module Slow.

Record device : Type := mkDev {
  d_pos : Z;        (* the slot the wheel reports *)
  d_goal : Z;       (* the slot it was last commanded to *)
  d_left : nat      (* position reads until it is there *)
}.

(** handle -> device *)
Definition state : Type := list (Z * device).

Definition travel : nat := 5.

Definition patience : nat := 2.


(** The wheel one position read later. *)
Definition tick (d : device) : device :=
  match d_left d with
  | O => d
  | Datatypes.S O => mkDev (d_goal d) (d_goal d) 0
  | Datatypes.S n => mkDev (d_pos d) (d_goal d) n
  end.

Definition get_position (h : Z) (s : state) : Z * Z * state :=
  match dict_get Z.eqb s h with
  | Some d => (0, d_pos (tick d), dict_set Z.eqb s h (tick d))
  | None => (-1, 0, s)
  end.

Definition set_position (h slot : Z) (s : state) : Z * state :=
  match dict_get Z.eqb s h with
  | Some d =>
      (0, if d_goal d =? slot then s
          else dict_set Z.eqb s h (mkDev (d_pos d) slot travel))
  | None => (-1, s)
  end.

Definition close (h : Z) (s : state) : state :=
  filter (fun e => negb (fst e =? h)) s.

#[global] Instance hw : Hardware state := {
  FWxCGetPosition := get_position;
  FWxCSetPosition := set_position;
  FWxCClose := close;
  polls_until_deadline := fun _ _ _ => patience;
  time_sleep := fun _ s => s
}.

Definition world (s : state) : World state := mkWorld s [] [].

(** Where the wheel behind each handle stands. *)
Definition positions (s : state) : list (Z * Z) :=
  map (fun e => (fst e, d_pos (snd e))) s.

End Slow.

(** ** Decimal literals

    An instance of [PyFloat] to run the model on: the decimal literals
    [float()] accepts, [[ws] [sign] digits [. digits] [e [sign] digits] [ws]]
    with at least one digit before the exponent and single "_" between
    digits, read as the number they denote; [float_str] rounds it.  "inf",
    "nan" and "infinity" are not read (their values are not in the
    model). *)

Module Decimal.

Definition is_digit (c : ascii) : bool :=
  let n := nat_of_ascii c in ((48 <=? n)%nat && (n <=? 57)%nat).

Definition digit_val (c : ascii) : Z := Z.of_nat (nat_of_ascii c - 48).

Definition starts_with_digit (cs : list ascii) : bool :=
  match cs with
  | c :: _ => is_digit c
  | [] => false
  end.

(** Leading digits of [cs]: their value after [acc], how many, the rest.
    One "_" between two digits is passed over. *)
Fixpoint digits (cs : list ascii) (acc : Z) (n : nat) : Z * nat * list ascii :=
  match cs with
  | c :: cs' =>
      if is_digit c then digits cs' (10 * acc + digit_val c) (Datatypes.S n)
      else if Ascii.eqb c "_" && (0 <? n)%nat && starts_with_digit cs'
      then digits cs' acc n
      else (acc, n, cs)
  | [] => (acc, n, [])
  end.

Fixpoint lstrip (cs : list ascii) : list ascii :=
  match cs with
  | c :: cs' => if isspace c then lstrip cs' else cs
  | [] => []
  end.

Definition strip (cs : list ascii) : list ascii :=
  rev (lstrip (rev (lstrip cs))).

(** An optional sign: [true] for "-". *)
Definition sign (cs : list ascii) : bool * list ascii :=
  match cs with
  | "-"%char :: cs' => (true, cs')
  | "+"%char :: cs' => (false, cs')
  | _ => (false, cs)
  end.

(** [m * 10^e] *)
Definition scale (m : Z) (e : Z) : Q :=
  if 0 <=? e then inject_Z (m * 10 ^ e)
  else Qmake m (Z.to_pos (10 ^ (- e))).

(** The exponent part, or 0 when the text ends here. *)
Definition exponent (cs : list ascii) : option Z :=
  match cs with
  | [] => Some 0
  | c :: cs' =>
      if Ascii.eqb c "e" || Ascii.eqb c "E" then
        let '(neg, cs1) := sign cs' in
        match digits cs1 0 0 with
        | (_, O, _) => None
        | (e, _, []) => Some (if neg then - e else e)
        | _ => None
        end
      else None
  end.

Definition parse (s : string) : option Q :=
  let '(neg, cs1) := sign (strip (list_ascii_of_string s)) in
  let '(ip, ni, cs2) := digits cs1 0 0 in
  let '(m, nf, cs3) :=
    match cs2 with
    | "."%char :: cs' => let '(m, nf, r) := digits cs' ip 0 in (m, nf, r)
    | _ => (ip, O, cs2)
    end in
  if (ni + nf =? 0)%nat then None
  else
    match exponent cs3 with
    | None => None
    | Some e => Some (scale (if neg then - m else m) (e - Z.of_nat nf))
    end.

#[global] Instance float : PyFloat := parse.

End Decimal.

(** ** A simulated driver

    An instance of [Driver] on the simulated rig: the bench says which
    handle the driver hands out for which serial number; the open succeeds
    when the device behind that handle responds. *)

Module Bench.

Definition open (bench : list (string * Z)) (serial : string) (baud : Z)
           (timeout : Q) (s : Sim.state) : Z * Sim.state :=
  match dict_get String.eqb bench serial with
  | Some h =>
      match dict_get Z.eqb s h with
      | Some d => if Sim.d_responds d then (h, s) else (-1, s)
      | None => (-1, s)
      end
  | None => (-1, s)
  end.

Definition driver (bench : list (string * Z)) : Driver Sim.state := {|
  FWxCOpen := open bench;
  FWxCListDevices :=
    fun s => (DevEntries (map (fun e => (fst e, "FW102C")) bench), s)
|}.

(** The serial numbers of [Rig.wheelA] and [Rig.wheelB] on handles 1
    and 2. *)
Definition bench1 : list (string * Z) := [("SN-A", 1); ("SN-B", 2)].

Definition specA : FilterWheel.Spec :=
  FilterWheel.mkSpec "SN-A" None None None None (Some "bandpass")
    (Some [(1, Some "450nm"); (2, None)]).

Definition specB : FilterWheel.Spec :=
  FilterWheel.mkSpec "SN-B" None None None None (Some "nd")
    (Some [(1, Some "ND 0.5"); (2, Some "ND open")]).

End Bench.

(** ** Rigs to run the model on *)

Module Rig.

Import FilterRack.

(** A wheel with the constructor's defaults: 115200 baud, 3 s timeout,
    6 slots, 50 ms poll. *)
Definition wheel (serial ty : string) (fs : list (Z * string))
           (hdl : option Z) : FilterWheel.t :=
  FilterWheel.mk serial 115200 3%Q 6 (1 # 20)%Q ty fs hdl.

(** A healthy device at slot [p]. *)
Definition healthy (p : Z) : Sim.device := Sim.mkDev p true true false.

(** One band-pass wheel and one ND wheel. *)
Definition wheelA : FilterWheel.t :=
  wheel "SN-A" "bandpass" [(1, "450nm"); (2, "EMPTY")] (Some 1).

Definition wheelB : FilterWheel.t :=
  wheel "SN-B" "nd" [(1, "ND 0.5"); (2, "ND open")] (Some 2).

Definition meta1 : list (string * FilterMeta) :=
  [("450nm", mkMeta (Some "bandpass") (Some (Num 450%Q)))].

Definition rack1 : FilterRack.t :=
  mk [("A", wheelA); ("B", wheelB)] meta1 [] ["A"; "B"]
     [(450%Q, ("A", 1, "450nm"))]
     [((1 # 2)%Q, ("B", 1, "ND 0.5"))].

Definition rig1 : Sim.state := [(1, healthy 2); (2, healthy 2)].

(** Two band-pass wheels whose filters lie 2 nm on either side of 500 nm;
    the wheel named "B" comes first in the configuration. *)
Definition wheelB498 : FilterWheel.t :=
  wheel "SN-B" "bandpass" [(1, "498nm"); (2, "EMPTY")] (Some 2).

Definition wheelA502 : FilterWheel.t :=
  wheel "SN-A" "bandpass" [(1, "502nm"); (2, "EMPTY")] (Some 1).

Definition meta2 : list (string * FilterMeta) :=
  [("498nm", mkMeta (Some "bandpass") (Some (Num 498%Q)));
   ("502nm", mkMeta (Some "bandpass") (Some (Num 502%Q)))].

Definition wheels2 : list (string * FilterWheel.t) :=
  [("B", wheelB498); ("A", wheelA502)].

Definition rack2 : FilterRack.t :=
  mk wheels2 meta2 [] ["B"; "A"]
     [(498%Q, ("B", 1, "498nm")); (502%Q, ("A", 1, "502nm"))] [].

(** The wheel behind handle 2 accepts commands and never turns. *)
Definition rig_stuck : Sim.state :=
  [(1, healthy 2); (2, Sim.mkDev 2 true true true)].

(** The wheel behind handle 2 refuses [FWxCSetPosition]. *)
Definition rig_refusing : Sim.state :=
  [(1, healthy 2); (2, Sim.mkDev 2 true false false)].

(** The cable of the wheel behind handle 2 is out. *)
Definition rig_unplugged : Sim.state :=
  [(1, healthy 2); (2, Sim.mkDev 2 false true false)].

(** A wheel at slot 0 with a filter catalogued there. *)
Definition wheelZ : FilterWheel.t :=
  wheel "SN-Z" "bandpass" [(0, "450nm"); (1, "EMPTY")] (Some 1).

Definition rig_zero : Sim.state := [(1, healthy 0)].

(** [rack1] as built while the cable of wheel B is out. *)
Definition rack_unplugged : FilterRack.t :=
  mk [("A", wheelA); ("B", wheelB)] meta1 ["B"] ["A"]
     [(450%Q, ("A", 1, "450nm"))] [].

End Rig.

(** ** What the configuration says of a wheel *)

Module Session.

(** A wheel without its connection handle: what the configuration says. *)
Definition configured (kw : string * FilterWheel.t) : string * FilterWheel.t :=
  (fst kw, FilterWheel.set_hdl (snd kw) None).

Definition slot_map (kw : string * FilterWheel.t) : string * list (Z * string) :=
  (fst kw, FilterWheel.filters (snd kw)).

End Session.

(** What no public operation is to touch: the two indices, the online and
    offline lists, the metadata, the keys of the wheels and in what order
    they come and, of every wheel, all but its connection handle: its slot
    map in particular. *)
Definition frame (self self' : FilterRack.t) : Prop :=
  FilterRack._wl_index self' = FilterRack._wl_index self /\
  FilterRack._nd_index self' = FilterRack._nd_index self /\
  FilterRack.online self' = FilterRack.online self /\
  FilterRack.offline self' = FilterRack.offline self /\
  FilterRack.meta self' = FilterRack.meta self /\
  map Session.configured (FilterRack.wheels self')
  = map Session.configured (FilterRack.wheels self) /\
  map Session.slot_map (FilterRack.wheels self')
  = map Session.slot_map (FilterRack.wheels self).

(** ** Index keys *)

(** No two keys of the index are equal as floats. *)
Fixpoint distinct_keys (idx : FilterRack.index) : Prop :=
  match idx with
  | [] => True
  | (v, _) :: idx' =>
      (forall v' t', In (v', t') idx' -> ~ (v' == v)%Q) /\ distinct_keys idx'
  end.

Definition both_distinct (idx : FilterRack.index * FilterRack.index) : Prop :=
  distinct_keys (fst idx) /\ distinct_keys (snd idx).

(** Every key of an index is a float. *)
Definition grid_keys (idx : FilterRack.index) : Prop :=
  forall v t, In (v, t) idx -> on_grid v.

Definition both_grid (idx : FilterRack.index * FilterRack.index) : Prop :=
  grid_keys (fst idx) /\ grid_keys (snd idx).

(** [probed h w w']: from [w] to [w'] the only calls were position reads
    on the handle [h], and nothing was warned. *)
Definition probed {S : Type} (h : Z) (w w' : World S) : Prop :=
  warned w' = warned w /\
  exists d, trace w' = d ++ trace w /\ Forall (eq (CmdGetPosition h)) d.

(** What [move_to] may end in besides returning. *)
Definition device_or_timeout (r : result unit) : Prop :=
  match r with
  | Ok _ => True
  | Raise (ThorlabsError _) => True
  | Raise TimeoutError => True
  | Raise _ => False
  end.

(** The close calls [close()] has to make for these wheels, in order: one
    for every handle that is neither absent nor 0. *)
Fixpoint closing (ws : list (string * FilterWheel.t)) : list Cmd :=
  match ws with
  | [] => []
  | (_, wheel) :: ws' =>
      match FilterWheel._hdl wheel with
      | Some h => if h =? 0 then closing ws' else CmdClose h :: closing ws'
      | None => closing ws'
      end
  end.

(** The status entry of a wheel that has no handle. *)
Definition offline_status (kw : string * FilterWheel.t)
  : string * FilterWheel.Status :=
  (fst kw,
   FilterWheel.mkStatus (FilterWheel.serial (snd kw)) false None None
                        (FilterWheel.type (snd kw))).

(** The handle is absent or is the handle 0, which [disconnect] takes for
    absent. *)
Definition released (wheel : FilterWheel.t) : Prop :=
  FilterWheel._hdl wheel = None \/ FilterWheel._hdl wheel = Some 0.

(** [reads_only w w']: from [w] to [w'] the DLL was only asked for
    positions, and nothing was warned. *)
Definition reads_only {S : Type} (w w' : World S) : Prop :=
  warned w' = warned w /\
  exists d, trace w' = d ++ trace w /\
            Forall (fun c => exists h, c = CmdGetPosition h) d.

(** An entry of the wavelength index is backed by the rack: its wheel is
    in the rack and has a handle, the slot holds the named filter, the
    filter counts as band-pass and [float()] of the wavelength the
    metadata give it is this key. *)
Definition wl_backed {pf : PyFloat}
           (mt : list (string * FilterRack.FilterMeta))
           (ws : list (string * FilterWheel.t))
           (e : Q * FilterRack.triple) : Prop :=
  let '(v, (k, slot, name)) := e in
  exists wheel y wl,
    In (k, wheel) ws /\ FilterWheel._hdl wheel <> None /\
    In (slot, name) (FilterWheel.filters wheel) /\
    FilterRack.is_empty_name name = false /\
    FilterRack.f_type_of mt wheel name = FilterRack.BP /\
    FilterRack.m_wavelength (FilterRack.f_meta_of mt name) = Some y /\
    FilterRack.to_float y = Ok wl /\
    (wl == v)%Q.

(** The same for the optical-density index: the filter counts as nd and
    the last word of its name reads as this density. *)
Definition nd_backed {pf : PyFloat} (mt : list (string * FilterRack.FilterMeta))
           (ws : list (string * FilterWheel.t))
           (e : Q * FilterRack.triple) : Prop :=
  let '(v, (k, slot, name)) := e in
  exists wheel tok od,
    In (k, wheel) ws /\ FilterWheel._hdl wheel <> None /\
    In (slot, name) (FilterWheel.filters wheel) /\
    FilterRack.is_empty_name name = false /\
    FilterRack.f_type_of mt wheel name = FilterRack.ND /\
    last_item (split name) = Ok tok /\ float_str tok = Some od /\
    (od == v)%Q.

Definition both_backed {pf : PyFloat}
           (mt : list (string * FilterRack.FilterMeta))
           (ws : list (string * FilterWheel.t))
           (idx : FilterRack.index * FilterRack.index) : Prop :=
  Forall (wl_backed mt ws) (fst idx) /\ Forall (nd_backed mt ws) (snd idx).

(** Why the index build raises [e] at a filter name: the name has no
    word for [name.split()[-1]] to take, or [float()] raises [e] on the
    wavelength the metadata give the filter. *)
Definition build_fault {pf : PyFloat}
           (mt : list (string * FilterRack.FilterMeta)) (name : string)
           (e : exn) : Prop :=
  (e = IndexError /\ split name = []) \/
  exists y,
    FilterRack.m_wavelength (FilterRack.f_meta_of mt name) = Some y /\
    FilterRack.to_float y = Raise e.



(** A wheel entry of the configuration as the constructor makes it. *)
Definition constructed (kc : string * FilterWheel.Spec)
  : string * FilterWheel.t :=
  (fst kc, FilterWheel.init (snd kc)).

(** [index.get(name, [])] on the index of [load_wheels_from_yaml] *)
Definition index_entries (index : list (string * list (string * Z)))
           (name : string) : list (string * Z) :=
  match dict_get String.eqb index name with
  | Some es => es
  | None => []
  end.

(** A device id as [list_devices] returns it from bytes: not empty, no
    white space, no comma. *)
Definition plain_char (c : ascii) : Prop :=
  isspace c = false /\ c <> ","%char.

Definition plain_id (d : string) : Prop :=
  d <> "" /\ forall c, In c (list_ascii_of_string d) -> plain_char c.

(** * Properties *)

(** ** The wheel *)

(** C7.  A [move_to] whose slot lies outside [0, slots] raises ValueError
    and leaves the world as it was: the state behind the DLL and the trace
    of DLL calls are unchanged, whatever the hardware, the connection
    state, [block] and [timeout]. *)
Theorem move_to_out_of_range :
  forall (S : Type) (hw : Hardware S) (self : FilterWheel.t) (slot : Z)
         (block : bool) (timeout : option Q) (w : World S),
    slot < 0 \/ FilterWheel.slots self < slot ->
    FilterWheel.move_to self slot block timeout w = (Raise ValueError, w).
Proof.
  intros S hw self slot block timeout w Hrange.
  unfold FilterWheel.move_to.
  assert (Hguard : (slot <? 0) || (slot >? FilterWheel.slots self) = true).
  { apply orb_true_iff.
    destruct Hrange as [Hlo | Hhi]; [left | right].
    - now apply Z.ltb_lt.
    - rewrite Z.gtb_ltb. now apply Z.ltb_lt. }
  now rewrite Hguard.
Qed.

Lemma move_to_out_of_range_witness :
  (7 < 0 \/ FilterWheel.slots Rig.wheelA < 7) /\
  FilterWheel.move_to Rig.wheelA 7 true None (Sim.world Rig.rig1)
  = (Raise ValueError, Sim.world Rig.rig1).
Proof.
  split.
  - right. simpl. lia.
  - apply (move_to_out_of_range Sim.state Sim.hw Rig.wheelA 7 true None
             (Sim.world Rig.rig1)).
    right. simpl. lia.
Defined.

(** C6 at a wheel that stands at slot 0, where the catalogue has the
    filter "450nm": the wheel is connected and reports position 0, and
    [status] gives no filter name at all, neither "450nm" nor "UNKNOWN". *)
Theorem status_at_slot_zero :
  dict_get Z.eqb (FilterWheel.filters Rig.wheelZ) 0 = Some "450nm" /\
  fst (FilterWheel.status Rig.wheelZ (Sim.world Rig.rig_zero))
  = Ok (FilterWheel.mkStatus "SN-Z" true (Some 0) None "bandpass").
Proof. split; reflexivity. Qed.

(** ** Index construction *)

(** The racks of [Rig] are what the constructor builds on their rigs. *)
Lemma rack1_built :
  fst (FilterRack.init [("A", Rig.wheelA); ("B", Rig.wheelB)] Rig.meta1
         (Sim.world Rig.rig1)) = Ok Rig.rack1.
Proof. reflexivity. Qed.

Lemma rack2_built :
  fst (FilterRack.init Rig.wheels2 Rig.meta2 (Sim.world Rig.rig1))
  = Ok Rig.rack2.
Proof. reflexivity. Qed.

Section BuildFacts.
Context {S : Type} {hw : Hardware S} {pf : PyFloat}.

Lemma f_type_of_set_filters mt wheel fs name :
  FilterRack.f_type_of mt (FilterWheel.set_filters wheel fs) name
  = FilterRack.f_type_of mt wheel name.
Proof. reflexivity. Qed.

Lemma index_slot_set_filters mt wkey wheel fs slot name idx :
  FilterRack.index_slot mt wkey (FilterWheel.set_filters wheel fs) slot name idx
  = FilterRack.index_slot mt wkey wheel slot name idx.
Proof. reflexivity. Qed.

Lemma index_wheel_set_filters mt wkey wheel fs' fs idx :
  FilterRack.index_wheel mt wkey (FilterWheel.set_filters wheel fs') fs idx
  = FilterRack.index_wheel mt wkey wheel fs idx.
Proof.
  revert idx. induction fs as [| [slot name] fs IH]; intros idx; simpl.
  - reflexivity.
  - rewrite index_slot_set_filters.
    destruct (FilterRack.index_slot mt wkey wheel slot name idx); auto.
Qed.

Lemma is_connected_set_filters wheel fs (w : World S) :
  FilterWheel.is_connected (FilterWheel.set_filters wheel fs) w
  = FilterWheel.is_connected wheel w.
Proof. reflexivity. Qed.

(** A slot whose step leaves the indices alone can be dropped from the
    map. *)
Lemma index_wheel_skip mt wkey wheel pre slot name post :
  (forall idx, FilterRack.index_slot mt wkey wheel slot name idx = Ok idx) ->
  forall idx,
    FilterRack.index_wheel mt wkey wheel (pre ++ (slot, name) :: post) idx
    = FilterRack.index_wheel mt wkey wheel (pre ++ post) idx.
Proof.
  intros Hskip. induction pre as [| [s n] pre IH]; intros idx; simpl.
  - now rewrite Hskip.
  - destruct (FilterRack.index_slot mt wkey wheel s n idx); auto.
Qed.

Lemma build_indices_same_wheel mt ws1 wkey wheel wheel' ws2 :
  (forall (w : World S),
     FilterWheel.is_connected wheel' w = FilterWheel.is_connected wheel w) ->
  (forall idx,
     FilterRack.index_wheel mt wkey wheel' (FilterWheel.filters wheel') idx
     = FilterRack.index_wheel mt wkey wheel (FilterWheel.filters wheel) idx) ->
  forall idx (w : World S),
    FilterRack._build_indices mt (ws1 ++ (wkey, wheel') :: ws2) idx w
    = FilterRack._build_indices mt (ws1 ++ (wkey, wheel) :: ws2) idx w.
Proof.
  intros Hconn Hidx.
  induction ws1 as [| [k x] ws1 IH]; intros idx w; simpl.
  - rewrite Hconn, Hidx. reflexivity.
  - destruct (FilterWheel.is_connected x w) as [c w1].
    destruct (negb c); [apply IH |].
    destruct (FilterRack.index_wheel mt k x (FilterWheel.filters x) idx);
      [apply IH | reflexivity].
Qed.

End BuildFacts.

(** C9.  A slot of a wheel's map whose filter is classified nd and whose
    name ends in a token that [float()] rejects is passed over by
    [_build_indices]: its step returns normally with both indices as they
    were, and the whole build (result, indices and DLL calls) is that of
    the same rack with the slot removed from the map. *)
Theorem unparsable_nd_name_is_skipped :
  forall (S : Type) (hw : Hardware S) (pf : PyFloat)
         (mt : list (string * FilterRack.FilterMeta))
         (ws1 ws2 : list (string * FilterWheel.t)) (wkey : string)
         (wheel : FilterWheel.t) (pre post : list (Z * string)) (slot : Z)
         (name tok : string) (idx : FilterRack.index * FilterRack.index)
         (w : World S),
    FilterWheel.filters wheel = pre ++ (slot, name) :: post ->
    FilterRack.is_empty_name name = false ->
    FilterRack.f_type_of mt wheel name = FilterRack.ND ->
    last_item (split name) = Ok tok ->
    py_float tok = None ->
    FilterRack.index_slot mt wkey wheel slot name idx = Ok idx /\
    FilterRack._build_indices mt (ws1 ++ (wkey, wheel) :: ws2) idx w
    = FilterRack._build_indices mt
        (ws1 ++ (wkey, FilterWheel.set_filters wheel (pre ++ post)) :: ws2)
        idx w.
Proof.
  intros S hw pf mt ws1 ws2 wkey wheel pre post slot name tok idx w
         Hfs Hne Hty Htok Hparse.
  assert (Hskip : forall i,
             FilterRack.index_slot mt wkey wheel slot name i = Ok i).
  { intros i. unfold FilterRack.index_slot, float_str.
    rewrite Hne, Hty, Htok, Hparse. simpl.
    destruct (FilterRack.m_wavelength (FilterRack.f_meta_of mt name));
      reflexivity. }
  split; [apply Hskip |].
  symmetry. apply build_indices_same_wheel.
  - intros w0. apply is_connected_set_filters.
  - intros i. rewrite index_wheel_set_filters. simpl.
    rewrite Hfs. symmetry. now apply index_wheel_skip.
Qed.

Lemma unparsable_nd_name_is_skipped_witness :
  FilterRack._build_indices Rig.meta1
    ([("A", Rig.wheelA)] ++ [("B", Rig.wheelB)]) ([], []) (Sim.world Rig.rig1)
  = FilterRack._build_indices Rig.meta1
      ([("A", Rig.wheelA)]
         ++ [("B", FilterWheel.set_filters Rig.wheelB ([(1, "ND 0.5")] ++ []))])
      ([], []) (Sim.world Rig.rig1).
Proof.
  apply (unparsable_nd_name_is_skipped Sim.state Sim.hw Decimal.float
           Rig.meta1 [("A", Rig.wheelA)] [] "B" Rig.wheelB
           [(1, "ND 0.5")] [] 2 "ND open" "open" ([], [])
           (Sim.world Rig.rig1));
    reflexivity.
Defined.

(** ** Neutral-density selection *)

(** C2 at the label "ND 0.5".  The constructor indexes the filter of that
    name under the density 0.5 read from its last token, and [select_nd]
    finds it for the number 0.5 and for the text "0.5"; for the label
    itself it raises ValueError before anything is looked up or moved. *)
Theorem select_nd_rejects_label :
  last_item (split "ND 0.5") = Ok "0.5" /\
  FilterRack._nd_index Rig.rack1 = [((1 # 2)%Q, ("B", 1, "ND 0.5"))] /\
  fst (FilterRack.select_nd Rig.rack1 (FilterRack.OdNum (1 # 2)) (1 # 20)
         true (Sim.world Rig.rig1)) = Ok tt /\
  fst (FilterRack.select_nd Rig.rack1 (FilterRack.OdStr "0.5") (1 # 20)
         true (Sim.world Rig.rig1)) = Ok tt /\
  FilterRack.select_nd Rig.rack1 (FilterRack.OdStr "ND 0.5") (1 # 20)
    true (Sim.world Rig.rig1) = (Raise ValueError, Sim.world Rig.rig1).
Proof. repeat split; reflexivity. Qed.

(** ** What the public operations leave alone *)

Section Frame.
Context {S : Type} {hw : Hardware S} {pf : PyFloat}.

Lemma disconnect_configured wheel (w : World S) :
  FilterWheel.set_hdl (fst (FilterWheel.disconnect wheel w)) None
  = FilterWheel.set_hdl wheel None.
Proof.
  unfold FilterWheel.disconnect.
  destruct (FilterWheel._hdl wheel) as [h |]; [| reflexivity].
  destruct (h =? 0); reflexivity.
Qed.

Lemma disconnect_all_configured ws (w : World S) :
  map Session.configured (fst (FilterRack.disconnect_all ws w))
  = map Session.configured ws.
Proof.
  revert w. induction ws as [| [k wheel] ws IH]; intros w; simpl.
  - reflexivity.
  - pose proof (disconnect_configured wheel w) as Hd.
    destruct (FilterWheel.disconnect wheel w) as [wheel' w1].
    specialize (IH w1).
    destruct (FilterRack.disconnect_all ws w1) as [ws' w2].
    simpl in *. unfold Session.configured at 1 3. simpl.
    now rewrite Hd, IH.
Qed.

Lemma slot_map_configured ws :
  map Session.slot_map (map Session.configured ws) = map Session.slot_map ws.
Proof.
  rewrite map_map. apply map_ext. intros [k x]. reflexivity.
Qed.

Lemma configured_slot_map ws ws' :
  map Session.configured ws' = map Session.configured ws ->
  map Session.slot_map ws' = map Session.slot_map ws.
Proof.
  intros Heq.
  rewrite <- (slot_map_configured ws'), <- (slot_map_configured ws).
  now rewrite Heq.
Qed.

(** The programs on the wheel object do what the methods of
    [FilterWheel] do, and leave the object as it was; [disconnect] leaves
    it without its handle. *)
Lemma obj_is_connected wheel (w : World S) :
  Obj.Wheel.is_connected wheel w
  = (Ok (fst (FilterWheel.is_connected wheel w)), wheel,
     snd (FilterWheel.is_connected wheel w)).
Proof.
  unfold Obj.Wheel.is_connected, Obj.Wheel._handle_alive,
    FilterWheel.is_connected, FilterWheel._handle_alive,
    Obj.bind, Obj.attr, Obj.try_except, Obj.call, Obj.ret.
  destruct (FilterWheel._hdl wheel) as [h |]; [| reflexivity].
  destruct (FilterWheel.get_position_raw h w) as [[p | e] w1]; reflexivity.
Qed.

Lemma obj_get_position wheel (w : World S) :
  Obj.Wheel.get_position wheel w
  = (fst (FilterWheel.get_position wheel w), wheel,
     snd (FilterWheel.get_position wheel w)).
Proof.
  unfold Obj.Wheel.get_position, FilterWheel.get_position, Obj.bind.
  rewrite obj_is_connected.
  destruct (FilterWheel.is_connected wheel w) as [c w1]. simpl.
  destruct c; simpl; [| reflexivity].
  unfold Obj.attr, Obj.call, Obj.raise.
  destruct (FilterWheel._hdl wheel) as [h |]; [| reflexivity].
  destruct (FilterWheel.get_position_raw h w1) as [r w2]. reflexivity.
Qed.

Lemma obj_wait_for_slot n slot wheel (w : World S) :
  Obj.Wheel.wait_for_slot n slot wheel w
  = (fst (FilterWheel.wait_for_slot n wheel slot w), wheel,
     snd (FilterWheel.wait_for_slot n wheel slot w)).
Proof.
  revert w. induction n as [| n IH]; intros w; simpl; [reflexivity |].
  unfold Obj.bind at 1. rewrite obj_get_position.
  destruct (FilterWheel.get_position wheel w) as [[p | e] w1]; simpl;
    [| reflexivity].
  destruct (p =? slot); [reflexivity |].
  unfold Obj.bind, Obj.attr, Obj.effect. apply IH.
Qed.

Lemma obj_move_to slot block timeout wheel (w : World S) :
  Obj.Wheel.move_to slot block timeout wheel w
  = (fst (FilterWheel.move_to wheel slot block timeout w), wheel,
     snd (FilterWheel.move_to wheel slot block timeout w)).
Proof.
  unfold Obj.Wheel.move_to, FilterWheel.move_to.
  unfold Obj.bind at 1. unfold Obj.attr at 1.
  destruct ((slot <? 0) || (slot >? FilterWheel.slots wheel)); [reflexivity |].
  unfold Obj.bind at 1. rewrite obj_is_connected.
  destruct (FilterWheel.is_connected wheel w) as [c w1]. simpl.
  destruct c; simpl; [| reflexivity].
  unfold Obj.bind at 1. unfold Obj.attr at 1.
  destruct (FilterWheel._hdl wheel) as [h |]; [| reflexivity].
  unfold Obj.bind at 1. unfold Obj.call.
  destruct (FilterWheel.set_position_raw h slot w1) as [[[] | e] w2];
    [| reflexivity].
  destruct block; simpl; [| reflexivity].
  unfold Obj.bind, Obj.attr, Obj.clock. apply obj_wait_for_slot.
Qed.

Lemma obj_wheel_status wheel (w : World S) :
  Obj.Wheel.status wheel w
  = (fst (FilterWheel.status wheel w), wheel, snd (FilterWheel.status wheel w)).
Proof.
  unfold Obj.Wheel.status, FilterWheel.status.
  unfold Obj.bind at 1. rewrite obj_is_connected.
  destruct (FilterWheel.is_connected wheel w) as [c w1]. simpl.
  destruct c.
  - unfold Obj.bind at 1 2. rewrite obj_get_position.
    destruct (FilterWheel.get_position wheel w1) as [[p | e] w2]; simpl;
      [| reflexivity].
    unfold Obj.ret at 1. unfold Obj.bind at 1. unfold Obj.attr at 1.
    unfold Obj.bind at 1. rewrite obj_is_connected.
    destruct (FilterWheel.is_connected wheel w2) as [c' w3]. reflexivity.
  - unfold Obj.bind at 1. unfold Obj.ret at 1.
    unfold Obj.bind at 1. unfold Obj.attr at 1.
    unfold Obj.bind at 1. rewrite obj_is_connected.
    destruct (FilterWheel.is_connected wheel w1) as [c' w3]. reflexivity.
Qed.

Lemma obj_disconnect wheel (w : World S) :
  Obj.Wheel.disconnect wheel w
  = (Ok tt, fst (FilterWheel.disconnect wheel w),
     snd (FilterWheel.disconnect wheel w)).
Proof.
  unfold Obj.Wheel.disconnect, FilterWheel.disconnect, Obj.bind, Obj.attr.
  destruct (FilterWheel._hdl wheel) as [h |]; [| reflexivity].
  destruct (h =? 0); reflexivity.
Qed.

Lemma set_wheels_same (self : FilterRack.t) :
  Obj.Rack.set_wheels self (FilterRack.wheels self) = self.
Proof. now destruct self. Qed.

(** The loops of the rack over its wheels. *)
Lemma obj_find_empty ws empty (w : World S) :
  Obj.Rack.each_wheel Obj.Rack.note_empty ws empty w
  = (Ok (fst (FilterRack.find_empty ws empty w)), ws,
     snd (FilterRack.find_empty ws empty w)).
Proof.
  revert empty w. induction ws as [| [k wheel] ws IH]; intros empty w; simpl;
    [reflexivity |].
  unfold Obj.Rack.note_empty at 1. unfold Obj.bind at 1. unfold Obj.attr at 1.
  destruct (String.eqb (FilterWheel.type wheel) FilterRack.ND).
  - unfold Obj.ret. now rewrite IH.
  - unfold Obj.bind at 1. rewrite obj_is_connected.
    destruct (FilterWheel.is_connected wheel w) as [c w1]. simpl.
    destruct c; simpl; [| now rewrite IH].
    unfold Obj.bind, Obj.attr.
    destruct (FilterRack.first_empty (FilterWheel.filters wheel));
      unfold Obj.ret; now rewrite IH.
Qed.

Lemma obj_move_pass tk ts empty block ws (w : World S) :
  Obj.Rack.each_wheel (Obj.Rack.move_one tk ts empty block) ws tt w
  = (fst (FilterRack.move_pass tk ts empty block ws w), ws,
     snd (FilterRack.move_pass tk ts empty block ws w)).
Proof.
  revert w. induction ws as [| [k wheel] ws IH]; intros w; simpl;
    [reflexivity |].
  unfold Obj.Rack.move_one at 1. unfold Obj.bind at 1.
  rewrite obj_is_connected.
  destruct (FilterWheel.is_connected wheel w) as [c w1]. simpl.
  unfold Obj.bind at 1. unfold Obj.attr at 1.
  destruct (negb c || String.eqb (FilterWheel.type wheel) FilterRack.ND).
  - unfold Obj.ret. now rewrite IH.
  - destruct (FilterRack.slot_for tk ts empty k) as [s | e]; [| reflexivity].
    unfold Obj.try_except. rewrite obj_move_to.
    destruct (FilterWheel.move_to wheel s block None w1) as [[[] | e] w2]; simpl.
    + now rewrite IH.
    + destruct e; try reflexivity.
      unfold Obj.effect. now rewrite IH.
Qed.

Lemma obj_status_all ws acc (w : World S) :
  Obj.Rack.each_wheel
    (fun k sts => Obj.bind Obj.Wheel.status (fun st => Obj.ret (sts ++ [(k, st)])))
    ws acc w
  = (match fst (FilterRack.status_all ws w) with
     | Ok sts => Ok (acc ++ sts)
     | Raise e => Raise e
     end, ws, snd (FilterRack.status_all ws w)).
Proof.
  revert acc w. induction ws as [| [k wheel] ws IH]; intros acc w; simpl.
  - now rewrite app_nil_r.
  - unfold Obj.bind at 1. rewrite obj_wheel_status.
    destruct (FilterWheel.status wheel w) as [[st | e] w1]; simpl;
      [| reflexivity].
    unfold Obj.ret at 1. rewrite IH.
    destruct (FilterRack.status_all ws w1) as [[sts | e] w2]; simpl;
      [| reflexivity].
    now rewrite <- app_assoc.
Qed.

Lemma obj_disconnect_all ws (w : World S) :
  Obj.Rack.each_wheel (fun _ _ => Obj.Wheel.disconnect) ws tt w
  = (Ok tt, fst (FilterRack.disconnect_all ws w),
     snd (FilterRack.disconnect_all ws w)).
Proof.
  revert w. induction ws as [| [k wheel] ws IH]; intros w; simpl;
    [reflexivity |].
  rewrite obj_disconnect.
  destruct (FilterWheel.disconnect wheel w) as [wheel1 w1]. simpl.
  rewrite IH.
  destruct (FilterRack.disconnect_all ws w1) as [ws1 w2]. reflexivity.
Qed.

Lemma obj_at_key {A : Type} key (m : Obj.prog S FilterWheel.t A)
      (pure : FilterWheel.t -> World S -> result A * World S) ws (w : World S) :
  (forall wheel w0, m wheel w0 = (fst (pure wheel w0), wheel, snd (pure wheel w0))) ->
  Obj.Rack.at_key key m ws w
  = match dict_get String.eqb ws key with
    | Some wheel => Some (fst (pure wheel w), ws, snd (pure wheel w))
    | None => None
    end.
Proof.
  intros Hm. induction ws as [| [k wheel] ws IH]; simpl; [reflexivity |].
  destruct (String.eqb k key).
  - now rewrite Hm.
  - rewrite IH. now destruct (dict_get String.eqb ws key).
Qed.

(** The public operations as programs on the rack do what the methods of
    [FilterRack] do. *)
Lemma obj_select_bandpass wl tol block self (w : World S) :
  Obj.Rack.select_bandpass wl tol block self w
  = (fst (FilterRack.select_bandpass self wl tol block w), self,
     snd (FilterRack.select_bandpass self wl tol block w)).
Proof.
  unfold Obj.Rack.select_bandpass, FilterRack.select_bandpass.
  unfold Obj.bind at 1. unfold Obj.attr at 1.
  destruct (FilterRack._nearest_bp self wl tol) as [[[tk ts] n] |];
    [| reflexivity].
  unfold Obj.bind, Obj.Rack.for_wheels.
  rewrite obj_find_empty.
  destruct (FilterRack.find_empty (FilterRack.wheels self) [] w) as [empty w1].
  simpl. rewrite set_wheels_same, obj_move_pass.
  now rewrite set_wheels_same.
Qed.

Lemma obj_select_nd od tol block self (w : World S) :
  Obj.Rack.select_nd od tol block self w
  = (fst (FilterRack.select_nd self od tol block w), self,
     snd (FilterRack.select_nd self od tol block w)).
Proof.
  unfold Obj.Rack.select_nd, FilterRack.select_nd.
  destruct (FilterRack.od_value od) as [v | e]; [| reflexivity].
  unfold Obj.bind, Obj.attr.
  destruct (FilterRack.nearest_nd self v tol) as [[[k slot] n] |];
    [| reflexivity].
  unfold Obj.Rack.on_wheel.
  rewrite (obj_at_key k _ (fun wheel w0 => FilterWheel.move_to wheel slot block None w0))
    by (intros wheel w0; apply obj_move_to).
  destruct (dict_get String.eqb (FilterRack.wheels self) k); [| reflexivity].
  now rewrite set_wheels_same.
Qed.

Lemma obj_available_filters self (w : World S) :
  Obj.Rack.available_filters self w
  = (FilterRack.available_filters self, self, w).
Proof.
  unfold Obj.Rack.available_filters, FilterRack.available_filters,
    Obj.bind, Obj.attr.
  now destruct (FilterRack.scan_filters _ _ _).
Qed.

Lemma obj_status self (w : World S) :
  Obj.Rack.status self w
  = (fst (FilterRack.status self w), self, snd (FilterRack.status self w)).
Proof.
  unfold Obj.Rack.status, Obj.Rack.for_wheels, FilterRack.status.
  rewrite obj_status_all, set_wheels_same.
  now destruct (FilterRack.status_all (FilterRack.wheels self) w) as [[sts | e] w1].
Qed.

Lemma obj_close self (w : World S) :
  Obj.Rack.close self w
  = (Ok tt, fst (FilterRack.close self w), snd (FilterRack.close self w)).
Proof.
  unfold Obj.Rack.close, Obj.Rack.for_wheels, FilterRack.close.
  rewrite obj_disconnect_all.
  now destruct (FilterRack.disconnect_all (FilterRack.wheels self) w).
Qed.

End Frame.

(** C10.  Each public operation, run as a program on the rack object on
    whatever hardware, leaves the object as follows, whether it returns or
    raises.  [select_bandpass], [select_nd], [available_filters],
    [status] and [wheels_keys] leave the rack and every wheel of it
    exactly as they were.  [close] leaves the wavelength index, the
    optical-density index, the online and offline lists and the filter
    metadata as they were, the same wheels under the same keys, and every
    wheel as configured (slot map included): of the rack's own data it
    changes connection handles only. *)
Theorem public_operations_frame :
  forall (S : Type) (hw : Hardware S) (pf : PyFloat) (self : FilterRack.t)
         (w : World S),
    (forall wl_nm tol_nm block,
        snd (fst (Obj.Rack.select_bandpass wl_nm tol_nm block self w)) = self) /\
    (forall od tol block,
        snd (fst (Obj.Rack.select_nd od tol block self w)) = self) /\
    snd (fst (Obj.Rack.available_filters self w)) = self /\
    snd (fst (Obj.Rack.status self w)) = self /\
    snd (fst (Obj.Rack.wheels_keys self w)) = self /\
    frame self (snd (fst (Obj.Rack.close self w))).
Proof.
  intros S hw pf self w.
  split; [intros wl tol block; now rewrite obj_select_bandpass |].
  split; [intros od tol block; now rewrite obj_select_nd |].
  split; [now rewrite obj_available_filters |].
  split; [now rewrite obj_status |].
  split; [reflexivity |].
  rewrite obj_close. simpl. unfold FilterRack.close.
  pose proof (disconnect_all_configured (FilterRack.wheels self) w) as Hd.
  destruct (FilterRack.disconnect_all (FilterRack.wheels self) w) as [ws w1].
  simpl in *. unfold frame. simpl.
  repeat split; try reflexivity; [assumption |].
  now apply configured_slot_map.
Qed.

(** ** Dictionaries *)

Section DictFacts.
Context {K V : Type} (eqb : K -> K -> bool).
Hypothesis eqb_spec : forall a b, reflect (a = b) (eqb a b).

Lemma dict_get_set_same (d : list (K * V)) k v :
  dict_get eqb (dict_set eqb d k v) k = Some v.
Proof.
  induction d as [| [k' v'] d IH]; simpl.
  - destruct (eqb_spec k k); congruence.
  - destruct (eqb_spec k' k) as [-> | Hne]; simpl.
    + destruct (eqb_spec k k); congruence.
    + destruct (eqb_spec k' k); congruence.
Qed.

Lemma dict_get_set_other (d : list (K * V)) k v k0 :
  k <> k0 -> dict_get eqb (dict_set eqb d k v) k0 = dict_get eqb d k0.
Proof.
  intros Hne. induction d as [| [k' v'] d IH]; simpl.
  - destruct (eqb_spec k k0); congruence.
  - destruct (eqb_spec k' k) as [-> | Hk]; simpl.
    + destruct (eqb_spec k k0); congruence.
    + now rewrite IH.
Qed.

Lemma dict_get_In (d : list (K * V)) k v :
  dict_get eqb d k = Some v -> In (k, v) d.
Proof.
  induction d as [| [k' v'] d IH]; simpl; [discriminate |].
  destruct (eqb_spec k' k) as [-> | Hk].
  - intros [= ->]. now left.
  - intros Hg. right. now apply IH.
Qed.

Lemma dict_get_key (d : list (K * V)) k :
  In k (map fst d) -> exists v, dict_get eqb d k = Some v.
Proof.
  induction d as [| [k' v'] d IH]; simpl; [contradiction |].
  intros [-> | Hin].
  - destruct (eqb_spec k k); [eauto | congruence].
  - destruct (eqb_spec k' k); [eauto | auto].
Qed.

End DictFacts.

(** ** Introspection *)

Section Available.

Let out_t : Type := list (string * (string * Z)).

Lemma add_filters_get k fs (out : out_t) name v :
  dict_get String.eqb (FilterRack.add_filters k fs out) name = Some v ->
  dict_get String.eqb out name = Some v \/
  exists slot, v = (k, slot) /\ In (slot, name) fs /\
               FilterRack.is_empty_name name = false.
Proof.
  revert out. induction fs as [| [s n] fs IH]; intros out; simpl.
  - auto.
  - destruct (FilterRack.is_empty_name n) eqn:He; simpl; intros Hg.
    + destruct (IH _ Hg) as [Ho | (slot & -> & Hin & Hn)]; eauto 6.
    + destruct (IH _ Hg) as [Ho | (slot & -> & Hin & Hn)]; [| eauto 6].
      destruct (String.eqb_spec n name) as [-> | Hne].
      * rewrite (dict_get_set_same _ String.eqb_spec) in Ho.
        injection Ho as <-. right. exists s. auto.
      * rewrite (dict_get_set_other _ String.eqb_spec) in Ho;
          [now left | assumption].
Qed.

Lemma add_filters_keeps k fs (out : out_t) name :
  (exists v, dict_get String.eqb out name = Some v) ->
  exists v, dict_get String.eqb (FilterRack.add_filters k fs out) name = Some v.
Proof.
  revert out. induction fs as [| [s n] fs IH]; intros out Hex; simpl.
  - assumption.
  - destruct (FilterRack.is_empty_name n); simpl; apply IH; [assumption |].
    destruct (String.eqb_spec n name) as [-> | Hne].
    + rewrite (dict_get_set_same _ String.eqb_spec). eauto.
    + now rewrite (dict_get_set_other _ String.eqb_spec).
Qed.

Lemma add_filters_covers k fs (out : out_t) slot name :
  In (slot, name) fs -> FilterRack.is_empty_name name = false ->
  exists v, dict_get String.eqb (FilterRack.add_filters k fs out) name = Some v.
Proof.
  revert out. induction fs as [| [s n] fs IH]; intros out Hin Hne; simpl.
  - contradiction.
  - destruct Hin as [[= -> ->] | Hin].
    + rewrite Hne. simpl. apply add_filters_keeps.
      rewrite (dict_get_set_same _ String.eqb_spec). eauto.
    + destruct (FilterRack.is_empty_name n); simpl; now apply IH.
Qed.

Lemma scan_filters_spec ws ks :
  (forall k, In k ks -> exists wheel, dict_get String.eqb ws k = Some wheel) ->
  forall out : out_t,
  exists out',
    FilterRack.scan_filters ws ks out = Ok out' /\
    (forall name v,
        dict_get String.eqb out' name = Some v ->
        dict_get String.eqb out name = Some v \/
        exists wheel, In (fst v) ks /\
                      dict_get String.eqb ws (fst v) = Some wheel /\
                      In (snd v, name) (FilterWheel.filters wheel) /\
                      FilterRack.is_empty_name name = false) /\
    (forall name,
        (exists v, dict_get String.eqb out name = Some v) ->
        exists v, dict_get String.eqb out' name = Some v) /\
    (forall k wheel slot name,
        In k ks -> dict_get String.eqb ws k = Some wheel ->
        In (slot, name) (FilterWheel.filters wheel) ->
        FilterRack.is_empty_name name = false ->
        exists v, dict_get String.eqb out' name = Some v).
Proof.
  induction ks as [| k ks IH]; intros Hkeys out; simpl.
  - exists out. repeat split; auto. intros k wheel slot name [].
  - destruct (Hkeys k (or_introl eq_refl)) as [wheel Hw]. rewrite Hw.
    destruct (IH (fun k0 Hin => Hkeys k0 (or_intror Hin))
                 (FilterRack.add_filters k (FilterWheel.filters wheel) out))
      as (out' & Hrun & Hsound & Hkeep & Hcover).
    exists out'. split; [assumption |]. repeat split.
    + intros name v Hg.
      destruct (Hsound name v Hg) as [Hadd | (wh & Hin & Hwh & Hslot & Hne)].
      * destruct (add_filters_get _ _ _ _ _ Hadd)
          as [Ho | (slot & -> & Hin & Hne)]; [now left |].
        right. exists wheel. simpl. auto.
      * right. exists wh. auto.
    + intros name Hex. apply Hkeep. now apply add_filters_keeps.
    + intros k0 wh slot name [<- | Hin] Hwh Hslot Hne.
      * rewrite Hw in Hwh. injection Hwh as <-.
        apply Hkeep. now apply add_filters_covers with (slot := slot).
      * now apply Hcover with (k := k0) (wheel := wh) (slot := slot).
Qed.

End Available.

Lemma init_fields {S : Type} {hw : Hardware S} {pf : PyFloat} ws mt
      (w w' : World S) rack :
  FilterRack.init ws mt w = (Ok rack, w') ->
  FilterRack.wheels rack = ws /\
  FilterRack.meta rack = mt /\
  FilterRack.offline rack = fst (FilterRack.scan_offline ws w) /\
  FilterRack.online rack
  = filter (fun k => negb (FilterRack.mem k (fst (FilterRack.scan_offline ws w))))
           (map fst ws) /\
  fst (FilterRack._build_indices mt ws ([], [])
         (snd (FilterRack.scan_offline ws w)))
  = Ok (FilterRack._wl_index rack, FilterRack._nd_index rack).
Proof.
  unfold FilterRack.init.
  destruct (FilterRack.scan_offline ws w) as [off w1]. simpl.
  destruct (FilterRack._build_indices mt ws ([], []) w1) as [[idx | e] w2];
    [| discriminate].
  intros [= <- <-]. simpl. destruct idx. repeat split; reflexivity.
Qed.




(** ** Orders *)

Lemma Qlt_bool_iff x y : Qlt_bool x y = true <-> (x < y)%Q.
Proof.
  unfold Qlt_bool. rewrite negb_true_iff. split.
  - intros Hle. apply Qnot_le_lt. intros Hc.
    apply Qle_bool_iff in Hc. congruence.
  - intros Hlt. destruct (Qle_bool y x) eqn:Hle; [| reflexivity].
    apply Qle_bool_iff in Hle. exfalso. now apply (Qlt_not_le x y).
Qed.

Lemma Qlt_bool_false_iff x y : Qlt_bool x y = false <-> (y <= x)%Q.
Proof.
  unfold Qlt_bool. rewrite negb_false_iff. apply Qle_bool_iff.
Qed.

Lemma ascii_compare_refl a : Ascii.compare a a = Eq.
Proof. unfold Ascii.compare. apply N.compare_refl. Qed.

Lemma string_compare_refl s : String.compare s s = Eq.
Proof.
  induction s as [| a s IH]; simpl; [reflexivity |].
  now rewrite ascii_compare_refl.
Qed.

Lemma string_compare_lt_trans s1 s2 s3 :
  String.compare s1 s2 = Lt -> String.compare s2 s3 = Lt ->
  String.compare s1 s3 = Lt.
Proof.
  revert s2 s3.
  induction s1 as [| a s1 IH]; intros [| b s2] [| c s3]; simpl;
    try congruence.
  unfold Ascii.compare.
  destruct (N.compare_spec (N_of_ascii a) (N_of_ascii b)) as [Hab | Hab | Hab];
    destruct (N.compare_spec (N_of_ascii b) (N_of_ascii c)) as [Hbc | Hbc | Hbc];
    try congruence; intros H12 H23.
  - replace (N_of_ascii a ?= N_of_ascii c)%N with Eq
      by (symmetry; apply N.compare_eq_iff; congruence).
    now apply IH with (s2 := s2).
  - replace (N_of_ascii a ?= N_of_ascii c)%N with Lt
      by (symmetry; apply N.compare_lt_iff; lia).
    reflexivity.
  - replace (N_of_ascii a ?= N_of_ascii c)%N with Lt
      by (symmetry; apply N.compare_lt_iff; lia).
    reflexivity.
  - replace (N_of_ascii a ?= N_of_ascii c)%N with Lt
      by (symmetry; apply N.compare_lt_iff; lia).
    reflexivity.
Qed.

Lemma string_ltb_irrefl s : String.ltb s s = false.
Proof. unfold String.ltb. now rewrite string_compare_refl. Qed.

Lemma string_ltb_trans s1 s2 s3 :
  String.ltb s1 s2 = true -> String.ltb s2 s3 = true -> String.ltb s1 s3 = true.
Proof.
  unfold String.ltb. intros H12 H23.
  destruct (String.compare s1 s2) eqn:E12; try discriminate.
  destruct (String.compare s2 s3) eqn:E23; try discriminate.
  now rewrite (string_compare_lt_trans _ _ _ E12 E23).
Qed.

Lemma triple_lt_irrefl t : FilterRack.triple_lt t t = false.
Proof.
  destruct t as [[k s] n]. unfold FilterRack.triple_lt.
  rewrite String.eqb_refl, Z.eqb_refl. simpl. apply string_ltb_irrefl.
Qed.

Lemma triple_lt_trans a b c :
  FilterRack.triple_lt a b = true -> FilterRack.triple_lt b c = true ->
  FilterRack.triple_lt a c = true.
Proof.
  destruct a as [[k1 s1] n1], b as [[k2 s2] n2], c as [[k3 s3] n3].
  unfold FilterRack.triple_lt.
  destruct (String.eqb_spec k1 k2) as [E12 | Hk12];
    destruct (String.eqb_spec k2 k3) as [E23 | Hk23];
    destruct (String.eqb_spec k1 k3) as [E13 | Hk13];
    simpl; try congruence.
  - destruct (Z.eqb_spec s1 s2) as [F12 | Hs12];
      destruct (Z.eqb_spec s2 s3) as [F23 | Hs23];
      destruct (Z.eqb_spec s1 s3) as [F13 | Hs13];
      simpl; try congruence; try lia.
    apply string_ltb_trans.
  - subst k3. intros H12 H21.
    pose proof (string_ltb_trans _ _ _ H12 H21) as Hc.
    rewrite string_ltb_irrefl in Hc. discriminate.
  - apply string_ltb_trans.
Qed.

Lemma cand_lt_iff a b :
  FilterRack.cand_lt a b = true <->
  (fst a < fst b)%Q \/
  ((fst a == fst b)%Q /\ FilterRack.triple_lt (snd a) (snd b) = true).
Proof.
  unfold FilterRack.cand_lt.
  destruct (Qeq_bool (fst a) (fst b)) eqn:He; simpl.
  - apply Qeq_bool_iff in He. split.
    + intros Ht. right. auto.
    + intros [Hlt | [_ Ht]]; [| assumption].
      exfalso. rewrite He in Hlt. now apply (Qlt_irrefl (fst b)).
  - rewrite Qlt_bool_iff. split; [auto |].
    intros [Hlt | [Heq _]]; [assumption |].
    apply Qeq_bool_iff in Heq. congruence.
Qed.

Lemma cand_lt_irrefl a : FilterRack.cand_lt a a = false.
Proof.
  destruct (FilterRack.cand_lt a a) eqn:Hc; [| reflexivity].
  apply cand_lt_iff in Hc as [Hlt | [_ Ht]].
  - exfalso. now apply (Qlt_irrefl (fst a)).
  - now rewrite triple_lt_irrefl in Ht.
Qed.

Lemma cand_lt_trans a b c :
  FilterRack.cand_lt a b = true -> FilterRack.cand_lt b c = true ->
  FilterRack.cand_lt a c = true.
Proof.
  rewrite !cand_lt_iff.
  intros [Hab | [Hab Tab]] [Hbc | [Hbc Tbc]].
  - left. now apply Qlt_trans with (y := fst b).
  - left. now rewrite <- Hbc.
  - left. now rewrite Hab.
  - right. split; [now rewrite Hab |].
    now apply triple_lt_trans with (b := snd b).
Qed.

Lemma key_lt_irrefl a : FilterRack.key_lt a a = false.
Proof. apply Qlt_bool_false_iff. apply Qle_refl. Qed.

Lemma key_lt_trans a b c :
  FilterRack.key_lt a b = true -> FilterRack.key_lt b c = true ->
  FilterRack.key_lt a c = true.
Proof.
  unfold FilterRack.key_lt. rewrite !Qlt_bool_iff. apply Qlt_trans.
Qed.

Lemma key_lt_neg a b c :
  FilterRack.key_lt a c = true -> FilterRack.key_lt b c = false ->
  FilterRack.key_lt a b = true.
Proof.
  unfold FilterRack.key_lt.
  rewrite !Qlt_bool_iff, Qlt_bool_false_iff. apply Qlt_le_trans.
Qed.

(** ** [min] *)

Section MinFacts.
Context {A : Type} (lt : A -> A -> bool).
Hypothesis lt_irrefl : forall a, lt a a = false.
Hypothesis lt_trans :
  forall a b c, lt a b = true -> lt b c = true -> lt a c = true.

Lemma min_from_In best xs : In (min_from lt best xs) (best :: xs).
Proof.
  revert best. induction xs as [| x xs IH]; intros best; simpl.
  - now left.
  - destruct (IH (if lt x best then x else best)) as [Hb | Hin].
    + destruct (lt x best); rewrite <- Hb; auto.
    + auto.
Qed.

(** What is not below the best so far is not below the result. *)
Lemma min_from_below best xs y :
  lt y best = false -> lt y (min_from lt best xs) = false.
Proof.
  revert best. induction xs as [| x xs IH]; intros best Hy; simpl.
  - assumption.
  - apply IH. destruct (lt x best) eqn:Hx; [| assumption].
    destruct (lt y x) eqn:Hyx; [| reflexivity].
    rewrite (lt_trans _ _ _ Hyx Hx) in Hy. discriminate.
Qed.

Lemma min_from_least best xs x :
  In x (best :: xs) -> lt x (min_from lt best xs) = false.
Proof.
  revert best. induction xs as [| x0 xs IH]; intros best Hin.
  - destruct Hin as [<- | []]. simpl. apply lt_irrefl.
  - simpl. destruct Hin as [<- | [<- | Hin]].
    + apply min_from_below. destruct (lt x0 best) eqn:Hx; [| apply lt_irrefl].
      destruct (lt best x0) eqn:Hxx; [| reflexivity].
      pose proof (lt_trans _ _ _ Hxx Hx) as Hc.
      rewrite lt_irrefl in Hc. discriminate.
    + apply min_from_below. destruct (lt x0 best) eqn:Hx;
        [apply lt_irrefl | assumption].
    + apply IH. now right.
Qed.

Hypothesis lt_neg :
  forall a b c, lt a c = true -> lt b c = false -> lt a b = true.

(** The result is the first of the least items: everything before it is
    above it. *)
Lemma min_from_first best xs :
  exists pre post,
    best :: xs = pre ++ min_from lt best xs :: post /\
    (forall y, In y pre -> lt (min_from lt best xs) y = true) /\
    (forall y, In y post -> lt y (min_from lt best xs) = false).
Proof.
  revert best. induction xs as [| x xs IH]; intros best; simpl.
  - exists [], []. repeat split; intros y [].
  - destruct (IH (if lt x best then x else best))
      as (pre & post & Hsplit & Hpre & Hpost).
    set (r := min_from lt (if lt x best then x else best) xs) in *.
    destruct (lt x best) eqn:Hx.
    + exists (best :: pre), post. split; [simpl; now rewrite <- Hsplit |].
      split; [| assumption].
      intros y [<- | Hin]; [| now apply Hpre].
      destruct pre as [| p pre]; simpl in Hsplit.
      * injection Hsplit as Hr _. now rewrite <- Hr.
      * injection Hsplit as Hp _. apply lt_trans with (b := x); [| assumption].
        apply Hpre. left. auto.
    + destruct pre as [| p pre]; simpl in Hsplit.
      * injection Hsplit as Hr Hxs. exists [], (x :: xs).
        split; [simpl; now rewrite <- Hr |].
        split; [intros y [] |].
        intros y [<- | Hin]; [now rewrite <- Hr |].
        apply Hpost. now rewrite <- Hxs.
      * injection Hsplit as Hp Hxs. exists (best :: x :: pre), post.
        split; [simpl; now rewrite Hxs |].
        split; [| assumption].
        assert (Hrb : lt r best = true) by (apply Hpre; left; auto).
        intros y [<- | [<- | Hin]].
        -- assumption.
        -- now apply lt_neg with (c := best).
        -- apply Hpre. now right.
Qed.

End MinFacts.

(** ** Candidates *)

Section Cands.
Variables target tol : Q.

Lemma cands_In idx d t :
  In (d, t) (FilterRack.cands idx target tol) <->
  exists v, In (v, t) idx /\ d = dist target v /\ (dist target v <= tol)%Q.
Proof.
  induction idx as [| [v0 t0] idx IH]; simpl.
  - split; [intros [] | intros (v & [] & _)].
  - destruct (Qle_bool (dist target v0) tol) eqn:Hle; simpl; rewrite IH.
    + apply Qle_bool_iff in Hle. split.
      * intros [[= <- <-] | (v & Hin & Hd & Hv)]; [exists v0 | exists v]; auto.
      * intros (v & [[= <- <-] | Hin] & Hd & Hv); [left; now subst |].
        right. exists v. auto.
    + split.
      * intros (v & Hin & Hd & Hv). exists v. auto.
      * intros (v & [[= <- <-] | Hin] & Hd & Hv); [| exists v; auto].
        apply Qle_bool_iff in Hv. congruence.
Qed.

Lemma cands_app idx1 idx2 :
  FilterRack.cands (idx1 ++ idx2) target tol
  = FilterRack.cands idx1 target tol ++ FilterRack.cands idx2 target tol.
Proof.
  induction idx1 as [| [v t] idx1 IH]; simpl; [reflexivity |].
  destruct (Qle_bool (dist target v) tol); simpl; now rewrite IH.
Qed.

(** A place in the list of candidates is a place in the index. *)
Lemma cands_split idx pre c post :
  FilterRack.cands idx target tol = pre ++ c :: post ->
  exists ipre v ipost,
    idx = ipre ++ (v, snd c) :: ipost /\
    fst c = dist target v /\ (dist target v <= tol)%Q /\
    FilterRack.cands ipre target tol = pre /\
    FilterRack.cands ipost target tol = post.
Proof.
  revert pre. induction idx as [| [v0 t0] idx IH]; intros pre; simpl.
  - destruct pre; discriminate.
  - destruct (Qle_bool (dist target v0) tol) eqn:Hle.
    + destruct pre as [| p pre]; simpl; intros Heq.
      * injection Heq as <- <-. exists [], v0, idx. simpl.
        apply Qle_bool_iff in Hle. auto.
      * injection Heq as <- Heq.
        destruct (IH _ Heq) as (ipre & v & ipost & -> & Hd & Hv & Hp & Hq).
        exists ((v0, t0) :: ipre), v, ipost. simpl. rewrite Hle, Hp. auto.
    + intros Heq.
      destruct (IH _ Heq) as (ipre & v & ipost & -> & Hd & Hv & Hp & Hq).
      exists ((v0, t0) :: ipre), v, ipost. simpl. rewrite Hle. auto.
Qed.

Lemma cands_nil idx :
  FilterRack.cands idx target tol = [] <->
  forall v t, In (v, t) idx -> ~ (dist target v <= tol)%Q.
Proof.
  split.
  - intros Hnil v t Hin Hv.
    assert (Hc : In (dist target v, t) (FilterRack.cands idx target tol))
      by (apply cands_In; exists v; auto).
    now rewrite Hnil in Hc.
  - intros Hno. destruct (FilterRack.cands idx target tol) as [| [d t] cs] eqn:Hc;
      [reflexivity |].
    assert (Hin : In (d, t) (FilterRack.cands idx target tol))
      by (rewrite Hc; now left).
    apply cands_In in Hin as (v & Hin & _ & Hv). now destruct (Hno v t Hin).
Qed.

End Cands.

(** ** The keys of the indices are distinct *)

Lemma dict_set_In (idx : FilterRack.index) k x v' t' :
  In (v', t') (dict_set Qeq_bool idx k x) ->
  In (v', t') idx \/ (t' = x /\ (v' == k)%Q).
Proof.
  induction idx as [| [k0 x0] idx IH]; simpl.
  - intros [[= <- <-] | []]. right. split; [reflexivity | apply Qeq_refl].
  - destruct (Qeq_bool k0 k) eqn:He; simpl.
    + intros [[= <- <-] | Hin]; [| auto].
      right. split; [reflexivity | now apply Qeq_bool_iff].
    + intros [Hhd | Hin]; [auto |].
      destruct (IH Hin) as [Hold | Hnew]; auto.
Qed.

Lemma dict_set_distinct idx k x :
  distinct_keys idx -> distinct_keys (dict_set Qeq_bool idx k x).
Proof.
  induction idx as [| [k0 x0] idx IH]; simpl.
  - intros _. split; [intros v' t' [] | exact I].
  - intros [Hhd Htl]. destruct (Qeq_bool k0 k) eqn:He; simpl.
    + auto.
    + split; [| auto].
      intros v' t' Hin Heq.
      destruct (dict_set_In _ _ _ _ _ Hin) as [Hold | [_ Hk]].
      * now apply (Hhd v' t').
      * apply Qeq_bool_neq in He. apply He. now rewrite <- Heq, Hk.
Qed.

Section BuildDistinct.
Context {S : Type} {hw : Hardware S} {pf : PyFloat}.

(** What a step of the inner loop that returns has done: nothing, or one
    assignment to the wavelength index, or one to the density index. *)
Lemma index_slot_cases mt wkey wheel slot name idx idx' :
  FilterRack.index_slot mt wkey wheel slot name idx = Ok idx' ->
  idx' = idx \/
  (FilterRack.is_empty_name name = false /\
   ((exists y wl,
        FilterRack.f_type_of mt wheel name = FilterRack.BP /\
        FilterRack.m_wavelength (FilterRack.f_meta_of mt name) = Some y /\
        FilterRack.to_float y = Ok wl /\
        idx' = (dict_set Qeq_bool (fst idx) wl (wkey, slot, name), snd idx)) \/
    (exists tok od,
        FilterRack.f_type_of mt wheel name = FilterRack.ND /\
        last_item (split name) = Ok tok /\
        float_str tok = Some od /\
        idx' = (fst idx, dict_set Qeq_bool (snd idx) od (wkey, slot, name))))).
Proof.
  unfold FilterRack.index_slot.
  destruct (FilterRack.is_empty_name name); [intros [= <-]; now left |].
  assert (Hnd_case :
            (if String.eqb (FilterRack.f_type_of mt wheel name) FilterRack.ND
             then match last_item (split name) with
                  | Ok tok =>
                      match float_str tok with
                      | Some od =>
                          Ok (fst idx,
                              dict_set Qeq_bool (snd idx) od (wkey, slot, name))
                      | None => Ok idx
                      end
                  | Raise e => Raise e
                  end
             else Ok idx) = Ok idx' ->
            idx' = idx \/
            (false = false /\
             ((exists y wl,
                  FilterRack.f_type_of mt wheel name = FilterRack.BP /\
                  FilterRack.m_wavelength (FilterRack.f_meta_of mt name) = Some y /\
                  FilterRack.to_float y = Ok wl /\
                  idx' = (dict_set Qeq_bool (fst idx) wl (wkey, slot, name),
                          snd idx)) \/
              (exists tok od,
                  FilterRack.f_type_of mt wheel name = FilterRack.ND /\
                  last_item (split name) = Ok tok /\
                  float_str tok = Some od /\
                  idx' = (fst idx,
                          dict_set Qeq_bool (snd idx) od (wkey, slot, name)))))).
  { destruct (String.eqb_spec (FilterRack.f_type_of mt wheel name) FilterRack.ND)
      as [Hty | _]; [| intros [= <-]; now left].
    destruct (last_item (split name)) as [tok | e]; [| discriminate].
    destruct (float_str tok) as [od |] eqn:Hod; intros [= <-]; [| now left].
    right. split; [reflexivity |]. right. exists tok, od. auto. }
  destruct (String.eqb_spec (FilterRack.f_type_of mt wheel name) FilterRack.BP)
    as [Hty | _]; [| exact Hnd_case].
  destruct (FilterRack.m_wavelength (FilterRack.f_meta_of mt name)) as [y |] eqn:Hy;
    [| exact Hnd_case].
  destruct (FilterRack.to_float y) as [wl | e] eqn:Hwl; [| discriminate].
  intros [= <-]. right. split; [reflexivity |]. left. exists y, wl. auto.
Qed.

Lemma index_slot_distinct mt wkey wheel slot name idx idx' :
  both_distinct idx ->
  FilterRack.index_slot mt wkey wheel slot name idx = Ok idx' ->
  both_distinct idx'.
Proof.
  intros [Hwl Hnd] Hs.
  destruct (index_slot_cases _ _ _ _ _ _ _ Hs)
    as [-> | [_ [(y & wl & _ & _ & _ & ->) | (tok & od & _ & _ & _ & ->)]]].
  - now split.
  - split; simpl; [now apply dict_set_distinct | assumption].
  - split; simpl; [assumption | now apply dict_set_distinct].
Qed.

Lemma index_wheel_distinct mt wkey wheel fs idx idx' :
  both_distinct idx ->
  FilterRack.index_wheel mt wkey wheel fs idx = Ok idx' ->
  both_distinct idx'.
Proof.
  revert idx. induction fs as [| [slot name] fs IH]; intros idx Hd; simpl.
  - now intros [= <-].
  - destruct (FilterRack.index_slot mt wkey wheel slot name idx) as [idx1 | e] eqn:Hs;
      [| discriminate].
    apply IH. now apply (index_slot_distinct _ _ _ _ _ _ _ Hd Hs).
Qed.

Lemma build_indices_distinct mt ws idx (w : World S) idx' :
  both_distinct idx ->
  fst (FilterRack._build_indices mt ws idx w) = Ok idx' ->
  both_distinct idx'.
Proof.
  revert idx w. induction ws as [| [k wheel] ws IH]; intros idx w Hd; simpl.
  - now intros [= <-].
  - destruct (FilterWheel.is_connected wheel w) as [c w1].
    destruct (negb c); [now apply IH |].
    destruct (FilterRack.index_wheel mt k wheel (FilterWheel.filters wheel) idx)
      as [idx1 | e] eqn:Hw; [| discriminate].
    apply IH. now apply (index_wheel_distinct _ _ _ _ _ _ Hd Hw).
Qed.

Lemma init_distinct ws mt (w w' : World S) rack :
  FilterRack.init ws mt w = (Ok rack, w') ->
  distinct_keys (FilterRack._wl_index rack) /\
  distinct_keys (FilterRack._nd_index rack).
Proof.
  intros Hinit.
  destruct (init_fields _ _ _ _ _ Hinit) as (_ & _ & _ & _ & Hb).
  pose proof (build_indices_distinct mt ws ([], []) _ _ (conj I I) Hb) as Hd.
  exact Hd.
Qed.

End BuildDistinct.

(** ** Rounding *)

Lemma pow2_pos e : (0 < pow2 e)%Q.
Proof. apply Qpower_0_lt. reflexivity. Qed.

Lemma pow2_add a b : (pow2 (a + b) == pow2 a * pow2 b)%Q.
Proof. apply Qpower_plus. discriminate. Qed.

Lemma pow2_nat k : 0 <= k -> (pow2 k == inject_Z (2 ^ k))%Q.
Proof. intros Hk. unfold pow2. now rewrite Zpower_Qpower. Qed.

Lemma round_half_even_compat x y :
  (x == y)%Q -> round_half_even x = round_half_even y.
Proof.
  intros Heq. unfold round_half_even. rewrite (Qfloor_comp x y Heq).
  now rewrite (Qcompare_comp (x - inject_Z (Qfloor y))%Q (y - inject_Z (Qfloor y))%Q
                 ltac:(now rewrite Heq) (1 # 2)%Q (1 # 2)%Q ltac:(reflexivity)).
Qed.

Lemma ulp_exponent_compat x y : (x == y)%Q -> ulp_exponent x = ulp_exponent y.
Proof.
  intros Heq. unfold ulp_exponent.
  now rewrite (Qfloor_comp (Qabs x * pow2 1074)%Q (Qabs y * pow2 1074)%Q)
    by (now rewrite Heq).
Qed.

Lemma binary64_compat x y : (x == y)%Q -> binary64 x = binary64 y.
Proof.
  intros Heq. unfold binary64. apply Qred_complete.
  rewrite (ulp_exponent_compat x y Heq).
  rewrite (round_half_even_compat (x / pow2 (ulp_exponent y))%Q
             (y / pow2 (ulp_exponent y))%Q); [reflexivity |].
  now rewrite Heq.
Qed.

Lemma binary64_on_grid q : on_grid (binary64 q).
Proof.
  unfold binary64, ulp_exponent.
  set (k := Z.max _ 0). set (m := round_half_even _).
  exists (m * 2 ^ k). rewrite Qred_correct.
  replace (k - 1074) with (k + -1074) by lia.
  rewrite pow2_add, (pow2_nat k) by (unfold k; lia).
  rewrite inject_Z_mult. ring.
Qed.

Lemma Qabs_inject_Z z : Qabs (inject_Z z) = inject_Z (Z.abs z).
Proof. reflexivity. Qed.

Lemma round_half_even_nonzero x :
  (1 <= Qabs x)%Q -> round_half_even x <> 0.
Proof.
  intros Hx. unfold round_half_even.
  pose proof (Qfloor_le x) as Hlo. pose proof (Qlt_floor x) as Hhi.
  set (f := Qfloor x) in *.
  destruct (Qlt_le_dec x 0) as [Hneg | Hpos].
  - rewrite (Qabs_neg x) in Hx by lra.
    assert (Hf : f <= -1).
    { assert (H1 : (inject_Z f <= inject_Z (-1))%Q)
        by (change (inject_Z (-1)) with (-1 # 1)%Q; lra).
      now rewrite <- Zle_Qle in H1. }
    destruct (Z.eq_dec f (-1)) as [-> | Hne].
    + assert (Hc : (x - inject_Z (-1) ?= 1 # 2)%Q = Lt).
      { apply (proj1 (Qlt_alt _ _)). change (inject_Z (-1)) with (-1 # 1)%Q. lra. }
      rewrite Hc. discriminate.
    + destruct (x - inject_Z f ?= 1 # 2)%Q; [destruct (Z.even f) | |]; lia.
  - rewrite (Qabs_pos x) in Hx by assumption.
    assert (Hf : 1 <= f).
    { pose proof (Qfloor_resp_le (inject_Z 1) x Hx) as H1.
      now rewrite (Qfloor_Z 1) in H1. }
    destruct (x - inject_Z f ?= 1 # 2)%Q; [destruct (Z.even f) | |]; lia.
Qed.

Lemma binary64_zero_on_grid q :
  on_grid q -> (binary64 q == 0)%Q -> (q == 0)%Q.
Proof.
  intros [z Hz] Hb.
  destruct (Z.eq_dec z 0) as [-> | Hnz]; [rewrite Hz; ring |].
  exfalso. unfold binary64 in Hb. rewrite Qred_correct in Hb.
  apply Qmult_integral in Hb as [Hm | Hp];
    [| pose proof (pow2_pos (ulp_exponent q)); lra].
  assert (Hm0 : round_half_even (q / pow2 (ulp_exponent q)) = 0).
  { now apply inject_Z_injective. }
  revert Hm0. apply round_half_even_nonzero.
  unfold ulp_exponent.
  assert (Hinv : (pow2 (-1074) * pow2 1074 == 1)%Q)
    by (rewrite <- pow2_add; reflexivity).
  assert (HN : Qfloor (Qabs q * pow2 1074) = Z.abs z).
  { rewrite (Qfloor_comp _ (inject_Z (Z.abs z))); [apply Qfloor_Z |].
    rewrite Hz, Qabs_Qmult, (Qabs_pos (pow2 (-1074))), <- Qmult_assoc, Hinv
      by (apply Qlt_le_weak, pow2_pos).
    rewrite Qmult_1_r. now rewrite Qabs_inject_Z. }
  rewrite HN. set (k := Z.max _ 0).
  assert (Hk : 0 <= k) by (unfold k; lia).
  assert (Hle : 2 ^ k <= Z.abs z).
  { unfold k. destruct (Z.max_spec (Z.log2 (Z.abs z) - 52) 0) as [[_ ->] | [_ ->]].
    - simpl. lia.
    - pose proof (Z.log2_spec (Z.abs z) ltac:(lia)) as [Hl _].
      apply Z.le_trans with (2 ^ Z.log2 (Z.abs z)); [| assumption].
      apply Z.pow_le_mono_r; lia. }
  assert (Hq : (q / pow2 (k - 1074) == inject_Z z / inject_Z (2 ^ k))%Q).
  { replace (k - 1074) with (k + -1074) by lia.
    rewrite pow2_add, (pow2_nat k Hk), Hz.
    pose proof (pow2_pos (-1074)). 
    assert (H2 : (0 < inject_Z (2 ^ k))%Q).
    { rewrite <- (pow2_nat k Hk). apply pow2_pos. }
    field. split; lra. }
  rewrite Hq.
  assert (H2 : (0 < inject_Z (2 ^ k))%Q).
  { rewrite <- (pow2_nat k Hk). apply pow2_pos. }
  unfold Qdiv. rewrite Qabs_Qmult, Qabs_inject_Z.
  rewrite (Qabs_pos (/ inject_Z (2 ^ k))) by (apply Qlt_le_weak, Qinv_lt_0_compat, H2).
  apply Qle_shift_div_l; [assumption |].
  rewrite Qmult_1_l. now rewrite <- Zle_Qle.
Qed.

Lemma on_grid_minus a b : on_grid a -> on_grid b -> on_grid (a - b).
Proof.
  intros [x Hx] [y Hy]. exists (x - y).
  unfold Z.sub. rewrite inject_Z_plus, inject_Z_opp, Hx, Hy. ring.
Qed.

Lemma binary64_minus_zero a b :
  on_grid a -> on_grid b -> ((binary64 (a - b) == 0)%Q <-> (a == b)%Q).
Proof.
  intros Ha Hb. split.
  - intros Hz. apply binary64_zero_on_grid in Hz; [lra | now apply on_grid_minus].
  - intros Heq. rewrite (binary64_compat (a - b) 0) by lra. reflexivity.
Qed.

Lemma on_grid_compat a b : (a == b)%Q -> on_grid a -> on_grid b.
Proof. intros Heq [z Hz]. exists z. now rewrite <- Heq. Qed.

Lemma float_str_on_grid {pf : PyFloat} s q : float_str s = Some q -> on_grid q.
Proof.
  unfold float_str. destruct (py_float s); [| discriminate].
  intros [= <-]. apply binary64_on_grid.
Qed.

Lemma to_float_on_grid {pf : PyFloat} y q :
  FilterRack.to_float y = Ok q -> on_grid q.
Proof.
  destruct y as [x | s |]; simpl; [| | discriminate].
  - intros [= <-]. apply binary64_on_grid.
  - destruct (float_str s) eqn:Hs; [| discriminate].
    intros [= <-]. now apply (float_str_on_grid s).
Qed.

Lemma dist_compat t a b : (a == b)%Q -> (dist t a == dist t b)%Q.
Proof.
  intros Heq. unfold dist.
  rewrite (binary64_compat (t - a) (t - b)); [reflexivity |].
  now rewrite Heq.
Qed.

(** ** The keys of the indices are floats *)

Lemma dict_set_grid idx k x :
  grid_keys idx -> on_grid k -> grid_keys (dict_set Qeq_bool idx k x).
Proof.
  intros Hg Hk v t Hin.
  destruct (dict_set_In _ _ _ _ _ Hin) as [Hold | [_ Heq]].
  - now apply (Hg v t).
  - apply (on_grid_compat k v); [now symmetry | assumption].
Qed.

Section BuildGrid.
Context {S : Type} {hw : Hardware S} {pf : PyFloat}.

Lemma index_slot_grid mt wkey wheel slot name idx idx' :
  both_grid idx ->
  FilterRack.index_slot mt wkey wheel slot name idx = Ok idx' ->
  both_grid idx'.
Proof.
  intros [Hwl Hnd] Hs.
  destruct (index_slot_cases _ _ _ _ _ _ _ Hs)
    as [-> | [_ [(y & wl & _ & _ & Hf & ->) | (tok & od & _ & _ & Hf & ->)]]].
  - now split.
  - split; simpl; [| assumption].
    apply dict_set_grid; [assumption | now apply (to_float_on_grid y)].
  - split; simpl; [assumption |].
    apply dict_set_grid; [assumption | now apply (float_str_on_grid tok)].
Qed.

Lemma index_wheel_grid mt wkey wheel fs idx idx' :
  both_grid idx ->
  FilterRack.index_wheel mt wkey wheel fs idx = Ok idx' ->
  both_grid idx'.
Proof.
  revert idx. induction fs as [| [slot name] fs IH]; intros idx Hd; simpl.
  - now intros [= <-].
  - destruct (FilterRack.index_slot mt wkey wheel slot name idx) as [idx1 | e] eqn:Hs;
      [| discriminate].
    apply IH. now apply (index_slot_grid _ _ _ _ _ _ _ Hd Hs).
Qed.

Lemma build_indices_grid mt ws idx (w : World S) idx' :
  both_grid idx ->
  fst (FilterRack._build_indices mt ws idx w) = Ok idx' ->
  both_grid idx'.
Proof.
  revert idx w. induction ws as [| [k wheel] ws IH]; intros idx w Hd; simpl.
  - now intros [= <-].
  - destruct (FilterWheel.is_connected wheel w) as [c w1].
    destruct (negb c); [now apply IH |].
    destruct (FilterRack.index_wheel mt k wheel (FilterWheel.filters wheel) idx)
      as [idx1 | e] eqn:Hw; [| discriminate].
    apply IH. now apply (index_wheel_grid _ _ _ _ _ _ Hd Hw).
Qed.

Lemma init_grid ws mt (w w' : World S) rack :
  FilterRack.init ws mt w = (Ok rack, w') ->
  grid_keys (FilterRack._wl_index rack) /\
  grid_keys (FilterRack._nd_index rack).
Proof.
  intros Hinit.
  destruct (init_fields _ _ _ _ _ Hinit) as (_ & _ & _ & _ & Hb).
  apply (build_indices_grid mt ws ([], []) _ _) in Hb; [exact Hb |].
  split; intros v t [].
Qed.

End BuildGrid.

(** ** Exact match *)

Lemma dist_zero a b :
  on_grid a -> on_grid b -> ((dist a b <= 0)%Q <-> (b == a)%Q).
Proof.
  intros Ha Hb. unfold dist. rewrite Qabs_Qle_condition.
  rewrite <- (binary64_minus_zero b a Hb Ha).
  rewrite (binary64_compat (b - a) (- (a - b))) by ring.
  split.
  - intros [Hlo Hhi].
    assert (Hz : (binary64 (a - b) == 0)%Q) by lra.
    apply (binary64_zero_on_grid (a - b) (on_grid_minus a b Ha Hb)) in Hz.
    rewrite (binary64_compat (- (a - b)) 0) by lra. reflexivity.
  - intros Hz.
    assert (Hab : (a - b == 0)%Q).
    { apply (binary64_zero_on_grid (- (a - b))) in Hz; [lra |].
      apply (on_grid_compat (b - a)); [ring | now apply on_grid_minus]. }
    rewrite (binary64_compat (a - b) 0) by assumption.
    split; discriminate.
Qed.

Lemma cands_exact idx v t :
  distinct_keys idx -> grid_keys idx -> In (v, t) idx ->
  FilterRack.cands idx v 0 = [(dist v v, t)].
Proof.
  induction idx as [| [v0 t0] idx IH]; simpl; [contradiction |].
  intros [Hhd Htl] Hg Hin.
  assert (Hgv : on_grid v) by (now apply (Hg v t)).
  assert (Hg0 : on_grid v0) by (apply (Hg v0 t0); now left).
  assert (Hgt : grid_keys idx) by (intros v' t' Hin'; apply (Hg v' t'); now right).
  destruct (Qle_bool (dist v v0) 0) eqn:Hle.
  - apply Qle_bool_iff, (dist_zero v v0 Hgv Hg0) in Hle.
    destruct Hin as [[= -> ->] | Hin].
    + f_equal. apply cands_nil. intros v' t' Hin' Hd.
      apply (dist_zero v v' Hgv (Hgt v' t' Hin')) in Hd. now apply (Hhd v' t').
    + exfalso. apply (Hhd v t Hin). now symmetry.
  - destruct Hin as [[= -> ->] | Hin]; [| auto].
    assert (Hc : Qle_bool (dist v v) 0 = true)
      by (apply Qle_bool_iff, (dist_zero v v Hgv Hgv), Qeq_refl).
    congruence.
Qed.

(** The distance is the rounded one.  The floats of 0.15 and 0.4 are
    0.25 apart as Python subtracts them, though their difference is above
    0.25, so at the tolerance 0.25 the entry is a candidate; and the floats
    of 0.9 and 0.1 are equally far from 0.5 as Python subtracts them,
    though they are not. *)
Lemma distance_is_rounded :
  exists a b c d,
    float_str "0.15" = Some a /\ float_str "0.4" = Some b /\
    float_str "0.9" = Some c /\ float_str "0.1" = Some d /\
    dist a b = (1 # 4)%Q /\ ~ (Qabs (a - b) <= 1 # 4)%Q /\
    FilterRack.cands [(b, ("B", 1, "ND 0.4"))] a (1 # 4)
    = [((1 # 4)%Q, ("B", 1, "ND 0.4"))] /\
    dist (1 # 2) c = dist (1 # 2) d /\
    ~ (Qabs ((1 # 2) - c) == Qabs ((1 # 2) - d))%Q.
Proof.
  do 4 eexists.
  split; [vm_compute; reflexivity |].
  split; [vm_compute; reflexivity |].
  split; [vm_compute; reflexivity |].
  split; [vm_compute; reflexivity |].
  split; [vm_compute; reflexivity |].
  split; [intros H; apply H; vm_compute; reflexivity |].
  split; [vm_compute; reflexivity |].
  split; [vm_compute; reflexivity |].
  intros H. vm_compute in H. discriminate.
Qed.

(** ** Nearest match *)

Section Nearest.
Variable lt : Q * FilterRack.triple -> Q * FilterRack.triple -> bool.
Hypothesis lt_irrefl : forall a, lt a a = false.
Hypothesis lt_trans :
  forall a b c, lt a b = true -> lt b c = true -> lt a c = true.
Hypothesis lt_dist : forall a b, lt a b = false -> (fst b <= fst a)%Q.

Lemma py_min_none idx target tol :
  py_min lt (FilterRack.cands idx target tol) = None <->
  forall v t, In (v, t) idx -> ~ (dist target v <= tol)%Q.
Proof.
  rewrite <- cands_nil. unfold py_min.
  destruct (FilterRack.cands idx target tol); split; congruence.
Qed.

Lemma py_min_nearest idx target tol c :
  py_min lt (FilterRack.cands idx target tol) = Some c ->
  In c (FilterRack.cands idx target tol) /\
  (forall x, In x (FilterRack.cands idx target tol) -> lt x c = false) /\
  exists v,
    In (v, snd c) idx /\ fst c = dist target v /\ (dist target v <= tol)%Q /\
    forall v' t', In (v', t') idx -> (dist target v' <= tol)%Q ->
                  (dist target v <= dist target v')%Q.
Proof.
  unfold py_min.
  destruct (FilterRack.cands idx target tol) as [| x xs] eqn:Hc; [discriminate |].
  intros [= <-].
  pose proof (min_from_In lt x xs) as Hin.
  pose proof (min_from_least lt lt_irrefl lt_trans x xs) as Hleast.
  set (r := min_from lt x xs) in *.
  split; [assumption |]. split; [assumption |].
  rewrite <- Hc in Hin. destruct r as [d t] eqn:Hr.
  apply cands_In in Hin as (v & Hv & Hd & Hw).
  exists v. simpl. repeat split; try assumption.
  intros v' t' Hin' Hw'.
  assert (Hx : In (dist target v', t') (x :: xs))
    by (rewrite <- Hc; apply cands_In; exists v'; auto).
  apply Hleast, lt_dist in Hx. simpl in Hx. now rewrite <- Hd.
Qed.

End Nearest.

Lemma cand_lt_dist a b :
  FilterRack.cand_lt a b = false -> (fst b <= fst a)%Q.
Proof.
  intros Hf. apply Qnot_lt_le. intros Hlt.
  assert (Ht : FilterRack.cand_lt a b = true) by (apply cand_lt_iff; auto).
  congruence.
Qed.

Lemma key_lt_dist a b :
  FilterRack.key_lt a b = false -> (fst b <= fst a)%Q.
Proof. apply Qlt_bool_false_iff. Qed.

(** C5.  The distance of an entry is [abs(target - v)] as Python computes
    it on floats ([dist]).  Both selections take as candidates exactly the
    index entries whose distance to the target is at most the tolerance,
    find nothing exactly when there is no such entry, and otherwise return
    an entry within tolerance whose distance no entry within tolerance
    undercuts.
    On a rack the constructor built, a wavelength of the index, asked for
    with tolerance 0, resolves to the very entry stored under it, and
    [select_bandpass] goes on to the moves with that entry's wheel and
    slot as the target. *)
Theorem nearest_match_within_tolerance :
  forall (S : Type) (hw : Hardware S) (pf : PyFloat) (self : FilterRack.t)
         (target tol : Q),
    (forall idx d t,
        In (d, t) (FilterRack.cands idx target tol) <->
        exists v, In (v, t) idx /\ d = dist target v /\
                  (dist target v <= tol)%Q) /\
    (FilterRack._nearest_bp self target tol = None <->
     forall v t, In (v, t) (FilterRack._wl_index self) ->
                 ~ (dist target v <= tol)%Q) /\
    (forall t,
        FilterRack._nearest_bp self target tol = Some t ->
        exists v,
          In (v, t) (FilterRack._wl_index self) /\ (dist target v <= tol)%Q /\
          forall v' t', In (v', t') (FilterRack._wl_index self) ->
                        (dist target v' <= tol)%Q ->
                        (dist target v <= dist target v')%Q) /\
    (FilterRack.nearest_nd self target tol = None <->
     forall v t, In (v, t) (FilterRack._nd_index self) ->
                 ~ (dist target v <= tol)%Q) /\
    (forall t,
        FilterRack.nearest_nd self target tol = Some t ->
        exists v,
          In (v, t) (FilterRack._nd_index self) /\ (dist target v <= tol)%Q /\
          forall v' t', In (v', t') (FilterRack._nd_index self) ->
                        (dist target v' <= tol)%Q ->
                        (dist target v <= dist target v')%Q) /\
    (forall ws mt (w w' : World S),
        FilterRack.init ws mt w = (Ok self, w') ->
        forall wl t,
          In (wl, t) (FilterRack._wl_index self) ->
          FilterRack._nearest_bp self wl 0 = Some t /\
          forall block (w0 : World S),
            FilterRack.select_bandpass self wl 0 block w0
            = (let '(empty, w1) :=
                 FilterRack.find_empty (FilterRack.wheels self) [] w0 in
               FilterRack.move_pass (fst (fst t)) (snd (fst t)) empty block
                 (FilterRack.wheels self) w1)).
Proof.
  intros S hw pf self target tol.
  split; [intros idx d t; apply cands_In |].
  split.
  { unfold FilterRack._nearest_bp.
    rewrite <- (py_min_none FilterRack.cand_lt).
    destruct (py_min FilterRack.cand_lt _); split; congruence. }
  split.
  { intros t. unfold FilterRack._nearest_bp.
    destruct (py_min FilterRack.cand_lt _) as [c |] eqn:Hm; [| discriminate].
    intros [= <-].
    destruct (py_min_nearest _ cand_lt_irrefl cand_lt_trans cand_lt_dist
                _ _ _ _ Hm) as (_ & _ & v & Hin & _ & Hw & Hmin).
    exists v. auto. }
  split.
  { unfold FilterRack.nearest_nd.
    rewrite <- (py_min_none FilterRack.key_lt).
    destruct (py_min FilterRack.key_lt _); split; congruence. }
  split.
  { intros t. unfold FilterRack.nearest_nd.
    destruct (py_min FilterRack.key_lt _) as [c |] eqn:Hm; [| discriminate].
    intros [= <-].
    destruct (py_min_nearest _ key_lt_irrefl key_lt_trans key_lt_dist
                _ _ _ _ Hm) as (_ & _ & v & Hin & _ & Hw & Hmin).
    exists v. auto. }
  intros ws mt w w' Hinit wl t Hin.
  destruct (init_distinct _ _ _ _ _ Hinit) as [Hd _].
  destruct (init_grid _ _ _ _ _ Hinit) as [Hg _].
  assert (Hbp : FilterRack._nearest_bp self wl 0 = Some t).
  { unfold FilterRack._nearest_bp.
    now rewrite (cands_exact _ _ _ Hd Hg Hin). }
  split; [assumption |].
  intros block w0. unfold FilterRack.select_bandpass. rewrite Hbp.
  destruct t as [[k s] n]. reflexivity.
Qed.

Lemma nearest_match_within_tolerance_witness :
  FilterRack._nearest_bp Rig.rack1 450 0 = Some ("A", 1, "450nm").
Proof.
  assert (Hinit : FilterRack.init [("A", Rig.wheelA); ("B", Rig.wheelB)]
                    Rig.meta1 (Sim.world Rig.rig1)
                  = (Ok Rig.rack1,
                     snd (FilterRack.init [("A", Rig.wheelA); ("B", Rig.wheelB)]
                            Rig.meta1 (Sim.world Rig.rig1))))
    by reflexivity.
  destruct (nearest_match_within_tolerance Sim.state Sim.hw Decimal.float
              Rig.rack1 450%Q 0%Q) as (_ & _ & _ & _ & _ & Hexact).
  destruct (Hexact _ _ _ _ Hinit 450%Q ("A", 1, "450nm")) as [Hbp _].
  - simpl. now left.
  - exact Hbp.
Defined.

(** ** Ties *)

(** C4, amended.  The distance of an entry is [abs(target - v)] as Python
    computes it on floats ([dist]).  In [select_nd] the entry chosen is
    the first, in the order of the index, of the entries within tolerance
    at the least distance: every entry within tolerance before it is strictly farther
    from the target, none after it is nearer.  In [select_bandpass] no
    entry within tolerance is nearer than the one chosen, and none at the
    same distance has a (wheel-key, slot, name) triple below the chosen
    one in the order of Python tuples. *)
Theorem ties_in_nearest_match :
  forall (self : FilterRack.t) (target tol : Q),
    (forall t,
        FilterRack.nearest_nd self target tol = Some t ->
        exists pre v post,
          FilterRack._nd_index self = pre ++ (v, t) :: post /\
          (dist target v <= tol)%Q /\
          (forall v' t', In (v', t') pre -> (dist target v' <= tol)%Q ->
                         (dist target v < dist target v')%Q) /\
          (forall v' t', In (v', t') post -> (dist target v' <= tol)%Q ->
                         (dist target v <= dist target v')%Q)) /\
    (forall t,
        FilterRack._nearest_bp self target tol = Some t ->
        exists v,
          In (v, t) (FilterRack._wl_index self) /\
          (dist target v <= tol)%Q /\
          forall v' t', In (v', t') (FilterRack._wl_index self) ->
                        (dist target v' <= tol)%Q ->
                        (dist target v <= dist target v')%Q /\
                        ((dist target v' == dist target v)%Q ->
                         FilterRack.triple_lt t' t = false)).
Proof.
  intros self target tol. split.
  - intros t. unfold FilterRack.nearest_nd, py_min.
    destruct (FilterRack.cands (FilterRack._nd_index self) target tol)
      as [| x xs] eqn:Hc; [discriminate |].
    intros [= <-].
    destruct (min_from_first FilterRack.key_lt key_lt_trans key_lt_neg x xs)
      as (pre & post & Hsplit & Hpre & Hpost).
    set (r := min_from FilterRack.key_lt x xs) in *.
    rewrite <- Hc in Hsplit.
    destruct (cands_split _ _ _ _ _ _ Hsplit)
      as (ipre & v & ipost & Hidx & Hd & Hw & Hp & Hq).
    exists ipre, v, ipost. repeat split; try assumption.
    + intros v' t' Hin Hw'.
      assert (Hx : In (dist target v', t') pre)
        by (rewrite <- Hp; apply cands_In; exists v'; auto).
      apply Hpre in Hx. unfold FilterRack.key_lt in Hx.
      apply Qlt_bool_iff in Hx. simpl in Hx. now rewrite <- Hd.
    + intros v' t' Hin Hw'.
      assert (Hx : In (dist target v', t') post)
        by (rewrite <- Hq; apply cands_In; exists v'; auto).
      apply Hpost, key_lt_dist in Hx. simpl in Hx. now rewrite <- Hd.
  - intros t. unfold FilterRack._nearest_bp.
    destruct (py_min FilterRack.cand_lt _) as [c |] eqn:Hm; [| discriminate].
    intros [= <-].
    destruct (py_min_nearest _ cand_lt_irrefl cand_lt_trans cand_lt_dist
                _ _ _ _ Hm) as (_ & Hleast & v & Hin & Hd & Hw & Hmin).
    exists v. repeat split; try assumption.
    + now apply Hmin with (t' := t').
    + intros Heq.
      assert (Hx : In (dist target v', t')
                      (FilterRack.cands (FilterRack._wl_index self) target tol))
        by (apply cands_In; exists v'; auto).
      apply Hleast in Hx.
      destruct (FilterRack.triple_lt t' (snd c)) eqn:Ht; [| reflexivity].
      assert (Hc : FilterRack.cand_lt (dist target v', t') c = true).
      { apply cand_lt_iff. right. simpl. split; [| assumption].
        now rewrite Hd. }
      congruence.
Qed.

Lemma ties_in_nearest_match_witness :
  exists v,
    In (v, ("A", 1, "502nm")) (FilterRack._wl_index Rig.rack2) /\
    (dist 500 v <= 2)%Q.
Proof.
  destruct (ties_in_nearest_match Rig.rack2 500%Q 2%Q) as [_ Hbp].
  destruct (Hbp ("A", 1, "502nm") eq_refl) as (v & Hin & Hw & _).
  exists v. split; assumption.
Defined.

(** C4 as stated fails for [select_bandpass].  The rack has 498 nm on
    wheel "B" and 502 nm on wheel "A", indexed in that order; both are
    2 nm from 500 nm and within the tolerance; the entry chosen is the
    second one, that of wheel "A". *)
Lemma bandpass_tie_not_first :
  fst (FilterRack.init Rig.wheels2 Rig.meta2 (Sim.world Rig.rig1))
  = Ok Rig.rack2 /\
  FilterRack._wl_index Rig.rack2
  = [(498%Q, ("B", 1, "498nm")); (502%Q, ("A", 1, "502nm"))] /\
  FilterRack.cands (FilterRack._wl_index Rig.rack2) 500 2
  = [(2%Q, ("B", 1, "498nm")); (2%Q, ("A", 1, "502nm"))] /\
  FilterRack._nearest_bp Rig.rack2 500 2 = Some ("A", 1, "502nm").
Proof. repeat split; reflexivity. Qed.

(** A tie that only the rounding makes.  The optical densities 0.9 and
    0.1, indexed in that order, are equally far from 0.5 as Python
    subtracts them: [select_nd] takes the first, [_nearest_bp] on the same
    entries the one with the lesser triple. *)
Lemma rounded_tie :
  exists c d,
    float_str "0.9" = Some c /\ float_str "0.1" = Some d /\
    let idx := [(c, ("N", 1, "ND 0.9")); (d, ("M", 2, "ND 0.1"))] in
    FilterRack.nearest_nd (FilterRack.mk [] [] [] [] [] idx) (1 # 2) (1 # 2)
    = Some ("N", 1, "ND 0.9") /\
    FilterRack._nearest_bp (FilterRack.mk [] [] [] [] idx []) (1 # 2) (1 # 2)
    = Some ("M", 2, "ND 0.1").
Proof.
  do 2 eexists.
  split; [vm_compute; reflexivity |].
  split; [vm_compute; reflexivity |].
  split; vm_compute; reflexivity.
Qed.

(** ** The clearing pass of [select_bandpass] *)

Section Pass.
Context {S : Type} {hw : Hardware S}.

Lemma move_pass_app tk ts empty block pre post (w : World S) :
  FilterRack.move_pass tk ts empty block (pre ++ post) w
  = match FilterRack.move_pass tk ts empty block pre w with
    | (Ok _, w1) => FilterRack.move_pass tk ts empty block post w1
    | (Raise e, w1) => (Raise e, w1)
    end.
Proof.
  revert w. induction pre as [| [k wheel] pre IH]; intros w; simpl.
  - reflexivity.
  - destruct (FilterWheel.is_connected wheel w) as [c w1].
    destruct (negb c || String.eqb (FilterWheel.type wheel) FilterRack.ND);
      [apply IH |].
    destruct (FilterRack.slot_for tk ts empty k) as [s | e]; [| reflexivity].
    destruct (FilterWheel.move_to wheel s block None w1) as [[[] | e] w2];
      [apply IH |].
    destruct e; try reflexivity. apply IH.
Qed.

(** No device error leaves the pass. *)
Lemma move_pass_no_device_error tk ts empty block ws (w : World S) cause :
  fst (FilterRack.move_pass tk ts empty block ws w)
  <> Raise (ThorlabsError cause).
Proof.
  revert w. induction ws as [| [k wheel] ws IH]; intros w; simpl.
  - discriminate.
  - destruct (FilterWheel.is_connected wheel w) as [c w1].
    destruct (negb c || String.eqb (FilterWheel.type wheel) FilterRack.ND);
      [apply IH |].
    destruct (FilterRack.slot_for tk ts empty k) as [s | e] eqn:Hs.
    + destruct (FilterWheel.move_to wheel s block None w1) as [[[] | e] w2];
        [apply IH |].
      destruct e; simpl; try discriminate. apply IH.
    + unfold FilterRack.slot_for in Hs.
      destruct (String.eqb k tk); [discriminate |].
      destruct (dict_get String.eqb empty k); [discriminate |].
      injection Hs as <-. simpl. discriminate.
Qed.

End Pass.

(** C1, amended.  In the clearing pass of [select_bandpass], a device
    error (ThorlabsError) raised by the [move_to] of a wheel is caught and
    reported as a warning naming the wheel, and the call continues with
    the wheels after it exactly as it would after a successful move: what
    it returns is what the pass over the remaining wheels returns.  No
    device error ever leaves [select_bandpass]. *)
Theorem clearing_pass_survives_device_errors :
  forall (S : Type) (hw : Hardware S) (pf : PyFloat) (self : FilterRack.t)
         (wl_nm tol_nm : Q) (block : bool)
         (pre post : list (string * FilterWheel.t)) (k : string)
         (wheel : FilterWheel.t) (tgt_key name : string) (tgt_slot slot : Z)
         (empty : list (string * Z)) (cause : thorlabs_cause)
         (w w0 w1 w1' w2 : World S),
    FilterRack.wheels self = pre ++ (k, wheel) :: post ->
    FilterRack._nearest_bp self wl_nm tol_nm = Some (tgt_key, tgt_slot, name) ->
    FilterRack.find_empty (FilterRack.wheels self) [] w = (empty, w0) ->
    FilterRack.move_pass tgt_key tgt_slot empty block pre w0 = (Ok tt, w1) ->
    FilterWheel.is_connected wheel w1 = (true, w1') ->
    String.eqb (FilterWheel.type wheel) FilterRack.ND = false ->
    FilterRack.slot_for tgt_key tgt_slot empty k = Ok slot ->
    FilterWheel.move_to wheel slot block None w1'
    = (Raise (ThorlabsError cause), w2) ->
    FilterRack.select_bandpass self wl_nm tol_nm block w
    = FilterRack.move_pass tgt_key tgt_slot empty block post (warn k cause w2) /\
    warned (warn k cause w2) = warned w2 ++ [(k, cause)] /\
    forall (wl tol : Q) (b : bool) (wa : World S) (c : thorlabs_cause),
      fst (FilterRack.select_bandpass self wl tol b wa)
      <> Raise (ThorlabsError c).
Proof.
  intros S hw pf self wl_nm tol_nm block pre post k wheel tgt_key name
         tgt_slot slot empty cause w w0 w1 w1' w2
         Hws Hbp Hempty Hpre Hconn Hty Hslot Hmove.
  split; [| split; [reflexivity |]].
  - unfold FilterRack.select_bandpass. rewrite Hbp, Hempty, Hws.
    rewrite move_pass_app, Hpre. simpl.
    now rewrite Hconn, Hty, Hslot, Hmove.
  - intros wl tol b wa c. unfold FilterRack.select_bandpass.
    destruct (FilterRack._nearest_bp self wl tol) as [[[tk ts] n] |];
      [| simpl; discriminate].
    destruct (FilterRack.find_empty (FilterRack.wheels self) [] wa) as [e wb].
    apply move_pass_no_device_error.
Qed.

(** Wheel B refuses the position command; the warning is issued, wheel A
    is moved to the selected filter and the call returns. *)
Lemma clearing_pass_survives_device_errors_witness :
  let r := FilterRack.select_bandpass Rig.rack2 502 0 true
             (Sim.world Rig.rig_refusing) in
  fst r = Ok tt /\
  warned (snd r) = [("B", SetPositionFailed 2 (-1))] /\
  moves (snd r) = [CmdSetPosition 2 2; CmdSetPosition 1 1] /\
  Sim.positions (dll (snd r)) = [(1, 1); (2, 2)].
Proof.
  pose (w0 := snd (FilterRack.find_empty (FilterRack.wheels Rig.rack2) []
                     (Sim.world Rig.rig_refusing))).
  pose (w1' := snd (FilterWheel.is_connected Rig.wheelB498 w0)).
  pose (w2 := snd (FilterWheel.move_to Rig.wheelB498 2 true None w1')).
  assert (Hempty : FilterRack.find_empty (FilterRack.wheels Rig.rack2) []
                     (Sim.world Rig.rig_refusing)
                   = ([("B", 2); ("A", 2)], w0)) by reflexivity.
  assert (Hpre : FilterRack.move_pass "A" 1 [("B", 2); ("A", 2)] true [] w0
                 = (Ok tt, w0)) by reflexivity.
  assert (Hconn : FilterWheel.is_connected Rig.wheelB498 w0 = (true, w1'))
    by reflexivity.
  assert (Hmove : FilterWheel.move_to Rig.wheelB498 2 true None w1'
                  = (Raise (ThorlabsError (SetPositionFailed 2 (-1))), w2))
    by reflexivity.
  destruct (clearing_pass_survives_device_errors
              Sim.state Sim.hw Decimal.float Rig.rack2 502%Q 0%Q true
              [] [("A", Rig.wheelA502)] "B" Rig.wheelB498 "A" "502nm" 1 2
              [("B", 2); ("A", 2)] (SetPositionFailed 2 (-1))
              (Sim.world Rig.rig_refusing) w0 w0 w1' w2
              eq_refl eq_refl Hempty Hpre Hconn eq_refl eq_refl Hmove)
    as (Hrun & _ & _).
  cbv zeta. rewrite Hrun. repeat split; reflexivity.
Defined.

(** C1 as stated fails.  Wheel B is the target and is stuck: its blocking
    [move_to] raises TimeoutError, which the pass does not catch.  The
    call raises, and wheel A, connected and band-pass, is never sent a
    position command. *)
Lemma clearing_pass_aborts_on_timeout :
  let r := FilterRack.select_bandpass Rig.rack2 498 0 true
             (Sim.world Rig.rig_stuck) in
  fst (FilterWheel.move_to Rig.wheelB498 1 true None (Sim.world Rig.rig_stuck))
  = Raise TimeoutError /\
  fst r = Raise TimeoutError /\
  warned (snd r) = [] /\
  moves (snd r) = [CmdSetPosition 2 1] /\
  fst (FilterWheel.is_connected Rig.wheelA502 (snd r)) = true /\
  String.eqb (FilterWheel.type Rig.wheelA502) FilterRack.ND = false.
Proof. vm_compute. repeat split; reflexivity. Qed.

(** ** The simulated rig *)

Section SimFacts.









Section SimWheel.
Variable self : FilterWheel.t.

Let world : Type := World Sim.state.










End SimWheel.

Let world : Type := World Sim.state.





End SimFacts.



(** * Further properties *)

(** ** What a wheel sends to its device *)

Section WheelCalls.
Context {S : Type} {hw : Hardware S}.

Lemma probed_refl h (w : World S) : probed h w w.
Proof. split; [reflexivity | exists []; split; [reflexivity | constructor]]. Qed.

Lemma probed_trans h (w1 w2 w3 : World S) :
  probed h w1 w2 -> probed h w2 w3 -> probed h w1 w3.
Proof.
  intros [Hw12 (d1 & Ht1 & Hd1)] [Hw23 (d2 & Ht2 & Hd2)]. split.
  - congruence.
  - exists (d2 ++ d1). split.
    + now rewrite Ht2, Ht1, app_assoc.
    + apply Forall_app. now split.
Qed.

Lemma get_position_raw_probed h (w : World S) :
  probed h w (snd (FilterWheel.get_position_raw h w)).
Proof.
  unfold FilterWheel.get_position_raw, call_get.
  destruct (FWxCGetPosition h (dll w)) as [[rc pos] s].
  destruct (rc <? 0); (split; [reflexivity |]);
    exists [CmdGetPosition h]; split; try reflexivity; repeat constructor.
Qed.

Lemma is_connected_probed self h (w : World S) :
  FilterWheel._hdl self = Some h ->
  probed h w (snd (FilterWheel.is_connected self w)).
Proof.
  intros Hh. unfold FilterWheel.is_connected, FilterWheel._handle_alive.
  rewrite Hh. pose proof (get_position_raw_probed h w) as Hp.
  destruct (FilterWheel.get_position_raw h w) as [[p | e] w1]; exact Hp.
Qed.

Lemma is_connected_no_handle self (w : World S) :
  FilterWheel._hdl self = None ->
  FilterWheel.is_connected self w = (false, w).
Proof.
  intros Hh. unfold FilterWheel.is_connected, FilterWheel._handle_alive.
  now rewrite Hh.
Qed.

Lemma get_position_probed self h (w : World S) :
  FilterWheel._hdl self = Some h ->
  probed h w (snd (FilterWheel.get_position self w)).
Proof.
  intros Hh. unfold FilterWheel.get_position.
  pose proof (is_connected_probed self h w Hh) as Hc.
  destruct (FilterWheel.is_connected self w) as [c w1]. simpl in Hc.
  destruct (negb c); [exact Hc |]. rewrite Hh.
  apply probed_trans with (w2 := w1); [exact Hc |].
  apply get_position_raw_probed.
Qed.

(** [get_position] raises nothing but a device error. *)
Lemma get_position_raises self (w : World S) e :
  fst (FilterWheel.get_position self w) = Raise e ->
  exists cause, e = ThorlabsError cause.
Proof.
  unfold FilterWheel.get_position.
  destruct (FilterWheel.is_connected self w) as [c w1].
  destruct (negb c); [intros [= <-]; eauto |].
  destruct (FilterWheel._hdl self) as [h |]; [| intros [= <-]; eauto].
  unfold FilterWheel.get_position_raw.
  destruct (call_get h w1) as [[rc pos] w2].
  destruct (rc <? 0); [intros [= <-]; eauto | discriminate].
Qed.

Lemma wait_for_slot_probed n self h slot (w : World S) :
  FilterWheel._hdl self = Some h ->
  probed h w (snd (FilterWheel.wait_for_slot n self slot w)).
Proof.
  intros Hh. revert w. induction n as [| n IH]; intros w; simpl.
  - apply probed_refl.
  - pose proof (get_position_probed self h w Hh) as Hg.
    destruct (FilterWheel.get_position self w) as [[p | e] w1]; simpl in Hg;
      [| exact Hg].
    destruct (p =? slot); [exact Hg |].
    apply probed_trans with (w2 := w1); [exact Hg |].
    specialize (IH (sleep (FilterWheel.poll_s self) w1)).
    destruct IH as [Hw (d & Ht & Hd)]. split; [exact Hw |].
    exists d. now split.
Qed.

Lemma wait_for_slot_raises n self slot (w : World S) :
  device_or_timeout (fst (FilterWheel.wait_for_slot n self slot w)).
Proof.
  revert w. induction n as [| n IH]; intros w; simpl; [exact I |].
  pose proof (get_position_raises self w) as Hr.
  destruct (FilterWheel.get_position self w) as [[p | e] w1]; simpl in *.
  - destruct (p =? slot); [exact I | apply IH].
  - destruct (Hr e eq_refl) as [cause ->]. exact I.
Qed.

(** A wait that returns has just read the slot from the device. *)
Lemma wait_for_slot_observed n self slot (w : World S) :
  fst (FilterWheel.wait_for_slot n self slot w) = Ok tt ->
  exists h w0 rc,
    FilterWheel._hdl self = Some h /\ 0 <= rc /\
    call_get h w0 = (rc, slot, snd (FilterWheel.wait_for_slot n self slot w)).
Proof.
  revert w. induction n as [| n IH]; intros w; simpl; [discriminate |].
  unfold FilterWheel.get_position.
  destruct (FilterWheel.is_connected self w) as [c w1].
  destruct (negb c); [discriminate |].
  destruct (FilterWheel._hdl self) as [h |] eqn:Hh; [| discriminate].
  unfold FilterWheel.get_position_raw.
  destruct (call_get h w1) as [[rc pos] w2] eqn:Hget.
  destruct (rc <? 0) eqn:Hneg; [discriminate |]. simpl.
  destruct (pos =? slot) eqn:Hpos.
  - intros _. apply Z.eqb_eq in Hpos. subst pos.
    exists h, w1, rc. repeat split; [lia | exact Hget].
  - intros Hok. destruct (IH _ Hok) as (h' & w0 & rc' & Hh' & Hrc & Hcall).
    exists h', w0, rc'. auto.
Qed.

End WheelCalls.

Lemma set_position_raw_world {S : Type} {hw : Hardware S} h slot (w : World S) :
  trace (snd (FilterWheel.set_position_raw h slot w))
  = CmdSetPosition h slot :: trace w /\
  warned (snd (FilterWheel.set_position_raw h slot w)) = warned w.
Proof.
  unfold FilterWheel.set_position_raw, call_set.
  destruct (FWxCSetPosition h slot (dll w)) as [rc s].
  destruct (rc <? 0); split; reflexivity.
Qed.

(** X1.  Whatever the hardware does, [move_to] never warns, does nothing
    at all on a wheel without a handle, and on a wheel with the handle [h]
    calls the DLL only to read the position of [h] and, at most once, to
    set [h] to the requested slot; when it returns normally it has sent
    that one position command. *)
Theorem move_to_commands :
  forall (S : Type) (hw : Hardware S) (self : FilterWheel.t) (slot : Z)
         (block : bool) (timeout : option Q) (w : World S),
    let r := FilterWheel.move_to self slot block timeout w in
    warned (snd r) = warned w /\
    match FilterWheel._hdl self with
    | None => snd r = w
    | Some h =>
        exists before sets after,
          trace (snd r) = after ++ sets ++ before ++ trace w /\
          Forall (eq (CmdGetPosition h)) before /\
          Forall (eq (CmdGetPosition h)) after /\
          (sets = [] \/ sets = [CmdSetPosition h slot]) /\
          (fst r = Ok tt -> sets = [CmdSetPosition h slot])
    end.
Proof.
  intros S hw self slot block timeout w. cbv zeta.
  unfold FilterWheel.move_to.
  destruct ((slot <? 0) || (slot >? FilterWheel.slots self)).
  { split; [reflexivity |].
    destruct (FilterWheel._hdl self) as [h |]; [| reflexivity].
    exists [], [], []. simpl. repeat split; auto; discriminate. }
  destruct (FilterWheel._hdl self) as [h |] eqn:Hh.
  2: { rewrite (is_connected_no_handle self w Hh). simpl. now split. }
  destruct (is_connected_probed self h w Hh) as [Hw1 (d1 & Ht1 & Hd1)].
  destruct (FilterWheel.is_connected self w) as [c w1]. simpl in Hw1, Ht1.
  destruct (negb c).
  { simpl. split; [exact Hw1 |].
    exists d1, [], []. simpl. repeat split; auto; discriminate. }
  destruct (set_position_raw_world h slot w1) as [Ht2 Hw2].
  destruct (FilterWheel.set_position_raw h slot w1) as [[[] | e] w2];
    simpl in Ht2, Hw2.
  2: { simpl. split; [congruence |].
       exists d1, [CmdSetPosition h slot], []. simpl.
       rewrite Ht2, Ht1. repeat split; auto. }
  destruct (negb block).
  { simpl. split; [congruence |].
    exists d1, [CmdSetPosition h slot], []. simpl.
    rewrite Ht2, Ht1. repeat split; auto. }
  set (n := polls_until_deadline _ _ _).
  destruct (wait_for_slot_probed n self h slot w2 Hh) as [Hw3 (d3 & Ht3 & Hd3)].
  split; [congruence |].
  exists d1, [CmdSetPosition h slot], d3.
  rewrite Ht3, Ht2, Ht1. repeat split; auto.
Qed.

(** X2.  [move_to] raises ValueError exactly when the slot is outside
    [0, slots]; otherwise it returns or raises a device error or, only
    when blocking, TimeoutError.  It never raises KeyError or
    IndexError. *)
Theorem move_to_raises :
  forall (S : Type) (hw : Hardware S) (self : FilterWheel.t) (slot : Z)
         (block : bool) (timeout : option Q) (w : World S),
    let r := fst (FilterWheel.move_to self slot block timeout w) in
    (r = Raise ValueError <-> slot < 0 \/ FilterWheel.slots self < slot) /\
    (r <> Raise ValueError -> device_or_timeout r) /\
    (r = Raise TimeoutError -> block = true).
Proof.
  intros S hw self slot block timeout w. cbv zeta.
  unfold FilterWheel.move_to.
  destruct ((slot <? 0) || (slot >? FilterWheel.slots self)) eqn:Hrange.
  { simpl. apply orb_true_iff in Hrange. rewrite Z.ltb_lt, Z.gtb_ltb, Z.ltb_lt in Hrange.
    repeat split; auto; try discriminate; try (intros Hc; now destruct Hc). }
  apply orb_false_iff in Hrange.
  rewrite Z.ltb_ge, Z.gtb_ltb, Z.ltb_ge in Hrange.
  assert (Hin : ~ (slot < 0 \/ FilterWheel.slots self < slot)) by lia.
  destruct (FilterWheel.is_connected self w) as [c w1].
  destruct (negb c).
  { simpl. repeat split; try discriminate; tauto. }
  destruct (FilterWheel._hdl self) as [h |].
  2: { simpl. repeat split; try discriminate; tauto. }
  unfold FilterWheel.set_position_raw.
  destruct (call_set h slot w1) as [rc w2].
  destruct (rc <? 0).
  { simpl. repeat split; try discriminate; tauto. }
  destruct block; simpl.
  2: { repeat split; try discriminate; tauto. }
  set (n := polls_until_deadline _ _ _).
  pose proof (wait_for_slot_raises n self slot w2) as Hr.
  repeat split; auto; try tauto.
  intros Hv. rewrite Hv in Hr. destruct Hr.
Qed.

(** X3.  A blocking [move_to] returns only after the device has reported
    the requested slot: the world it returns is the world right after a
    successful position read on the wheel's handle that gave that slot. *)
Theorem blocking_move_observed_slot :
  forall (S : Type) (hw : Hardware S) (self : FilterWheel.t) (slot : Z)
         (timeout : option Q) (w : World S),
    fst (FilterWheel.move_to self slot true timeout w) = Ok tt ->
    exists h w0 rc,
      FilterWheel._hdl self = Some h /\ 0 <= rc /\
      call_get h w0
      = (rc, slot, snd (FilterWheel.move_to self slot true timeout w)).
Proof.
  intros S hw self slot timeout w. unfold FilterWheel.move_to.
  destruct ((slot <? 0) || (slot >? FilterWheel.slots self));
    [discriminate |].
  destruct (FilterWheel.is_connected self w) as [c w1].
  destruct (negb c); [discriminate |].
  destruct (FilterWheel._hdl self) as [h |] eqn:Hh; [| discriminate].
  destruct (FilterWheel.set_position_raw h slot w1) as [[[] | e] w2];
    [| discriminate].
  simpl. intros Hok.
  destruct (wait_for_slot_observed _ _ _ _ Hok) as (h' & w0 & rc & Hh' & Hrc & Hc).
  exists h', w0, rc. rewrite Hh in Hh'. auto.
Qed.

Lemma blocking_move_observed_slot_witness :
  fst (FilterWheel.move_to Rig.wheelA 1 true None (Sim.world Rig.rig1))
  = Ok tt /\
  exists h w0 rc,
    FilterWheel._hdl Rig.wheelA = Some h /\ 0 <= rc /\
    call_get h w0
    = (rc, 1, snd (FilterWheel.move_to Rig.wheelA 1 true None
                     (Sim.world Rig.rig1))).
Proof.
  split; [reflexivity |].
  apply (blocking_move_observed_slot Sim.state Sim.hw Rig.wheelA 1 None
           (Sim.world Rig.rig1)).
  reflexivity.
Defined.

(** ** Disconnecting *)

(** X4.  [disconnect] on a wheel whose handle is not 0 closes the handle
    with one DLL call (none if there was no handle) and clears it; after
    that [is_connected] is false and a second [disconnect] changes
    nothing, both without a DLL call, and [move_to] of a slot in range
    raises the not-connected error.  A wheel whose handle is 0 is left as
    it is: no close is issued and the handle stays. *)
Theorem disconnect_outcome :
  forall (S : Type) (hw : Hardware S) (self : FilterWheel.t) (w : World S),
    let r := FilterWheel.disconnect self w in
    (FilterWheel._hdl self = Some 0 -> r = (self, w)) /\
    (FilterWheel._hdl self <> Some 0 ->
     FilterWheel._hdl (fst r) = None /\
     trace (snd r)
     = match FilterWheel._hdl self with
       | Some h => CmdClose h :: trace w
       | None => trace w
       end /\
     FilterWheel.is_connected (fst r) (snd r) = (false, snd r) /\
     FilterWheel.disconnect (fst r) (snd r) = r /\
     forall slot block timeout,
       0 <= slot <= FilterWheel.slots self ->
       FilterWheel.move_to (fst r) slot block timeout (snd r)
       = (Raise (ThorlabsError NotConnected), snd r)).
Proof.
  intros S hw self w. cbv zeta. unfold FilterWheel.disconnect. split.
  - intros ->. reflexivity.
  - intros Hnz.
    assert (Hmove : forall (x : FilterWheel.t) (w' : World S) slot block timeout,
               FilterWheel._hdl x = None ->
               FilterWheel.slots x = FilterWheel.slots self ->
               0 <= slot <= FilterWheel.slots self ->
               FilterWheel.move_to x slot block timeout w'
               = (Raise (ThorlabsError NotConnected), w')).
    { intros x w' slot block timeout Hx Hs Hr. unfold FilterWheel.move_to.
      replace ((slot <? 0) || (slot >? FilterWheel.slots x)) with false
        by (symmetry; apply orb_false_iff;
            rewrite Z.ltb_ge, Z.gtb_ltb, Z.ltb_ge; lia).
      now rewrite (is_connected_no_handle x w' Hx). }
    destruct (FilterWheel._hdl self) as [h |] eqn:Hh.
    + destruct (Z.eqb_spec h 0) as [-> | Hne]; [congruence |].
      simpl. repeat split; try reflexivity.
      intros slot block timeout Hr. now apply Hmove.
    + simpl. repeat split; try assumption.
      * now apply is_connected_no_handle.
      * unfold FilterWheel.disconnect. now rewrite Hh.
      * intros slot block timeout Hr. now apply Hmove.
Qed.

Section RackClose.
Context {S : Type} {hw : Hardware S}.

Lemma disconnect_released wheel (w : World S) :
  released (fst (FilterWheel.disconnect wheel w)).
Proof.
  unfold FilterWheel.disconnect, released.
  destruct (FilterWheel._hdl wheel) as [h |] eqn:Hh; [| now left].
  destruct (Z.eqb_spec h 0) as [-> | Hne]; simpl; auto.
Qed.

Lemma disconnect_again wheel (w : World S) :
  released wheel -> FilterWheel.disconnect wheel w = (wheel, w).
Proof.
  unfold FilterWheel.disconnect. intros [-> | ->]; reflexivity.
Qed.

Lemma disconnect_all_released ws (w : World S) :
  Forall (fun kw => released (snd kw)) (fst (FilterRack.disconnect_all ws w)).
Proof.
  revert w. induction ws as [| [k wheel] ws IH]; intros w; simpl.
  - constructor.
  - pose proof (disconnect_released wheel w) as Hd.
    destruct (FilterWheel.disconnect wheel w) as [wheel' w1].
    specialize (IH w1).
    destruct (FilterRack.disconnect_all ws w1) as [ws' w2].
    constructor; assumption.
Qed.

Lemma disconnect_all_again ws (w : World S) :
  Forall (fun kw => released (snd kw)) ws ->
  FilterRack.disconnect_all ws w = (ws, w).
Proof.
  revert w. induction ws as [| [k wheel] ws IH]; intros w Hall; simpl.
  - reflexivity.
  - inversion Hall as [| ? ? Hhd Htl]; subst. simpl in Hhd.
    now rewrite (disconnect_again wheel w Hhd), (IH w Htl).
Qed.

Lemma disconnect_all_world ws (w : World S) :
  trace (snd (FilterRack.disconnect_all ws w)) = rev (closing ws) ++ trace w /\
  warned (snd (FilterRack.disconnect_all ws w)) = warned w.
Proof.
  revert w. induction ws as [| [k wheel] ws IH]; intros w; simpl.
  - now split.
  - unfold FilterWheel.disconnect.
    destruct (FilterWheel._hdl wheel) as [h |].
    + destruct (h =? 0).
      * specialize (IH w).
        destruct (FilterRack.disconnect_all ws w) as [ws' w2]. exact IH.
      * specialize (IH (FilterWheel.close_device h w)).
        destruct (FilterRack.disconnect_all ws (FilterWheel.close_device h w))
          as [ws' w2].
        simpl in *. destruct IH as [Ht Hw]. split; [| exact Hw].
        now rewrite Ht, <- app_assoc.
    + specialize (IH w).
      destruct (FilterRack.disconnect_all ws w) as [ws' w2]. exact IH.
Qed.

End RackClose.

(** X5.  [close()] issues one close call for every wheel whose handle is
    neither absent nor 0, in the order of the wheels, and nothing else;
    afterwards no wheel holds a handle other than 0, and a second
    [close()] changes nothing and calls nothing. *)
Theorem rack_close_outcome :
  forall (S : Type) (hw : Hardware S) (self : FilterRack.t) (w : World S),
    let r := FilterRack.close self w in
    trace (snd r) = rev (closing (FilterRack.wheels self)) ++ trace w /\
    warned (snd r) = warned w /\
    Forall (fun kw => released (snd kw)) (FilterRack.wheels (fst r)) /\
    FilterRack.close (fst r) (snd r) = r.
Proof.
  intros S hw self w. cbv zeta. unfold FilterRack.close.
  pose proof (disconnect_all_world (FilterRack.wheels self) w) as [Ht Hw].
  pose proof (disconnect_all_released (FilterRack.wheels self) w) as Hrel.
  destruct (FilterRack.disconnect_all (FilterRack.wheels self) w) as [ws w1].
  simpl in *. repeat split; try assumption.
  now rewrite (disconnect_all_again ws w1 Hrel).
Qed.

(** ** Status *)

Section StatusFacts.
Context {S : Type} {hw : Hardware S}.

Lemma reads_only_refl (w : World S) : reads_only w w.
Proof. split; [reflexivity | exists []; split; [reflexivity | constructor]]. Qed.

Lemma reads_only_trans (w1 w2 w3 : World S) :
  reads_only w1 w2 -> reads_only w2 w3 -> reads_only w1 w3.
Proof.
  intros [Hw12 (d1 & Ht1 & Hd1)] [Hw23 (d2 & Ht2 & Hd2)]. split.
  - congruence.
  - exists (d2 ++ d1). split.
    + now rewrite Ht2, Ht1, app_assoc.
    + apply Forall_app. now split.
Qed.

Lemma probed_reads_only h (w w' : World S) : probed h w w' -> reads_only w w'.
Proof.
  intros [Hw (d & Ht & Hd)]. split; [exact Hw |].
  exists d. split; [exact Ht |].
  apply Forall_impl with (P := eq (CmdGetPosition h)); [| exact Hd].
  intros c <-. now exists h.
Qed.

Lemma is_connected_reads_only self (w : World S) :
  reads_only w (snd (FilterWheel.is_connected self w)).
Proof.
  destruct (FilterWheel._hdl self) as [h |] eqn:Hh.
  - apply probed_reads_only with (h := h). now apply is_connected_probed.
  - rewrite (is_connected_no_handle self w Hh). apply reads_only_refl.
Qed.

Lemma get_position_reads_only self (w : World S) :
  reads_only w (snd (FilterWheel.get_position self w)).
Proof.
  destruct (FilterWheel._hdl self) as [h |] eqn:Hh.
  - apply probed_reads_only with (h := h). now apply get_position_probed.
  - unfold FilterWheel.get_position.
    rewrite (is_connected_no_handle self w Hh). apply reads_only_refl.
Qed.

Lemma wheel_status_reads_only self (w : World S) :
  reads_only w (snd (FilterWheel.status self w)) /\
  forall e, fst (FilterWheel.status self w) = Raise e ->
            exists cause, e = ThorlabsError cause.
Proof.
  unfold FilterWheel.status.
  pose proof (is_connected_reads_only self w) as Hc.
  destruct (FilterWheel.is_connected self w) as [c w1]. simpl in Hc.
  destruct c.
  - pose proof (get_position_reads_only self w1) as Hg.
    pose proof (get_position_raises self w1) as Hr.
    destruct (FilterWheel.get_position self w1) as [[p | e] w2]; simpl in *.
    + pose proof (is_connected_reads_only self w2) as Hc2.
      destruct (FilterWheel.is_connected self w2) as [c' w3]. simpl in *.
      split; [| discriminate].
      eapply reads_only_trans; [exact Hc |].
      eapply reads_only_trans; [exact Hg | exact Hc2].
    + split; [eapply reads_only_trans; eassumption |].
      intros e' [= <-]. now apply Hr.
  - pose proof (is_connected_reads_only self w1) as Hc2.
    destruct (FilterWheel.is_connected self w1) as [c' w3]. simpl in *.
    split; [eapply reads_only_trans; eassumption | discriminate].
Qed.

Lemma wheel_status_no_handle self (w : World S) :
  FilterWheel._hdl self = None ->
  FilterWheel.status self w
  = (Ok (FilterWheel.mkStatus (FilterWheel.serial self) false None None
                              (FilterWheel.type self)), w).
Proof.
  intros Hh. unfold FilterWheel.status.
  now rewrite !(is_connected_no_handle self w Hh).
Qed.

Lemma status_all_no_handles ws (w : World S) :
  Forall (fun kw => FilterWheel._hdl (snd kw) = None) ws ->
  FilterRack.status_all ws w = (Ok (map offline_status ws), w).
Proof.
  revert w. induction ws as [| [k wheel] ws IH]; intros w Hall; simpl.
  - reflexivity.
  - inversion Hall as [| ? ? Hhd Htl]; subst. simpl in Hhd.
    now rewrite (wheel_status_no_handle wheel w Hhd), (IH w Htl).
Qed.

Lemma disconnect_all_cleared ws (w : World S) :
  Forall (fun kw => FilterWheel._hdl (snd kw) <> Some 0) ws ->
  Forall (fun kw => FilterWheel._hdl (snd kw) = None)
         (fst (FilterRack.disconnect_all ws w)) /\
  map offline_status (fst (FilterRack.disconnect_all ws w))
  = map offline_status ws.
Proof.
  revert w. induction ws as [| [k wheel] ws IH]; intros w Hall; simpl.
  - split; [constructor | reflexivity].
  - inversion Hall as [| ? ? Hhd Htl]; subst. simpl in Hhd.
    unfold FilterWheel.disconnect.
    destruct (FilterWheel._hdl wheel) as [h |] eqn:Hh.
    + destruct (Z.eqb_spec h 0) as [-> | Hne]; [congruence |].
      destruct (IH (FilterWheel.close_device h w) Htl) as [Hc Hm].
      destruct (FilterRack.disconnect_all ws (FilterWheel.close_device h w))
        as [ws' w2].
      simpl in *. split; [constructor; auto |].
      now rewrite Hm.
    + destruct (IH w Htl) as [Hc Hm].
      destruct (FilterRack.disconnect_all ws w) as [ws' w2].
      simpl in *. split; [constructor; auto |].
      now rewrite Hm.
Qed.

End StatusFacts.

(** X6.  After [close()] on a rack none of whose wheels has the handle 0,
    [status()] returns one entry per wheel, in the order of the wheels,
    each saying not connected, no position and no current filter, and it
    does so without a single DLL call. *)
Theorem status_after_close :
  forall (S : Type) (hw : Hardware S) (self : FilterRack.t) (w : World S),
    Forall (fun kw => FilterWheel._hdl (snd kw) <> Some 0)
           (FilterRack.wheels self) ->
    let closed := FilterRack.close self w in
    FilterRack.status (fst closed) (snd closed)
    = (Ok (map offline_status (FilterRack.wheels self)), snd closed).
Proof.
  intros S hw self w Hnz. cbv zeta.
  unfold FilterRack.close, FilterRack.status.
  destruct (disconnect_all_cleared (FilterRack.wheels self) w Hnz) as [Hc Hm].
  destruct (FilterRack.disconnect_all (FilterRack.wheels self) w) as [ws w1].
  simpl in *. now rewrite (status_all_no_handles ws w1 Hc), Hm.
Qed.

Lemma status_after_close_witness :
  let closed := FilterRack.close Rig.rack1 (Sim.world Rig.rig1) in
  FilterRack.status (fst closed) (snd closed)
  = (Ok [("A", FilterWheel.mkStatus "SN-A" false None None "bandpass");
         ("B", FilterWheel.mkStatus "SN-B" false None None "nd")],
     snd closed).
Proof.
  apply (status_after_close Sim.state Sim.hw Rig.rack1 (Sim.world Rig.rig1)).
  repeat constructor; discriminate.
Defined.

(** X7.  [status()] of a rack only reads: every DLL call it makes is a
    position read, and it warns nothing.  When it returns, the result has
    exactly the wheel keys, in order; when it raises, it raises a device
    error. *)
Theorem rack_status_reads_only :
  forall (S : Type) (hw : Hardware S) (self : FilterRack.t) (w : World S),
    let r := FilterRack.status self w in
    reads_only w (snd r) /\
    (forall sts, fst r = Ok sts -> map fst sts = FilterRack.wheels_keys self) /\
    (forall e, fst r = Raise e -> exists cause, e = ThorlabsError cause).
Proof.
  intros S hw self w. cbv zeta.
  unfold FilterRack.status, FilterRack.wheels_keys.
  generalize (FilterRack.wheels self) as ws. intros ws. revert w.
  induction ws as [| [k wheel] ws IH]; intros w; simpl.
  - split; [apply reads_only_refl |]. split; [| discriminate].
    now intros sts [= <-].
  - destruct (wheel_status_reads_only wheel w) as [Hro Hraise].
    destruct (FilterWheel.status wheel w) as [[st | e] w1]; simpl in *.
    + destruct (IH w1) as (Hro' & Hkeys & Hraise').
      destruct (FilterRack.status_all ws w1) as [[sts | e] w2]; simpl in *.
      * split; [eapply reads_only_trans; eassumption |].
        split; [| discriminate].
        intros sts' [= <-]. simpl. f_equal. now apply Hkeys.
      * split; [eapply reads_only_trans; eassumption |].
        split; [discriminate |].
        intros e' [= <-]. now apply Hraise'.
    + split; [exact Hro |]. split; [discriminate |].
      intros e' [= <-]. now apply Hraise.
Qed.

(** ** What the indices hold *)

Section IndexBacked.
Context {S : Type} {hw : Hardware S} {pf : PyFloat}.

Variable mt : list (string * FilterRack.FilterMeta).
Variable ws : list (string * FilterWheel.t).

Lemma dict_set_Forall (P : Q * FilterRack.triple -> Prop) idx k x :
  (forall k', (k' == k)%Q -> P (k', x)) ->
  Forall P idx -> Forall P (dict_set Qeq_bool idx k x).
Proof.
  intros Hnew Hall. apply Forall_forall. intros [v' t'] Hin.
  destruct (dict_set_In _ _ _ _ _ Hin) as [Hold | [-> Hk]].
  - now apply (proj1 (Forall_forall P idx) Hall).
  - now apply Hnew.
Qed.

Lemma index_slot_backed wkey wheel slot name idx idx' :
  In (wkey, wheel) ws -> FilterWheel._hdl wheel <> None ->
  In (slot, name) (FilterWheel.filters wheel) ->
  both_backed mt ws idx ->
  FilterRack.index_slot mt wkey wheel slot name idx = Ok idx' ->
  both_backed mt ws idx'.
Proof.
  intros Hw Hh Hs [Hwl Hnd] Hstep.
  destruct (index_slot_cases _ _ _ _ _ _ _ Hstep)
    as [-> | [Hne [(y & wl & Hty & Hy & Hf & ->) | (tok & od & Hty & Htok & Hf & ->)]]].
  - now split.
  - split; simpl; [| assumption].
    apply dict_set_Forall; [| assumption].
    intros k' Hk. exists wheel, y, wl. repeat split; auto. now symmetry.
  - split; simpl; [assumption |].
    apply dict_set_Forall; [| assumption].
    intros k' Hk. exists wheel, tok, od. repeat split; auto. now symmetry.
Qed.

Lemma index_wheel_backed wkey wheel fs idx idx' :
  In (wkey, wheel) ws -> FilterWheel._hdl wheel <> None ->
  incl fs (FilterWheel.filters wheel) ->
  both_backed mt ws idx ->
  FilterRack.index_wheel mt wkey wheel fs idx = Ok idx' ->
  both_backed mt ws idx'.
Proof.
  intros Hw Hh. revert idx.
  induction fs as [| [slot name] fs IH]; intros idx Hincl Hb; simpl.
  - now intros [= <-].
  - destruct (FilterRack.index_slot mt wkey wheel slot name idx) as [idx1 | e] eqn:Hs;
      [| discriminate].
    apply IH.
    + intros x Hx. apply Hincl. now right.
    + apply (index_slot_backed _ _ _ _ _ _ Hw Hh (Hincl _ (or_introl eq_refl)) Hb Hs).
Qed.

Lemma is_connected_has_handle wheel (w : World S) :
  fst (FilterWheel.is_connected wheel w) = true ->
  FilterWheel._hdl wheel <> None.
Proof.
  intros Hc Hn. rewrite (is_connected_no_handle wheel w Hn) in Hc.
  discriminate.
Qed.

Lemma build_indices_backed ws' idx (w : World S) idx' :
  incl ws' ws -> both_backed mt ws idx ->
  fst (FilterRack._build_indices mt ws' idx w) = Ok idx' ->
  both_backed mt ws idx'.
Proof.
  revert idx w. induction ws' as [| [k wheel] ws' IH]; intros idx w Hincl Hb; simpl.
  - now intros [= <-].
  - pose proof (is_connected_has_handle wheel w) as Hh.
    destruct (FilterWheel.is_connected wheel w) as [c w1]. simpl in Hh.
    assert (Hincl' : incl ws' ws) by (intros x Hx; apply Hincl; now right).
    destruct c; simpl; [| now apply IH].
    destruct (FilterRack.index_wheel mt k wheel (FilterWheel.filters wheel) idx)
      as [idx1 | e] eqn:Hw; [| discriminate].
    apply IH; [assumption |].
    apply (index_wheel_backed k wheel _ _ _ (Hincl _ (or_introl eq_refl))
             (Hh eq_refl) (incl_refl _) Hb Hw).
Qed.

End IndexBacked.

Lemma init_backed {S : Type} {hw : Hardware S} {pf : PyFloat} ws mt
      (w w' : World S) rack :
  FilterRack.init ws mt w = (Ok rack, w') ->
  Forall (wl_backed mt ws) (FilterRack._wl_index rack) /\
  Forall (nd_backed mt ws) (FilterRack._nd_index rack).
Proof.
  intros Hinit.
  destruct (init_fields _ _ _ _ _ Hinit) as (_ & _ & _ & _ & Hb).
  apply (build_indices_backed mt ws ws ([], []) _ _ (incl_refl _)
           (conj (Forall_nil _) (Forall_nil _)) Hb).
Qed.


(** X8.  The filter a selection resolves to is really there: on a rack the
    constructor built, the (wheel, slot, name) that [select_bandpass]
    resolves names a wheel of the rack that has a handle and holds that
    filter in that slot, and [abs(target - wl)], computed in floats for
    the float [wl] of the wavelength the metadata give the filter, is at
    most the tolerance; likewise for [select_nd] and the float of the last
    word of the name. *)
Theorem selected_filter_is_on_the_rack :
  forall (S : Type) (hw : Hardware S) (pf : PyFloat)
         (ws : list (string * FilterWheel.t))
         (mt : list (string * FilterRack.FilterMeta)) (w w' : World S)
         (rack : FilterRack.t) (target tol : Q),
    FilterRack.init ws mt w = (Ok rack, w') ->
    (forall k slot name,
        FilterRack._nearest_bp rack target tol = Some (k, slot, name) ->
        exists wheel y wl,
          In (k, wheel) (FilterRack.wheels rack) /\
          FilterWheel._hdl wheel <> None /\
          In (slot, name) (FilterWheel.filters wheel) /\
          FilterRack.is_empty_name name = false /\
          FilterRack.m_wavelength
            (FilterRack.f_meta_of (FilterRack.meta rack) name) = Some y /\
          FilterRack.to_float y = Ok wl /\
          (dist target wl <= tol)%Q) /\
    (forall k slot name,
        FilterRack.nearest_nd rack target tol = Some (k, slot, name) ->
        exists wheel tok od,
          In (k, wheel) (FilterRack.wheels rack) /\
          FilterWheel._hdl wheel <> None /\
          In (slot, name) (FilterWheel.filters wheel) /\
          FilterRack.is_empty_name name = false /\
          last_item (split name) = Ok tok /\ float_str tok = Some od /\
          (dist target od <= tol)%Q).
Proof.
  intros S hw pf ws mt w w' rack target tol Hinit.
  destruct (init_fields _ _ _ _ _ Hinit) as (Hws & Hmt & _).
  destruct (init_backed _ _ _ _ _ Hinit) as [Hwl Hnd].
  rewrite Hws, Hmt. split.
  - intros k slot name. unfold FilterRack._nearest_bp.
    destruct (py_min FilterRack.cand_lt _) as [c |] eqn:Hm; [| discriminate].
    intros [= Hc].
    destruct (py_min_nearest _ cand_lt_irrefl cand_lt_trans cand_lt_dist
                _ _ _ _ Hm) as (_ & _ & v & Hin & _ & Hw & _).
    rewrite Hc in Hin.
    pose proof (proj1 (Forall_forall _ _) Hwl _ Hin) as Hb. simpl in Hb.
    destruct Hb as (wheel & y & wl & H1 & H2 & H3 & H4 & _ & H6 & Hf & H7).
    exists wheel, y, wl. repeat split; auto.
    now rewrite (dist_compat target wl v H7).
  - intros k slot name. unfold FilterRack.nearest_nd.
    destruct (py_min FilterRack.key_lt _) as [c |] eqn:Hm; [| discriminate].
    intros [= Hc].
    destruct (py_min_nearest _ key_lt_irrefl key_lt_trans key_lt_dist
                _ _ _ _ Hm) as (_ & _ & v & Hin & _ & Hw & _).
    rewrite Hc in Hin.
    pose proof (proj1 (Forall_forall _ _) Hnd _ Hin) as Hb. simpl in Hb.
    destruct Hb as (wheel & tok & od & H1 & H2 & H3 & H4 & _ & H6 & H7 & H8).
    exists wheel, tok, od. repeat split; auto.
    now rewrite (dist_compat target od v H8).
Qed.

Lemma selected_filter_is_on_the_rack_witness :
  exists wheel y wl,
    In ("A", wheel) (FilterRack.wheels Rig.rack1) /\
    In (1, "450nm") (FilterWheel.filters wheel) /\
    FilterRack.m_wavelength
      (FilterRack.f_meta_of (FilterRack.meta Rig.rack1) "450nm") = Some y /\
    FilterRack.to_float y = Ok wl /\
    (dist 451 wl <= 2)%Q.
Proof.
  assert (Hinit : FilterRack.init [("A", Rig.wheelA); ("B", Rig.wheelB)]
                    Rig.meta1 (Sim.world Rig.rig1)
                  = (Ok Rig.rack1,
                     snd (FilterRack.init [("A", Rig.wheelA); ("B", Rig.wheelB)]
                            Rig.meta1 (Sim.world Rig.rig1))))
    by reflexivity.
  destruct (selected_filter_is_on_the_rack Sim.state Sim.hw Decimal.float
              _ _ _ _ _ 451%Q 2%Q Hinit) as [Hbp _].
  destruct (Hbp "A" 1 "450nm" eq_refl)
    as (wheel & y & wl & H1 & _ & H3 & _ & H5 & H6 & H7).
  exists wheel, y, wl. auto.
Defined.

(** ** Online and offline *)

Lemma mem_In k xs : FilterRack.mem k xs = true <-> In k xs.
Proof.
  unfold FilterRack.mem. rewrite existsb_exists. split.
  - intros (x & Hin & Heq). apply String.eqb_eq in Heq. now subst.
  - intros Hin. exists k. split; [assumption | apply String.eqb_refl].
Qed.

Lemma scan_offline_spec {S : Type} {hw : Hardware S} ws (w : World S) :
  (forall k, In k (fst (FilterRack.scan_offline ws w)) -> In k (map fst ws)) /\
  (forall k wheel, In (k, wheel) ws -> FilterWheel._hdl wheel = None ->
                   In k (fst (FilterRack.scan_offline ws w))).
Proof.
  revert w. induction ws as [| [k0 wheel0] ws IH]; intros w; simpl.
  - split; [intros k [] | intros k wheel []].
  - pose proof (is_connected_no_handle wheel0 w) as Hno.
    destruct (FilterWheel.is_connected wheel0 w) as [c w1].
    destruct (IH w1) as [Hsub Hnone].
    destruct (FilterRack.scan_offline ws w1) as [ks w2]. simpl in *.
    split.
    + intros k Hin. destruct (negb c); [destruct Hin as [<- | Hin] |]; auto.
    + intros k wheel [[= <- <-] | Hin] Hh.
      * specialize (Hno Hh). injection Hno as -> _. simpl. now left.
      * destruct (negb c); [right |]; now apply Hnone with (wheel := wheel).
Qed.

(** X9.  On a rack the constructor built, every wheel key is on exactly
    one of the lists [online] and [offline], and neither list holds
    anything else.  A wheel without a handle is on [offline]; and, the
    keys being distinct, no entry of either index and no entry of
    [available_filters()] names it. *)
Theorem offline_wheels_are_set_aside :
  forall (S : Type) (hw : Hardware S) (pf : PyFloat)
         (ws : list (string * FilterWheel.t))
         (mt : list (string * FilterRack.FilterMeta)) (w w' : World S)
         (rack : FilterRack.t),
    FilterRack.init ws mt w = (Ok rack, w') ->
    (forall k, In k (FilterRack.offline rack) -> In k (map fst ws)) /\
    (forall k, In k (FilterRack.online rack) <->
               In k (map fst ws) /\ ~ In k (FilterRack.offline rack)) /\
    (forall k wheel,
        In (k, wheel) ws -> FilterWheel._hdl wheel = None ->
        In k (FilterRack.offline rack) /\
        ~ In k (FilterRack.online rack) /\
        (NoDup (map fst ws) ->
         (forall v slot name,
             ~ In (v, (k, slot, name)) (FilterRack._wl_index rack) /\
             ~ In (v, (k, slot, name)) (FilterRack._nd_index rack)) /\
         forall out name slot,
           FilterRack.available_filters rack = Ok out ->
           dict_get String.eqb out name <> Some (k, slot))).
Proof.
  intros S hw pf ws mt w w' rack Hinit.
  destruct (init_fields _ _ _ _ _ Hinit) as (Hws & _ & Hoff & Hon & _).
  destruct (scan_offline_spec ws w) as [Hsub Hnone].
  assert (Honline : forall k, In k (FilterRack.online rack) <->
                              In k (map fst ws) /\ ~ In k (FilterRack.offline rack)).
  { intros k. rewrite Hon, Hoff, filter_In, negb_true_iff.
    rewrite <- (mem_In k (fst (FilterRack.scan_offline ws w))).
    destruct (FilterRack.mem k (fst (FilterRack.scan_offline ws w)));
      intuition congruence. }
  split; [now rewrite Hoff |]. split; [exact Honline |].
  intros k wheel Hin Hh.
  assert (Hk : In k (FilterRack.offline rack))
    by (rewrite Hoff; now apply Hnone with (wheel := wheel)).
  assert (Hnot : ~ In k (FilterRack.online rack))
    by (intros Hc; apply Honline in Hc; tauto).
  split; [exact Hk |]. split; [exact Hnot |].
  intros Hnd.
  assert (Huniq : forall wheel', In (k, wheel') ws -> wheel' = wheel).
  { clear - Hnd Hin. induction ws as [| [k0 x0] ws IH]; [contradiction |].
    simpl in Hnd. inversion Hnd as [| ? ? Hnotin Hnd']; subst.
    intros wheel' Hin'.
    destruct Hin as [E | Hin]; destruct Hin' as [E' | Hin'].
    - congruence.
    - exfalso. apply Hnotin. injection E as -> _.
      now apply (in_map fst _ (k, wheel')).
    - exfalso. apply Hnotin. injection E' as -> _.
      now apply (in_map fst _ (k, wheel)).
    - now apply IH. }
  destruct (init_backed _ _ _ _ _ Hinit) as [Hwl Hndx].
  split.
  - intros v slot name. split; intros Hc.
    + pose proof (proj1 (Forall_forall _ _) Hwl _ Hc) as Hb. simpl in Hb.
      destruct Hb as (wheel' & y & wl & H1 & H2 & _).
      rewrite (Huniq _ H1) in H2. contradiction.
    + pose proof (proj1 (Forall_forall _ _) Hndx _ Hc) as Hb. simpl in Hb.
      destruct Hb as (wheel' & tok & od & H1 & H2 & _).
      rewrite (Huniq _ H1) in H2. contradiction.
  - intros out name slot Hout Hget.
    unfold FilterRack.available_filters in Hout. rewrite Hws in Hout.
    assert (Hkeys : forall k0, In k0 (FilterRack.online rack) ->
                               exists x, dict_get String.eqb ws k0 = Some x).
    { intros k0 Hk0. apply Honline in Hk0 as [Hk0 _].
      now apply (dict_get_key _ String.eqb_spec). }
    destruct (scan_filters_spec ws (FilterRack.online rack) Hkeys [])
      as (out' & Hrun & Hsound & _).
    rewrite Hrun in Hout. injection Hout as <-.
    destruct (Hsound name (k, slot) Hget) as [Hnil | (x & Hon' & _)];
      [discriminate |].
    simpl in Hon'. contradiction.
Qed.

Lemma offline_wheels_are_set_aside_witness :
  In "A" (FilterRack.online Rig.rack_unplugged) <->
  In "A" (map fst [("A", Rig.wheelA); ("B", Rig.wheelB)]) /\
  ~ In "A" (FilterRack.offline Rig.rack_unplugged).
Proof.
  assert (Hinit : FilterRack.init [("A", Rig.wheelA); ("B", Rig.wheelB)]
                    Rig.meta1 (Sim.world Rig.rig_unplugged)
                  = (Ok Rig.rack_unplugged,
                     snd (FilterRack.init [("A", Rig.wheelA); ("B", Rig.wheelB)]
                            Rig.meta1 (Sim.world Rig.rig_unplugged))))
    by reflexivity.
  destruct (offline_wheels_are_set_aside Sim.state Sim.hw Decimal.float
              _ _ _ _ _ Hinit) as (_ & Hon & _).
  exact (Hon "A").
Defined.

(** ** How the selections fail *)

Section SelectionErrors.
Context {S : Type} {hw : Hardware S}.

Lemma move_to_kinds self slot block timeout (w : World S) :
  fst (FilterWheel.move_to self slot block timeout w) = Raise ValueError \/
  device_or_timeout (fst (FilterWheel.move_to self slot block timeout w)).
Proof.
  unfold FilterWheel.move_to.
  destruct ((slot <? 0) || (slot >? FilterWheel.slots self)); [now left |].
  right.
  destruct (FilterWheel.is_connected self w) as [c w1].
  destruct (negb c); [exact I |].
  destruct (FilterWheel._hdl self) as [h |]; [| exact I].
  unfold FilterWheel.set_position_raw.
  destruct (call_set h slot w1) as [rc w2].
  destruct (rc <? 0); [exact I |].
  destruct (negb block); [exact I |].
  apply wait_for_slot_raises.
Qed.

Lemma move_pass_raises tk ts empty block ws (w : World S) e :
  fst (FilterRack.move_pass tk ts empty block ws w) = Raise e ->
  e = ValueError \/ e = TimeoutError \/
  exists k wheel,
    e = KeyError (MissingKey k) /\ In (k, wheel) ws /\
    String.eqb (FilterWheel.type wheel) FilterRack.ND = false /\
    String.eqb k tk = false /\ dict_get String.eqb empty k = None.
Proof.
  revert w. induction ws as [| [k wheel] ws IH]; intros w; simpl.
  - discriminate.
  - assert (Hrest : forall w',
               fst (FilterRack.move_pass tk ts empty block ws w') = Raise e ->
               e = ValueError \/ e = TimeoutError \/
               exists k0 wheel0,
                 e = KeyError (MissingKey k0) /\ In (k0, wheel0) ((k, wheel) :: ws) /\
                 String.eqb (FilterWheel.type wheel0) FilterRack.ND = false /\
                 String.eqb k0 tk = false /\ dict_get String.eqb empty k0 = None).
    { intros w' Hr.
      destruct (IH w' Hr) as [-> | [-> | (k0 & x & -> & Hin & H1 & H2 & H3)]];
        auto.
      right. right. exists k0, x. repeat split; auto. now right. }
    destruct (FilterWheel.is_connected wheel w) as [c w1].
    destruct (negb c); simpl; [apply Hrest |].
    destruct (String.eqb (FilterWheel.type wheel) FilterRack.ND) eqn:Hty;
      [apply Hrest |].
    unfold FilterRack.slot_for.
    destruct (String.eqb k tk) eqn:Hk.
    + pose proof (move_to_kinds wheel ts block None w1) as Hkinds.
      destruct (FilterWheel.move_to wheel ts block None w1) as [[[] | e'] w2];
        [apply Hrest |].
      simpl in Hkinds.
      destruct e' as [| | | | ke | cause]; simpl.
      * intros [= <-]; auto.
      * destruct Hkinds as [Hv | []]; discriminate Hv.
      * destruct Hkinds as [Hv | []]; discriminate Hv.
      * intros [= <-]; auto.
      * destruct Hkinds as [Hv | []]; discriminate Hv.
      * apply Hrest.
    + destruct (dict_get String.eqb empty k) as [s |] eqn:Hg.
      * pose proof (move_to_kinds wheel s block None w1) as Hkinds.
        destruct (FilterWheel.move_to wheel s block None w1) as [[[] | e'] w2];
          [apply Hrest |].
        simpl in Hkinds.
        destruct e' as [| | | | ke | cause]; simpl.
        -- intros [= <-]; auto.
        -- destruct Hkinds as [Hv | []]; discriminate Hv.
        -- destruct Hkinds as [Hv | []]; discriminate Hv.
        -- intros [= <-]; auto.
        -- destruct Hkinds as [Hv | []]; discriminate Hv.
        -- apply Hrest.
      * simpl. intros [= <-]. right. right. exists k, wheel.
        repeat split; auto.
Qed.

End SelectionErrors.

(** X10.  [select_bandpass] raises its not-found KeyError, carrying the
    wavelength and the tolerance it was called with, exactly when no
    index entry lies within the tolerance, by the distance
    [abs(target - v)] as Python computes it on floats, and then it has
    called and warned nothing.  Anything else it raises is a ValueError or a
    TimeoutError of a move, or the KeyError of [empty[k]] for a wheel of
    the rack that is not ND, is not the selected wheel and has no entry in
    the table of EMPTY slots. *)
Theorem select_bandpass_raises :
  forall (S : Type) (hw : Hardware S) (self : FilterRack.t) (wl_nm tol_nm : Q)
         (block : bool) (w : World S),
    let r := FilterRack.select_bandpass self wl_nm tol_nm block w in
    let nothing_near :=
      forall v t, In (v, t) (FilterRack._wl_index self) ->
                  ~ (dist wl_nm v <= tol_nm)%Q in
    (nothing_near -> r = (Raise (KeyError (NoBandpassNear wl_nm tol_nm)), w)) /\
    (forall a b, fst r = Raise (KeyError (NoBandpassNear a b)) ->
                 nothing_near /\ r = (Raise (KeyError (NoBandpassNear wl_nm tol_nm)), w)) /\
    (forall e, fst r = Raise e ->
               e = KeyError (NoBandpassNear wl_nm tol_nm) \/
               e = ValueError \/ e = TimeoutError \/
               exists k wheel,
                 e = KeyError (MissingKey k) /\
                 In (k, wheel) (FilterRack.wheels self) /\
                 String.eqb (FilterWheel.type wheel) FilterRack.ND = false).
Proof.
  intros S hw self wl tol block w. cbv zeta.
  unfold FilterRack.select_bandpass.
  pose proof (py_min_none FilterRack.cand_lt (FilterRack._wl_index self) wl tol)
    as Hnone.
  unfold FilterRack._nearest_bp.
  destruct (py_min FilterRack.cand_lt
              (FilterRack.cands (FilterRack._wl_index self) wl tol))
    as [[d [[tk ts] n]] |] eqn:Hm; simpl.
  - destruct (FilterRack.find_empty (FilterRack.wheels self) [] w) as [empty w1].
    split; [| split].
    + intros Hnear. apply Hnone in Hnear. discriminate.
    + intros a b Hr. apply move_pass_raises in Hr.
      destruct Hr as [Hr | [Hr | (k & x & Hr & _)]]; discriminate.
    + intros e Hr. apply move_pass_raises in Hr.
      destruct Hr as [-> | [-> | (k & x & -> & Hin & Hty & _)]]; auto.
      right. right. right. exists k, x. auto.
  - split; [reflexivity |]. split.
    + intros a b _. split; [now apply Hnone | reflexivity].
    + intros e [= <-]. now left.
Qed.

(** X11.  [select_nd] raises ValueError, before anything is looked up or
    called, on a string that [float()] rejects; it raises its not-found
    KeyError, carrying the parsed density and the tolerance, exactly when
    the argument parses and no index entry lies within the tolerance, by
    the distance [abs(od - dens)] as Python computes it on floats, and
    then too nothing has been called.  It never raises IndexError, and on
    a rack the constructor built it never raises the KeyError of a missing
    wheel key. *)
Theorem select_nd_raises :
  forall (S : Type) (hw : Hardware S) (pf : PyFloat) (self : FilterRack.t)
         (od : FilterRack.od_arg) (tol : Q) (block : bool) (w : World S),
    let r := FilterRack.select_nd self od tol block w in
    let nothing_near v :=
      forall d t, In (d, t) (FilterRack._nd_index self) ->
                  ~ (dist v d <= tol)%Q in
    (forall s, od = FilterRack.OdStr s -> py_float s = None ->
               r = (Raise ValueError, w)) /\
    (forall v, FilterRack.od_value od = Ok v -> nothing_near v ->
               r = (Raise (KeyError (NoNDNear v tol)), w)) /\
    (forall a b, fst r = Raise (KeyError (NoNDNear a b)) ->
                 FilterRack.od_value od = Ok a /\ nothing_near a /\
                 r = (Raise (KeyError (NoNDNear a tol)), w)) /\
    fst r <> Raise IndexError /\
    (forall ws mt (w0 w0' : World S),
        FilterRack.init ws mt w0 = (Ok self, w0') ->
        forall k, fst r <> Raise (KeyError (MissingKey k))).
Proof.
  intros S hw pf self od tol block w. cbv zeta.
  unfold FilterRack.select_nd.
  assert (Hmove : forall wheel slot ke,
             fst (FilterWheel.move_to wheel slot block None w)
             <> Raise (KeyError ke) /\
             fst (FilterWheel.move_to wheel slot block None w)
             <> Raise IndexError).
  { intros wheel slot ke.
    destruct (move_to_kinds wheel slot block None w) as [Hv | Hd].
    - rewrite Hv. split; discriminate.
    - split; intros Hc; rewrite Hc in Hd; exact Hd. }
  split.
  { intros s -> Hs. simpl. unfold float_str. now rewrite Hs. }
  destruct (FilterRack.od_value od) as [v | e] eqn:Hod.
  2: { assert (He : e = ValueError).
       { destruct od as [q | s]; simpl in Hod; [discriminate |].
         destruct (float_str s); [discriminate | congruence]. }
       subst e. simpl.
       split; [discriminate |]. split; [discriminate |].
       split; [discriminate |]. intros ws mt w0 w0' _ k. discriminate. }
  pose proof (py_min_none FilterRack.key_lt (FilterRack._nd_index self) v tol)
    as Hnone.
  pose proof (py_min_nearest FilterRack.key_lt key_lt_irrefl key_lt_trans
                key_lt_dist (FilterRack._nd_index self) v tol) as Hnear.
  unfold FilterRack.nearest_nd.
  destruct (py_min FilterRack.key_lt
              (FilterRack.cands (FilterRack._nd_index self) v tol))
    as [[d [[k slot] n]] |] eqn:Hm; simpl.
  - destruct (Hnear _ eq_refl) as (_ & _ & v' & Hin & _).
    simpl in Hin.
    destruct (dict_get String.eqb (FilterRack.wheels self) k) as [wheel |] eqn:Hg.
    + split.
      { intros v0 [= <-] Hnn. apply Hnone in Hnn. discriminate. }
      split.
      { intros a b Hc. now destruct (proj1 (Hmove wheel slot (NoNDNear a b))). }
      split; [apply Hmove; exact (MissingKey k) |].
      intros ws mt w0 w0' _ k0. apply Hmove.
    + simpl. split.
      { intros v0 [= <-] Hnn. apply Hnone in Hnn. discriminate. }
      split; [discriminate |]. split; [discriminate |].
      intros ws mt w0 w0' Hinit k0 _.
      destruct (init_fields _ _ _ _ _ Hinit) as (Hws & _).
      destruct (init_backed _ _ _ _ _ Hinit) as [_ Hnd].
      pose proof (proj1 (Forall_forall _ _) Hnd _ Hin) as Hb. simpl in Hb.
      destruct Hb as (wheel & tok & od' & H1 & _).
      destruct (dict_get_key _ String.eqb_spec ws k
                  (in_map fst _ _ H1)) as [x Hx].
      rewrite Hws in Hg. congruence.
  - split.
    { intros v0 [= <-] _. reflexivity. }
    split.
    { intros a b [= <- <-]. repeat split. now apply Hnone. }
    split; [discriminate |].
    intros ws mt w0 w0' _ k. discriminate.
Qed.

(** ** What [select_bandpass] sends *)

Section PassCalls.
Context {S : Type} {hw : Hardware S}.





End PassCalls.


(** ** Connecting *)

Lemma lower_app a b : lower (a ++ b) = (lower a ++ lower b)%string.
Proof. induction a as [| c a IH]; simpl; [reflexivity | now rewrite IH]. Qed.

Lemma contains_app_r sub a b :
  contains sub b = true -> contains sub (a ++ b) = true.
Proof.
  intros Hb. induction a as [| c a IH]; simpl; [assumption |].
  rewrite IH. apply orb_true_r.
Qed.

(** The message of a failed open always has the word the retry looks
    for. *)
Lemma open_error_has_failed serial h :
  contains "failed" (lower (FilterWheel.open_error_message serial h)) = true.
Proof.
  unfold FilterWheel.open_error_message. rewrite !lower_app.
  apply (contains_app_r "failed" (lower "FWxCOpen(")).
  apply contains_app_r. reflexivity.
Qed.

Section Connect.
Context {S : Type} {hw : Hardware S} {drv : Driver S}.

Lemma open_device_outcome serial baud timeout (w : World S) :
  match fst (FilterWheel.open_device serial baud timeout w) with
  | FilterWheel.Opened h => 0 <= h
  | FilterWheel.OpenError msg =>
      exists code, code < 0 /\ msg = FilterWheel.open_error_message serial code
  end.
Proof.
  unfold FilterWheel.open_device.
  destruct (call_open serial baud timeout w) as [h w1].
  destruct (Z.ltb_spec h 0); simpl; [eauto | assumption].
Qed.

Lemma safe_reopen_outcome self (w : World S) :
  let r := FilterWheel._safe_reopen self w in
  FilterWheel.set_hdl (snd (fst r)) None = FilterWheel.set_hdl self None /\
  match fst (fst r) with
  | None => exists h, FilterWheel._hdl (snd (fst r)) = Some h /\ 0 <= h
  | Some msg =>
      FilterWheel._hdl (snd (fst r)) = None /\
      exists code, code < 0 /\
                   msg = FilterWheel.open_error_message (FilterWheel.serial self) code
  end.
Proof.
  cbv zeta. unfold FilterWheel._safe_reopen.
  set (w1 := match FilterWheel._hdl self with
             | Some h => FilterWheel.close_device h w
             | None => w
             end).
  pose proof (open_device_outcome (FilterWheel.serial self)
                (FilterWheel.baud self) (FilterWheel.timeout_s self) w1) as Ho.
  destruct (FilterWheel.open_device (FilterWheel.serial self)
              (FilterWheel.baud self) (FilterWheel.timeout_s self) w1)
    as [[h | msg] w2]; simpl in *.
  - split; [reflexivity | eauto].
  - split; [reflexivity | auto].
Qed.


(** Without the test on the message: a failed open is always followed by
    one more attempt. *)
Lemma connect_retries self force (w : World S) :
  FilterWheel.connect self force w
  = (let '(alive, w1) := FilterWheel.still_alive self force w in
     if alive then (None, self, w1)
     else
       match FilterWheel._safe_reopen self w1 with
       | (None, self1, w2) => (None, self1, w2)
       | (Some _, self1, w2) => FilterWheel._safe_reopen self1 w2
       end).
Proof.
  unfold FilterWheel.connect.
  destruct (FilterWheel.still_alive self force w) as [alive w1].
  destruct alive; [reflexivity |].
  pose proof (safe_reopen_outcome self w1) as [_ Hm].
  destruct (FilterWheel._safe_reopen self w1) as [[[msg |] self1] w2];
    simpl in *; [| reflexivity].
  destruct Hm as (_ & code & _ & ->).
  now rewrite open_error_has_failed.
Qed.

End Connect.



(** X14.  The retry of [connect] does not depend on the text of the
    error: whenever the wheel is not found alive and the first reopen
    fails, [connect] is one more reopen, on the wheel as the failure left
    it. *)
Theorem failed_open_is_retried :
  forall (S : Type) (hw : Hardware S) (drv : Driver S) (self self1 : FilterWheel.t)
         (force : bool) (msg : string) (w w2 : World S),
    fst (FilterWheel.still_alive self force w) = false ->
    FilterWheel._safe_reopen self (snd (FilterWheel.still_alive self force w))
    = (Some msg, self1, w2) ->
    FilterWheel.connect self force w = FilterWheel._safe_reopen self1 w2.
Proof.
  intros S hw drv self self1 force msg w w2 Halive Hfirst.
  rewrite connect_retries.
  destruct (FilterWheel.still_alive self force w) as [alive w1].
  simpl in *. subst alive. now rewrite Hfirst.
Qed.

Lemma failed_open_is_retried_witness :
  let wheel := FilterWheel.init Bench.specA in
  let w := Sim.world Rig.rig_unplugged in
  @FilterWheel.connect Sim.state Sim.hw (Bench.driver [("SN-A", 2)]) wheel false w
  = @FilterWheel._safe_reopen Sim.state Sim.hw (Bench.driver [("SN-A", 2)])
      wheel w.
Proof.
  apply (failed_open_is_retried Sim.state Sim.hw (Bench.driver [("SN-A", 2)])
           (FilterWheel.init Bench.specA) (FilterWheel.init Bench.specA) false
           (FilterWheel.open_error_message "SN-A" (-1))
           (Sim.world Rig.rig_unplugged) (Sim.world Rig.rig_unplugged));
    reflexivity.
Defined.

(** ** Building a rack from the configuration *)

Section FromYaml.
Context {S : Type} {hw : Hardware S} {drv : Driver S} {pf : PyFloat}.

Lemma connect_result self force (w : World S) :
  let r := FilterWheel.connect self force w in
  FilterWheel.set_hdl (snd (fst r)) None = FilterWheel.set_hdl self None /\
  (fst (fst r) <> None -> FilterWheel._hdl (snd (fst r)) = None).
Proof.
  cbv zeta. rewrite connect_retries.
  destruct (FilterWheel.still_alive self force w) as [alive w1].
  destruct alive; [simpl; split; [reflexivity | congruence] |].
  pose proof (safe_reopen_outcome self w1) as [Hcfg Hm].
  destruct (FilterWheel._safe_reopen self w1) as [[[msg |] self1] w2];
    simpl in Hcfg, Hm.
  - pose proof (safe_reopen_outcome self1 w2) as [Hcfg2 Hm2].
    destruct (FilterWheel._safe_reopen self1 w2) as [[[msg2 |] self2] w3];
      simpl in *.
    + split; [congruence | intros _; apply Hm2].
    + split; [congruence | congruence].
  - simpl. split; [assumption | congruence].
Qed.

Lemma last_item_raises (xs : list string) e :
  last_item xs = Raise e -> e = IndexError /\ xs = [].
Proof.
  unfold last_item. destruct (rev xs) as [| x l] eqn:Hr; [| discriminate].
  intros [= <-]. split; [reflexivity |].
  rewrite <- (rev_involutive xs), Hr. reflexivity.
Qed.

Lemma index_slot_raises mt wkey wheel slot name idx e :
  FilterRack.index_slot mt wkey wheel slot name idx = Raise e ->
  build_fault mt name e.
Proof.
  unfold FilterRack.index_slot.
  destruct (FilterRack.is_empty_name name); [discriminate |].
  assert (Hnd : (if String.eqb (FilterRack.f_type_of mt wheel name) FilterRack.ND
                 then match last_item (split name) with
                      | Ok tok =>
                          match float_str tok with
                          | Some od =>
                              Ok (fst idx,
                                  dict_set Qeq_bool (snd idx) od (wkey, slot, name))
                          | None => Ok idx
                          end
                      | Raise e0 => Raise e0
                      end
                 else Ok idx) = Raise e -> build_fault mt name e).
  { destruct (String.eqb (FilterRack.f_type_of mt wheel name) FilterRack.ND);
      [| discriminate].
    destruct (last_item (split name)) as [tok | e0] eqn:Hl.
    - destruct (float_str tok); discriminate.
    - intros [= <-]. left. now apply last_item_raises. }
  destruct (String.eqb (FilterRack.f_type_of mt wheel name) FilterRack.BP);
    [| exact Hnd].
  destruct (FilterRack.m_wavelength (FilterRack.f_meta_of mt name)) as [y |] eqn:Hy;
    [| exact Hnd].
  destruct (FilterRack.to_float y) as [wl | e0] eqn:Hf; [discriminate |].
  intros [= <-]. right. exists y. auto.
Qed.

Lemma index_wheel_raises mt wkey wheel fs idx e :
  FilterRack.index_wheel mt wkey wheel fs idx = Raise e ->
  exists slot name, In (slot, name) fs /\ build_fault mt name e.
Proof.
  revert idx. induction fs as [| [slot name] fs IH]; intros idx; simpl.
  - discriminate.
  - destruct (FilterRack.index_slot mt wkey wheel slot name idx) as [idx1 | e1] eqn:Hs.
    + intros Hr. destruct (IH _ Hr) as (s & n & Hin & Hf).
      exists s, n. auto.
    + intros [= <-]. exists slot, name. split; [now left |].
      now apply index_slot_raises in Hs.
Qed.

Lemma build_indices_raises mt ws idx (w : World S) e :
  fst (FilterRack._build_indices mt ws idx w) = Raise e ->
  exists k wheel slot name,
    In (k, wheel) ws /\ In (slot, name) (FilterWheel.filters wheel) /\
    build_fault mt name e.
Proof.
  revert idx w. induction ws as [| [k wheel] ws IH]; intros idx w; simpl.
  - discriminate.
  - assert (Hrest : forall idx' w',
               fst (FilterRack._build_indices mt ws idx' w') = Raise e ->
               exists k0 wheel0 slot name,
                 ((k, wheel) = (k0, wheel0) \/ In (k0, wheel0) ws) /\
                 In (slot, name) (FilterWheel.filters wheel0) /\
                 build_fault mt name e).
    { intros idx' w' Hr. destruct (IH _ _ Hr) as (k0 & x & s & n & Hin & Hrest).
      exists k0, x, s, n. auto. }
    destruct (FilterWheel.is_connected wheel w) as [c w1].
    destruct (negb c); [apply Hrest |].
    destruct (FilterRack.index_wheel mt k wheel (FilterWheel.filters wheel) idx)
      as [idx1 | e1] eqn:Hw.
    + apply Hrest.
    + simpl. intros [= <-]. apply index_wheel_raises in Hw as (s & n & Hin & Hf).
      exists k, wheel, s, n. auto.
Qed.

Lemma init_raises ws mt (w : World S) e :
  fst (FilterRack.init ws mt w) = Raise e ->
  exists k wheel slot name,
    In (k, wheel) ws /\ In (slot, name) (FilterWheel.filters wheel) /\
    build_fault mt name e.
Proof.
  unfold FilterRack.init.
  destruct (FilterRack.scan_offline ws w) as [off w1].
  pose proof (build_indices_raises mt ws ([], []) w1 e) as Hb.
  destruct (FilterRack._build_indices mt ws ([], []) w1) as [[idx | e1] w2];
    simpl in *; [discriminate |].
  intros [= <-]. now apply Hb.
Qed.

Lemma dict_set_fresh (d : list (string * FilterWheel.t)) k v :
  ~ In k (map fst d) -> dict_set String.eqb d k v = d ++ [(k, v)].
Proof.
  induction d as [| [k0 v0] d IH]; simpl; intros Hnot; [reflexivity |].
  destruct (String.eqb_spec k0 k) as [-> | Hne]; [tauto |].
  rewrite IH; [reflexivity | tauto].
Qed.

Lemma open_wheels_outcome cfg :
  NoDup (map fst cfg) ->
  forall ws0 warns0 (w : World S),
    (forall k, In k (map fst cfg) -> ~ In k (map fst ws0)) ->
    let r := FilterRack.open_wheels cfg ws0 warns0 w in
    map Session.configured (fst (fst r))
    = map Session.configured ws0 ++ map constructed cfg /\
    (forall k wheel, In (k, wheel) ws0 -> In (k, wheel) (fst (fst r))) /\
    (forall k msg,
        In (k, msg) (snd (fst r)) ->
        In (k, msg) warns0 \/
        (In k (map fst cfg) /\
         (msg = "wheel not detected" \/
          exists wheel, In (k, wheel) (fst (fst r)) /\
                        FilterWheel._hdl wheel = None))).
Proof.
  induction cfg as [| [key spec] cfg IH]; intros Hnd ws0 warns0 w Hfresh;
    cbv zeta; simpl.
  - rewrite app_nil_r. repeat split; auto.
  - inversion Hnd as [| ? ? Hkey Hnd']; subst.
    pose proof (connect_result (FilterWheel.init spec) false w) as [Hcfg Herr].
    destruct (FilterWheel.connect (FilterWheel.init spec) false w)
      as [[err wheel1] w1]. simpl in Hcfg, Herr.
    assert (Hset : dict_set String.eqb ws0 key wheel1 = ws0 ++ [(key, wheel1)])
      by (apply dict_set_fresh, Hfresh; now left).
    assert (Hfresh' : forall k, In k (map fst cfg) ->
                                ~ In k (map fst (ws0 ++ [(key, wheel1)]))).
    { intros k Hk. rewrite map_app, in_app_iff. simpl.
      intros [Hc | [<- | []]]; [| contradiction].
      apply (Hfresh k); [now right | assumption]. }
    assert (Hstep :
              forall warns1 w',
                (forall k msg, In (k, msg) warns1 ->
                               In (k, msg) warns0 \/
                               (k = key /\
                                (msg = "wheel not detected" \/
                                 FilterWheel._hdl wheel1 = None))) ->
                let r := FilterRack.open_wheels cfg (ws0 ++ [(key, wheel1)])
                           warns1 w' in
                map Session.configured (fst (fst r))
                = map Session.configured ws0 ++ constructed (key, spec) :: map constructed cfg /\
                (forall k wheel, In (k, wheel) ws0 -> In (k, wheel) (fst (fst r))) /\
                (forall k msg,
                    In (k, msg) (snd (fst r)) ->
                    In (k, msg) warns0 \/
                    ((key = k \/ In k (map fst cfg)) /\
                     (msg = "wheel not detected" \/
                      exists wheel, In (k, wheel) (fst (fst r)) /\
                                    FilterWheel._hdl wheel = None)))).
    { intros warns1 w' Hw1. cbv zeta.
      destruct (IH Hnd' (ws0 ++ [(key, wheel1)]) warns1 w' Hfresh')
        as (Hmap & Hkeep & Hwarn).
      split; [| split].
      - rewrite Hmap, map_app, <- app_assoc. f_equal. cbn [map app]. f_equal.
        unfold Session.configured, constructed. cbn [fst snd]. f_equal.
        exact Hcfg.
      - intros k wheel Hin. apply Hkeep, in_or_app. now left.
      - intros k msg Hin.
        destruct (Hwarn k msg Hin) as [Hold | (Hk & Hmsg)].
        + destruct (Hw1 k msg Hold) as [H0 | (-> & [Hm | Hh])]; auto.
          right. split; [now left |]. right. exists wheel1. split; [| assumption].
          apply Hkeep, in_or_app. right. now left.
        + right. split; [now right | assumption]. }
    destruct err as [msg |].
    + rewrite Hset. apply Hstep.
      intros k m Hin. apply in_app_or in Hin as [Hold | [[= <- <-] | []]]; auto.
      right. split; [reflexivity |]. right. apply Herr. discriminate.
    + destruct (FilterWheel.is_connected wheel1 w1) as [c w2].
      rewrite Hset. apply Hstep.
      intros k m Hin. destruct (negb c); [| auto].
      apply in_app_or in Hin as [Hold | [[= <- <-] | []]]; auto.
Qed.

End FromYaml.

(** X15.  [from_yaml] on a configuration with distinct wheel keys never
    raises because a wheel fails to open.  What it raises comes from the
    index build, at a filter of a configured wheel: IndexError where the
    name has no word, or the error of [float()] on the wavelength the
    metadata give the filter.  The rack it returns has every wheel of the
    configuration, under its key and in order, each as the constructor
    makes it from its entry, whether or not it opened.  Every "offline"
    warning names a configured wheel, and unless the warning is "wheel not
    detected" that wheel is on the [offline] list. *)
Theorem from_yaml_outcome :
  forall (S : Type) (hw : Hardware S) (drv : Driver S) (pf : PyFloat)
         (cfg : list (string * FilterWheel.Spec))
         (filter_meta : list (string * FilterRack.FilterMeta)) (w : World S),
    NoDup (map fst cfg) ->
    let r := FilterRack.from_yaml cfg filter_meta w in
    (forall e,
        fst (fst r) = Raise e ->
        exists k spec slot name,
          In (k, spec) cfg /\
          In (slot, name) (FilterWheel.filters (FilterWheel.init spec)) /\
          build_fault filter_meta name e) /\
    (forall rack,
        fst (fst r) = Ok rack ->
        map Session.configured (FilterRack.wheels rack) = map constructed cfg /\
        FilterRack.wheels_keys rack = map fst cfg /\
        FilterRack.meta rack = filter_meta /\
        forall k msg,
          In (k, msg) (snd (fst r)) ->
          In k (map fst cfg) /\
          (msg = "wheel not detected" \/ In k (FilterRack.offline rack))).
Proof.
  intros S hw drv pf cfg filter_meta w Hnd. cbv zeta.
  unfold FilterRack.from_yaml.
  destruct (FilterWheel.list_devices w) as [devs w0].
  destruct (open_wheels_outcome cfg Hnd [] [] w0 (fun k _ Hc => Hc))
    as (Hmap & _ & Hwarn).
  destruct (FilterRack.open_wheels cfg [] [] w0) as [[ws warns] w1].
  simpl in Hmap, Hwarn.
  pose proof (init_raises ws filter_meta w1) as Hraise.
  pose proof (init_fields ws filter_meta w1) as Hfields.
  destruct (FilterRack.init ws filter_meta w1) as [[rack | e] w2]; simpl in *.
  - split; [discriminate |].
    intros rack0 [= <-].
    destruct (Hfields w2 rack eq_refl) as (Hws & Hmt & Hoff & _).
    rewrite Hws. split; [exact Hmap |]. split.
    { unfold FilterRack.wheels_keys. rewrite Hws.
      transitivity (map fst (map Session.configured ws)).
      - rewrite map_map. apply map_ext. now intros [k x].
      - rewrite Hmap, map_map. apply map_ext. now intros [k x]. }
    split; [exact Hmt |].
    intros k msg Hin.
    destruct (Hwarn k msg Hin) as [[] | (Hk & [Hm | (wheel & Hw & Hh)])];
      (split; [exact Hk |]); [now left |].
    right. rewrite Hoff.
    apply (proj2 (scan_offline_spec ws w1) k wheel Hw Hh).
  - split; [| discriminate].
    intros e0 [= <-].
    destruct (Hraise e eq_refl) as (k & wheel & slot & name & Hin & Hs & Hf).
    assert (Hc : In (Session.configured (k, wheel)) (map constructed cfg))
      by (rewrite <- Hmap; now apply in_map).
    apply in_map_iff in Hc as ([k' spec] & Heq & Hcfg).
    pose proof (f_equal fst Heq) as Hk.
    pose proof (f_equal (fun kw => FilterWheel.filters (snd kw)) Heq) as Hw.
    simpl in Hk, Hw. subst k'.
    exists k, spec, slot, name.
    split; [assumption |]. split; [| assumption].
    rewrite Hw. exact Hs.
Qed.

Lemma from_yaml_outcome_witness :
  let r := @FilterRack.from_yaml Sim.state Sim.hw Decimal.float
             (Bench.driver Bench.bench1)
             [("A", Bench.specA); ("B", Bench.specB)] Rig.meta1
             (Sim.world Rig.rig_unplugged) in
  exists rack,
    fst (fst r) = Ok rack /\
    FilterRack.wheels_keys rack = ["A"; "B"] /\
    FilterRack.offline rack = ["B"] /\
    snd (fst r) = [("B", FilterWheel.open_error_message "SN-B" (-1))].
Proof.
  assert (Hnd : NoDup (map fst [("A", Bench.specA); ("B", Bench.specB)])).
  { repeat constructor; simpl; intuition discriminate. }
  destruct (from_yaml_outcome Sim.state Sim.hw (Bench.driver Bench.bench1)
              Decimal.float [("A", Bench.specA); ("B", Bench.specB)] Rig.meta1
              (Sim.world Rig.rig_unplugged) Hnd) as [_ Hok].
  eexists. split; [reflexivity |].
  split; [| split; reflexivity].
  apply (Hok _ eq_refl).
Defined.

(** ** Moving by filter name *)

Lemma slot_of_filter_none fs target :
  FilterWheel.slot_of_filter fs target = None <->
  forall s f, In (s, f) fs -> lower f <> target.
Proof.
  induction fs as [| [s0 f0] fs IH]; simpl.
  - split; [intros _ s f [] | reflexivity].
  - destruct (String.eqb_spec (lower f0) target) as [Heq | Hne].
    + split; [discriminate |]. intros Hall.
      exfalso. apply (Hall s0 f0); auto.
    + rewrite IH. split.
      * intros Hall s f [[= <- <-] | Hin]; auto. now apply Hall with (s := s).
      * intros Hall s f Hin. apply (Hall s f). now right.
Qed.

Lemma slot_of_filter_some fs target s :
  FilterWheel.slot_of_filter fs target = Some s ->
  exists f, In (s, f) fs /\ lower f = target.
Proof.
  induction fs as [| [s0 f0] fs IH]; simpl; [discriminate |].
  destruct (String.eqb_spec (lower f0) target) as [Heq | Hne].
  - intros [= <-]. exists f0. auto.
  - intros Hs. destruct (IH Hs) as (f & Hin & Hf). exists f. auto.
Qed.

(** X16.  [move_to_filter] compares names without regard to case.  When
    no slot of the wheel carries the name it raises its KeyError and calls
    nothing; and it raises that error in no other case.  When the name is
    carried by one slot only, it is [move_to] on that slot, whatever the
    case the name is written in. *)
Theorem move_to_filter_outcome :
  forall (S : Type) (hw : Hardware S) (self : FilterWheel.t) (name : string)
         (block : bool) (timeout : option Q) (w : World S),
    let r := FilterWheel.move_to_filter self name block timeout w in
    let absent :=
      forall s f, In (s, f) (FilterWheel.filters self) ->
                  lower f <> lower name in
    (absent ->
     r = (FilterWheel.FilterNotFound name (FilterWheel.serial self), w)) /\
    (forall n sn, fst r = FilterWheel.FilterNotFound n sn ->
                  absent /\ snd r = w) /\
    (forall s f,
        In (s, f) (FilterWheel.filters self) -> lower f = lower name ->
        (forall s' f', In (s', f') (FilterWheel.filters self) ->
                       lower f' = lower name -> s' = s) ->
        r = match FilterWheel.move_to self s block timeout w with
            | (Ok _, w1) => (FilterWheel.Moved, w1)
            | (Raise e, w1) => (FilterWheel.MoveRaised e, w1)
            end).
Proof.
  intros S hw self name block timeout w. cbv zeta.
  unfold FilterWheel.move_to_filter.
  pose proof (slot_of_filter_none (FilterWheel.filters self) (lower name))
    as Hnone.
  pose proof (slot_of_filter_some (FilterWheel.filters self) (lower name))
    as Hsome.
  destruct (FilterWheel.slot_of_filter (FilterWheel.filters self) (lower name))
    as [s0 |].
  - destruct (Hsome s0 eq_refl) as (f0 & Hin0 & Hf0).
    split; [| split].
    + intros Habs. exfalso. now apply (Habs s0 f0).
    + intros n sn.
      destruct (FilterWheel.move_to self s0 block timeout w) as [[[] | e] w1];
        discriminate.
    + intros s f Hin Hf Huniq. now rewrite (Huniq s0 f0 Hin0 Hf0).
  - split; [reflexivity |]. split.
    + intros n sn _. split; [now apply Hnone | reflexivity].
    + intros s f Hin Hf _. exfalso.
      now apply (proj1 Hnone eq_refl s f).
Qed.

(** ** The name index of [load_wheels_from_yaml] *)

Lemma index_entries_append index n e n' :
  index_entries (setdefault_append index n e) n'
  = if String.eqb n n' then index_entries index n ++ [e]
    else index_entries index n'.
Proof.
  unfold index_entries.
  induction index as [| [n0 es] index IH]; simpl.
  - destruct (String.eqb n n'); reflexivity.
  - destruct (String.eqb_spec n0 n) as [E0 | Hne]; simpl.
    + subst n0. destruct (String.eqb_spec n n') as [E1 | Hne']; reflexivity.
    + destruct (String.eqb_spec n0 n') as [E1 | Hne'].
      * subst n0. destruct (String.eqb_spec n n'); [congruence | reflexivity].
      * exact IH.
Qed.

Lemma index_names_entries key fs index n k s :
  In (k, s) (index_entries (index_names key fs index) n) <->
  In (k, s) (index_entries index n) \/
  (k = key /\
   exists fname, In (s, fname) fs /\ is_filter_name fname = true /\
                 lower fname = n).
Proof.
  revert index. induction fs as [| [slot fname] fs IH]; intros index; simpl.
  - split; [auto | intros [H | (_ & f & [] & _)]; exact H].
  - rewrite IH.
    assert (Hhead :
              In (k, s) (index_entries
                           (if is_filter_name fname
                            then setdefault_append index (lower fname) (key, slot)
                            else index) n) <->
              In (k, s) (index_entries index n) \/
              (k = key /\ s = slot /\ is_filter_name fname = true /\
               lower fname = n)).
    { destruct (is_filter_name fname) eqn:Hf.
      - rewrite index_entries_append.
        destruct (String.eqb_spec (lower fname) n) as [Hn | Hn].
        + rewrite Hn, in_app_iff. simpl. split.
          * intros [Hold | [E | []]]; [now left |].
            injection E as <- <-. right. auto.
          * intros [Hold | (-> & -> & _)]; auto.
        + split; [auto |]. intros [Hold | (_ & _ & _ & Hc)]; [exact Hold |].
          contradiction.
      - split; [auto |]. intros [Hold | (_ & _ & Hc & _)]; [exact Hold |].
        discriminate. }
    rewrite Hhead. split.
    + intros [[Hold | (-> & -> & H1 & H2)] | (-> & f & Hin & H1 & H2)].
      * now left.
      * right. split; [reflexivity |]. exists fname. auto.
      * right. split; [reflexivity |]. exists f. auto.
    + intros [Hold | (-> & f & [E | Hin] & H1 & H2)].
      * left. now left.
      * injection E as <- <-. left. right. auto.
      * right. split; [reflexivity |]. exists f. auto.
Qed.

Lemma load_wheels_entries cfg wheels index n k s :
  In (k, s) (index_entries (snd (load_wheels cfg wheels index)) n) <->
  In (k, s) (index_entries index n) \/
  exists spec fname,
    In (k, spec) cfg /\
    In (s, fname) (FilterWheel.filters (FilterWheel.init spec)) /\
    is_filter_name fname = true /\ lower fname = n.
Proof.
  revert wheels index. induction cfg as [| [key spec] cfg IH];
    intros wheels index; simpl.
  - split; [auto | intros [H | (sp & f & [] & _)]; exact H].
  - rewrite IH, index_names_entries. split.
    + intros [[Hold | (-> & f & Hin & H1 & H2)] | (sp & f & Hin & H1 & H2 & H3)].
      * now left.
      * right. exists spec, f. auto.
      * right. exists sp, f. auto.
    + intros [Hold | (sp & f & [[= <- <-] | Hin] & H1 & H2 & H3)].
      * left. now left.
      * left. right. split; [reflexivity |]. exists f. auto.
      * right. exists sp, f. auto.
Qed.

Lemma load_wheels_wheels cfg :
  NoDup (map fst cfg) ->
  forall wheels index,
    (forall k, In k (map fst cfg) -> ~ In k (map fst wheels)) ->
    fst (load_wheels cfg wheels index) = wheels ++ map constructed cfg.
Proof.
  induction cfg as [| [key spec] cfg IH]; intros Hnd wheels index Hfresh; simpl.
  - now rewrite app_nil_r.
  - inversion Hnd as [| ? ? Hkey Hnd']; subst.
    rewrite dict_set_fresh by (apply Hfresh; now left).
    rewrite IH; [now rewrite <- app_assoc | assumption |].
    intros k Hk. rewrite map_app, in_app_iff. simpl.
    intros [Hc | [<- | []]]; [| contradiction].
    apply (Hfresh k); [now right | assumption].
Qed.

(** X17.  The index [load_wheels_from_yaml] returns lists, under a name in
    lower case, exactly the (wheel-key, slot) pairs of the configuration
    whose slot carries a filter of that name: a name that is not empty and
    is not EMPTY in any case.  With distinct wheel keys the wheels returned
    are the constructed wheels of the configuration, in order. *)
Theorem load_wheels_from_yaml_index :
  forall (cfg : list (string * FilterWheel.Spec)) (n k : string) (s : Z),
    (In (k, s) (index_entries (snd (load_wheels_from_yaml cfg)) n) <->
     exists spec fname,
       In (k, spec) cfg /\
       In (s, fname) (FilterWheel.filters (FilterWheel.init spec)) /\
       is_filter_name fname = true /\ lower fname = n) /\
    (NoDup (map fst cfg) ->
     fst (load_wheels_from_yaml cfg) = map constructed cfg).
Proof.
  intros cfg n k s. unfold load_wheels_from_yaml. split.
  - rewrite load_wheels_entries. split; [intros [[] | H]; exact H | auto].
  - intros Hnd. now rewrite (load_wheels_wheels cfg Hnd [] [] (fun _ _ Hc => Hc)).
Qed.

(** ** Constructing a wheel *)

Section DictKeys.
Context {K V : Type} (eqb : K -> K -> bool).
Hypothesis eqb_spec : forall a b, reflect (a = b) (eqb a b).

Lemma dict_set_In_eq (d : list (K * V)) k v k' v' :
  In (k', v') (dict_set eqb d k v) -> In (k', v') d \/ (k' = k /\ v' = v).
Proof.
  induction d as [| [k0 v0] d IH]; simpl.
  - intros [[= <- <-] | []]. auto.
  - destruct (eqb_spec k0 k) as [-> | Hne]; simpl.
    + intros [[= <- <-] | Hin]; auto.
    + intros [Hhd | Hin]; [auto |]. destruct (IH Hin); auto.
Qed.

Lemma dict_set_keys (d : list (K * V)) k v k' :
  In k' (map fst (dict_set eqb d k v)) <-> In k' (map fst d) \/ k' = k.
Proof.
  induction d as [| [k0 v0] d IH]; simpl.
  - intuition.
  - destruct (eqb_spec k0 k) as [-> | Hne]; simpl.
    + intuition.
    + rewrite IH. intuition.
Qed.

Lemma dict_set_NoDup (d : list (K * V)) k v :
  NoDup (map fst d) -> NoDup (map fst (dict_set eqb d k v)).
Proof.
  induction d as [| [k0 v0] d IH]; simpl; intros Hnd.
  - constructor; [intros [] | constructor].
  - inversion Hnd as [| ? ? Hnot Hnd']; subst.
    destruct (eqb_spec k0 k) as [-> | Hne]; simpl.
    + now constructor.
    + constructor; [| now apply IH].
      rewrite dict_set_keys. intros [Hc | Hc]; congruence.
Qed.

End DictKeys.

Lemma name_or_empty_nonempty v : FilterWheel.name_or_empty v <> "".
Proof. destruct v as [[| c n] |]; discriminate. Qed.

Lemma filters_of_spec fs :
  forall d,
    NoDup (map fst d) ->
    NoDup (map fst (FilterWheel.filters_of fs d)) /\
    (forall slot name,
        In (slot, name) (FilterWheel.filters_of fs d) ->
        In (slot, name) d \/
        exists v, In (slot, v) fs /\ name = FilterWheel.name_or_empty v) /\
    (forall slot,
        In slot (map fst (FilterWheel.filters_of fs d)) <->
        In slot (map fst d) \/ In slot (map fst fs)).
Proof.
  induction fs as [| [k v] fs IH]; intros d Hnd; simpl.
  - split; [assumption |]. split; [auto | intuition].
  - destruct (IH (dict_set Z.eqb d k (FilterWheel.name_or_empty v))
                 (dict_set_NoDup _ Z.eqb_spec _ _ _ Hnd))
      as (Hnd' & Hin & Hkeys).
    split; [assumption |]. split.
    + intros slot name Hx.
      destruct (Hin slot name Hx) as [Hset | (v0 & Hv0 & Hn)].
      * destruct (dict_set_In_eq _ Z.eqb_spec _ _ _ _ _ Hset) as [Hold | [-> ->]];
          [now left |].
        right. exists v. auto.
      * right. exists v0. auto.
    + intros slot. rewrite Hkeys, (dict_set_keys _ Z.eqb_spec). intuition.
Qed.

(** X18.  A wheel as the constructor makes it has no handle and a type
    that is not the empty string.  Its slot map has every slot number of
    the configured map, each once, and nothing else; and no slot has an
    empty name: a missing or empty name has become "EMPTY". *)
Theorem constructed_wheel :
  forall (spec : FilterWheel.Spec),
    let wheel := FilterWheel.init spec in
    let configured := FilterWheel.default (FilterWheel.sp_filters spec) [] in
    FilterWheel._hdl wheel = None /\
    FilterWheel.type wheel <> "" /\
    NoDup (map fst (FilterWheel.filters wheel)) /\
    (forall slot, In slot (map fst (FilterWheel.filters wheel)) <->
                  In slot (map fst configured)) /\
    (forall slot name,
        In (slot, name) (FilterWheel.filters wheel) ->
        name <> "" /\
        exists v, In (slot, v) configured /\
                  name = FilterWheel.name_or_empty v).
Proof.
  intros spec. cbv zeta.
  destruct (filters_of_spec (FilterWheel.default (FilterWheel.sp_filters spec) [])
              [] (NoDup_nil _)) as (Hnd & Hin & Hkeys).
  split; [reflexivity |]. split.
  { simpl. destruct (FilterWheel.sp_type spec) as [[| c ty] |]; discriminate. }
  split; [exact Hnd |]. split.
  { intros slot. simpl. rewrite Hkeys. simpl. intuition. }
  intros slot name Hx. simpl in Hx.
  destruct (Hin slot name Hx) as [[] | (v & Hv & ->)].
  split; [apply name_or_empty_nonempty |]. exists v. auto.
Qed.

(** ** Listing devices *)

Lemma string_of_rev_nonempty c cur :
  string_of_list_ascii (rev (c :: cur)) <> "".
Proof.
  simpl. destruct (rev cur) as [| a l]; discriminate.
Qed.

Lemma split_aux_tokens (P : ascii -> Prop) cur s :
  (forall c, In c cur -> P c) ->
  (forall c, In c (list_ascii_of_string s) -> isspace c = false -> P c) ->
  Forall (fun tok => tok <> "" /\
                     forall c, In c (list_ascii_of_string tok) -> P c)
         (split_aux cur s).
Proof.
  revert cur. induction s as [| a s IH]; intros cur Hcur Hs; simpl.
  - destruct cur as [| c cur]; constructor; [| constructor].
    split; [apply string_of_rev_nonempty |].
    intros x Hx. rewrite list_ascii_of_string_of_list_ascii in Hx.
    apply Hcur. now apply in_rev.
  - assert (Hs' : forall c, In c (list_ascii_of_string s) ->
                            isspace c = false -> P c)
      by (intros c Hc; apply Hs; now right).
    destruct (isspace a) eqn:Ha.
    + destruct cur as [| c cur]; [apply IH; auto |].
      constructor; [| apply IH; [intros x [] | assumption]].
      split; [apply string_of_rev_nonempty |].
      intros x Hx. rewrite list_ascii_of_string_of_list_ascii in Hx.
      apply Hcur. now apply in_rev.
    + apply IH; [| assumption].
      intros c [<- | Hc]; [apply Hs; [now left | assumption] | now apply Hcur].
Qed.

Lemma commas_to_spaces_chars s c :
  In c (list_ascii_of_string (commas_to_spaces s)) -> c <> ","%char.
Proof.
  induction s as [| a s IH]; simpl; [intros [] |].
  intros [<- | Hin]; [| now apply IH].
  destruct (Ascii.eqb_spec a ","); [discriminate | assumption].
Qed.

Lemma commas_to_spaces_app a b :
  commas_to_spaces (a ++ b) = (commas_to_spaces a ++ commas_to_spaces b)%string.
Proof. induction a as [| c a IH]; simpl; [reflexivity | now rewrite IH]. Qed.

Lemma commas_to_spaces_plain d :
  (forall c, In c (list_ascii_of_string d) -> plain_char c) ->
  commas_to_spaces d = d.
Proof.
  induction d as [| a d IH]; simpl; intros Hp; [reflexivity |].
  destruct (Ascii.eqb_spec a ",") as [-> | Hne].
  - destruct (Hp ","%char (or_introl eq_refl)) as [_ Hc]. congruence.
  - rewrite IH; [reflexivity |]. intros c Hc. apply Hp. now right.
Qed.

Lemma lstrip_no_space s :
  (forall c, In c (list_ascii_of_string s) -> isspace c = false) ->
  lstrip s = s.
Proof.
  destruct s as [| a s]; simpl; intros Hs; [reflexivity |].
  now rewrite (Hs a (or_introl eq_refl)).
Qed.

Lemma rev_string_chars s c :
  In c (list_ascii_of_string (rev_string s)) <-> In c (list_ascii_of_string s).
Proof.
  unfold rev_string. rewrite list_ascii_of_string_of_list_ascii.
  symmetry. apply in_rev.
Qed.

Lemma rev_string_involutive s : rev_string (rev_string s) = s.
Proof.
  unfold rev_string.
  now rewrite list_ascii_of_string_of_list_ascii, rev_involutive,
    string_of_list_ascii_of_string.
Qed.

Lemma strip_no_space s :
  (forall c, In c (list_ascii_of_string s) -> isspace c = false) ->
  strip s = s.
Proof.
  intros Hs. unfold strip. rewrite (lstrip_no_space s Hs).
  rewrite lstrip_no_space; [apply rev_string_involutive |].
  intros c Hc. apply Hs. now apply rev_string_chars.
Qed.

Lemma chars_app a b :
  list_ascii_of_string (a ++ b)
  = list_ascii_of_string a ++ list_ascii_of_string b.
Proof. induction a as [| c a IH]; simpl; [reflexivity | now rewrite IH]. Qed.

Lemma concat_comma_chars ids c :
  Forall plain_id ids ->
  In c (list_ascii_of_string (String.concat "," ids)) -> isspace c = false.
Proof.
  induction ids as [| d ids IH]; simpl; intros Hall; [intros [] |].
  inversion Hall as [| ? ? [_ Hd] Htl]; subst.
  destruct ids as [| d' ids].
  - intros Hc. now apply Hd.
  - rewrite chars_app. intros Hc. apply in_app_or in Hc as [Hc | Hc].
    + now apply Hd.
    + simpl in Hc. destruct Hc as [<- | Hc]; [reflexivity | now apply IH].
Qed.

Lemma commas_to_spaces_concat ids :
  Forall plain_id ids ->
  commas_to_spaces (String.concat "," ids) = String.concat " " ids.
Proof.
  induction ids as [| d ids IH]; intros Hall; [reflexivity |].
  inversion Hall as [| ? ? [_ Hd] Htl]; subst.
  destruct ids as [| d' ids].
  - now apply commas_to_spaces_plain.
  - change (String.concat "," (d :: d' :: ids))
      with (d ++ "," ++ String.concat "," (d' :: ids))%string.
    change (String.concat " " (d :: d' :: ids))
      with (d ++ " " ++ String.concat " " (d' :: ids))%string.
    rewrite !commas_to_spaces_app, (commas_to_spaces_plain d Hd), (IH Htl).
    reflexivity.
Qed.

Lemma split_aux_word d cur rest :
  (forall c, In c (list_ascii_of_string d) -> isspace c = false) ->
  split_aux cur (d ++ rest) = split_aux (rev (list_ascii_of_string d) ++ cur) rest.
Proof.
  revert cur. induction d as [| a d IH]; intros cur Hd; simpl; [reflexivity |].
  rewrite (Hd a (or_introl eq_refl)).
  rewrite IH by (intros c Hc; apply Hd; now right).
  now rewrite <- app_assoc.
Qed.

Lemma string_app_nil (s : string) : (s ++ "")%string = s.
Proof. induction s as [| c s IH]; simpl; [reflexivity | now rewrite IH]. Qed.

Lemma split_aux_closes d rest :
  d <> "" ->
  (forall c, In c (list_ascii_of_string d) -> isspace c = false) ->
  split_aux [] (d ++ rest)
  = match rest with
    | EmptyString => [d]
    | String c rest' =>
        if isspace c then d :: split_aux [] rest'
        else split_aux (c :: rev (list_ascii_of_string d)) rest'
    end.
Proof.
  intros Hne Hsp. rewrite (split_aux_word d [] rest Hsp), app_nil_r.
  assert (Hback : string_of_list_ascii (rev (rev (list_ascii_of_string d))) = d)
    by (now rewrite rev_involutive, string_of_list_ascii_of_string).
  destruct (rev (list_ascii_of_string d)) as [| a l] eqn:Hr.
  - simpl in Hback. congruence.
  - destruct rest as [| c rest']; cbn [split_aux]; [now rewrite Hback |].
    destruct (isspace c); [now rewrite Hback | reflexivity].
Qed.

Lemma split_concat_space ids :
  Forall plain_id ids -> split (String.concat " " ids) = ids.
Proof.
  unfold split. induction ids as [| d ids IH]; intros Hall; [reflexivity |].
  inversion Hall as [| ? ? [Hne Hd] Htl]; subst.
  assert (Hsp : forall c, In c (list_ascii_of_string d) -> isspace c = false)
    by (intros c Hc; now destruct (Hd c Hc)).
  destruct ids as [| d' ids].
  - change (String.concat " " [d]) with d.
    rewrite <- (string_app_nil d) at 1.
    now rewrite (split_aux_closes d "" Hne Hsp).
  - change (String.concat " " (d :: d' :: ids))
      with (d ++ String " " (String.concat " " (d' :: ids)))%string.
    rewrite (split_aux_closes d _ Hne Hsp).
    change (isspace " ") with true. cbv iota. f_equal. now apply IH.
Qed.

(** X19.  From the bytes of [FWxCListDevices], [list_devices] returns ids
    that are not empty and have neither white space nor a comma in them;
    and for ids of that kind, the bytes that join them with commas are
    read back as exactly those ids, in order. *)
Theorem list_devices_ids :
  (forall txt, Forall plain_id (FilterWheel.parse_devices (DevBytes txt))) /\
  (forall ids,
      Forall plain_id ids ->
      FilterWheel.parse_devices (DevBytes (String.concat "," ids)) = ids).
Proof.
  split.
  - intros txt. simpl. apply Forall_forall. intros d Hd.
    apply filter_In in Hd as [Hd _]. unfold split in Hd.
    pose proof (split_aux_tokens plain_char [] (commas_to_spaces (strip txt))
                  (fun c Hc => match Hc with end)) as Hall.
    rewrite Forall_forall in Hall. apply Hall; [| assumption].
    intros c Hc Hsp. split; [assumption |].
    now apply (commas_to_spaces_chars (strip txt)).
  - intros ids Hall. simpl.
    rewrite (strip_no_space _ (fun c => concat_comma_chars ids c Hall)).
    rewrite (commas_to_spaces_concat ids Hall), (split_concat_space ids Hall).
    apply forallb_filter_id. apply forallb_forall. intros d Hd.
    rewrite Forall_forall in Hall. destruct (Hall d Hd) as [Hne _].
    now destruct (String.eqb_spec d "").
Qed.
